(** * TypeBuddy: the typing test of [script.js]

    A shallow embedding of the passage supplier ([fetchAndCacheQuotes],
    [shuffleArray], [getNewQuote]) and of the test session ([startTest],
    [updateTimer], [handleInput], [endTest] and the event listeners), and
    the properties of the specification stated over it. *)

From Stdlib Require Import ZArith QArith Qround Qabs Qpower Lia Lqa.
From Stdlib Require Import List String Ascii Permutation.
From stdpp Require Import base list.
Import ListNotations.

(** ** JavaScript numbers

    A JS Number is an IEEE-754 binary64 value.  The finite ones are modelled
    as rationals, and every arithmetic operator rounds its exact result to
    the nearest value with a 53-bit significand, ties to even.  The exponent
    range is left unbounded: the numbers of this program are string lengths,
    millisecond time stamps and their quotients, far from overflow and
    underflow, and no division has a zero divisor. *)
Module Number.
Local Open Scope Z_scope.

Definition prec : Z := 53.

(** Round to the nearest integer, ties to the even one. *)
Definition rne (q : Q) : Z :=
  let f := Qfloor q in
  match (q - inject_Z f ?= 1 # 2)%Q with
  | Lt => f
  | Gt => f + 1
  | Eq => if Z.even f then f else f + 1
  end.

(** The exponent [e] of the last significant bit of a positive rational:
    [2^52 <= q / 2^e < 2^53]. *)
Definition ulp_exp (q : Q) : Z :=
  let k := Z.log2 (Qnum q) - Z.log2 (Zpos (Qden q)) in
  if Qlt_le_dec q (2 ^ k)%Q then k - prec else k - prec + 1.

Definition round_pos (q : Q) : Q :=
  let e := ulp_exp q in
  (inject_Z (rne (q * 2 ^ (- e))) * 2 ^ e)%Q.

Definition round64 (q : Q) : Q :=
  match Qnum q with
  | Z0 => 0%Q
  | Zpos _ => round_pos q
  | Zneg _ => (- round_pos (- q))%Q
  end.

(** The operators [/] and [*] of the source. *)
Definition div (a b : Q) : Q := round64 (a / b).
Definition mul (a b : Q) : Q := round64 (a * b).
Definition sub (a b : Q) : Q := round64 (a - b).

(** The Numbers: the rationals that rounding leaves alone. *)
Definition representable (q : Q) : Prop := (round64 q == q)%Q.

(** [Math.round]: the nearest integer, ties towards plus infinity. *)
Definition Math_round (x : Q) : Z := Qfloor (x + (1 # 2)).

(** [Math.floor]. *)
Definition Math_floor (x : Q) : Z := Qfloor x.

(** A length or an index as a Number (exact: it is below [2^53]). *)
Definition of_nat (n : nat) : Q := inject_Z (Z.of_nat n).

End Number.


(** ** JavaScript strings and arrays

    A string is its sequence of UTF-16 code units; [s !! i] is [s[i]], with
    [None] for [undefined]. *)
Definition char : Type := N.
Definition jsstring : Type := list char.

(** A literal of the source. *)
Definition lit (s : string) : jsstring := map N_of_ascii (list_ascii_of_string s).
Arguments lit s%_string.

Definition LF : char := 10%N.
Definition CR : char := 13%N.
Definition SP : char := 32%N.

Definition inRange (lo hi c : char) : bool := (lo <=? c)%N && (c <=? hi)%N.
Arguments inRange (lo hi c)%_N.

(** The character classes of the three regular expressions. *)
Definition isPunct (c : char) : bool :=       (* [.?!,] *)
  (c =? 46)%N || (c =? 63)%N || (c =? 33)%N || (c =? 44)%N.
Definition isLower (c : char) : bool := inRange 97 122 c.      (* [a-z] *)
Definition isUpper (c : char) : bool := inRange 65 90 c.       (* [A-Z] *)
Definition isLetter (c : char) : bool := isLower c || isUpper c. (* [a-zA-Z] *)

(** [\s], which is also what [trim] strips: WhiteSpace and LineTerminator
    of ECMAScript (TAB, LF, VT, FF, CR, SP, NBSP, U+1680, U+2000..U+200A,
    LS, PS, U+202F, U+205F, U+3000, U+FEFF). *)
Definition isWhiteSpace (c : char) : bool :=
  inRange 9 13 c || (c =? 32)%N || (c =? 160)%N || (c =? 5760)%N
  || inRange 8192 8202 c || (c =? 8232)%N || (c =? 8233)%N
  || (c =? 8239)%N || (c =? 8287)%N || (c =? 12288)%N || (c =? 65279)%N.

(** [for (let i = 0; i < n; i++) body]. *)
Definition for_loop {S : Type} (n : nat) (body : nat -> S -> S) (s : S) : S :=
  foldl (fun acc i => body i acc) s (seq 0 n).

Section JSArray.
Context {A : Type} (undefined : A).

(** [array[i]]. *)
Definition array_get (array : list A) (i : nat) : A :=
  default undefined (array !! i).

(** [array[i] = v]: a write past the end grows the array. *)
Definition array_set (array : list A) (i : nat) (v : A) : list A :=
  if decide (i < length array) then <[i:=v]> array
  else array ++ replicate (i - length array) undefined ++ [v].

(** [[array[i], array[j]] = [array[j], array[i]]]: both reads, then the
    write to [i], then the write to [j]. *)
Definition array_swap (array : list A) (i j : nat) : list A :=
  let vj := array_get array j in
  let vi := array_get array i in
  array_set (array_set array i vj) j vi.

End JSArray.

(** ** The cleaning of a candidate text (the five steps of
    [fetchAndCacheQuotes]) *)

(** Step 1, [replace(/(\r\n|\n|\r)/gm, " ")]: each line break, the pair CR LF
    taken as one, becomes one space. *)
Fixpoint replaceNewlines (s : jsstring) : jsstring :=
  match s with
  | [] => []
  | c :: rest =>
      if (c =? CR)%N then
        match rest with
        | c' :: rest' =>
            if (c' =? LF)%N then SP :: replaceNewlines rest'
            else SP :: replaceNewlines rest
        | [] => [SP]
        end
      else if (c =? LF)%N then SP :: replaceNewlines rest
      else c :: replaceNewlines rest
  end.

(** [replace(/([p1])([p2])/g, '$1 $2')]: the matches are found from left to
    right and do not overlap, the search resumes after the second
    character of a match. *)
Fixpoint insertSpaceBetween (p1 p2 : char -> bool) (s : jsstring) : jsstring :=
  match s with
  | [] => []
  | c :: rest =>
      match rest with
      | c' :: rest' =>
          if p1 c && p2 c' then c :: SP :: c' :: insertSpaceBetween p1 p2 rest'
          else c :: insertSpaceBetween p1 p2 rest
      | [] => [c]
      end
  end.

(** Step 4, [replace(/\s+/g, " ")]: [inRun] tells that the previous
    character belonged to the run of white space being replaced. *)
Fixpoint collapseWhiteSpace (inRun : bool) (s : jsstring) : jsstring :=
  match s with
  | [] => []
  | c :: rest =>
      if isWhiteSpace c then
        if inRun then collapseWhiteSpace true rest
        else SP :: collapseWhiteSpace true rest
      else c :: collapseWhiteSpace false rest
  end.

Fixpoint trimStart (s : jsstring) : jsstring :=
  match s with
  | [] => []
  | c :: rest => if isWhiteSpace c then trimStart rest else s
  end.

Definition trimEnd (s : jsstring) : jsstring := reverse (trimStart (reverse s)).

(** Step 5, [trim()]. *)
Definition trim (s : jsstring) : jsstring := trimEnd (trimStart s).

Definition cleanText (textContent : jsstring) : jsstring :=
  let cleanedText := replaceNewlines textContent in
  let cleanedText := insertSpaceBetween isPunct isLetter cleanedText in
  let cleanedText := insertSpaceBetween isLower isUpper cleanedText in
  let cleanedText := collapseWhiteSpace false cleanedText in
  trim cleanedText.

(** ** The text source

    What the Open Library answers during one call of [fetchAndCacheQuotes].
    A field that is missing, [null], or not of the type the code needs is
    [None]; a string is truthy when it is not empty. *)
Inductive Description :=
| DescriptionString (s : jsstring)
| DescriptionObject (value : option jsstring).

Record Details := {
  description : option Description;
  excerpts : option (list (option jsstring))   (* the [text] of each excerpt *)
}.

Inductive DetailsResponse :=
| DetailsFetchRejected            (* [fetch] of the details rejects *)
| DetailsNotOk                    (* [!detailsResponse.ok] *)
| DetailsMalformed                (* [detailsResponse.json()] rejects *)
| DetailsJson (detailsData : Details).

Record Doc := { key : option jsstring }.

Inductive BatchResponse :=
| BatchFetchRejected              (* [fetch(API_URL)] rejects *)
| BatchMalformed                  (* [response.json()] rejects, or no object *)
| BatchJson (docs : option (list Doc)).

Record Network := {
  batch : BatchResponse;
  details : jsstring -> DetailsResponse   (* by the key of the document *)
}.

(** [textContent] of one details record; [None] stands for a value on which
    [replace] or the field access throws, which the [catch] turns into
    [null]. *)
Definition textContentOf (detailsData : Details) : option jsstring :=
  match description detailsData with
  | Some (DescriptionString ((_ :: _) as s)) => Some s
  | Some (DescriptionObject value) => value
  | _ =>
      match excerpts detailsData with
      | Some (text :: _) => text
      | _ => Some []
      end
  end.

(** The value of one entry of [detailPromises]: the cleaned text or [null]. *)
Definition detailPromise (net : Network) (doc : Doc) : option jsstring :=
  match key doc with
  | Some ((_ :: _) as k) =>
      match details net k with
      | DetailsJson detailsData =>
          match textContentOf detailsData with
          | Some ((_ :: _) as textContent) =>
              let cleanedText := cleanText textContent in
              if decide (100 < length cleanedText) then Some cleanedText else None
          | _ => None
          end
      | _ => None
      end
  | _ => None
  end.

(** [potentialQuotes] after [Promise.allSettled]: the fulfilled values that
    are not [null], in the order of [docs]. *)
Definition potentialQuotesOf (net : Network) (docs : list Doc) : list jsstring :=
  omap (detailPromise net) docs.

Definition MAX_CACHED_QUOTES : nat := 20.

Definition fallbackNoSuitable : jsstring :=
  lit "The quick brown fox jumps over the lazy dog. This is a default sentence if API fails to provide suitable descriptions. It should have spaces now!".
Definition fallbackNoDocs : jsstring :=
  lit "The quick brown fox jumps over the lazy dog. This is a default sentence because the API returned no works. It should have spaces now!".
Definition fallbackError : jsstring :=
  lit "The quick brown fox jumps over the lazy dog. This is a default sentence due to an error fetching from the API. It should have spaces now!".
Definition fallbackEmptyCache : jsstring :=
  lit "The quick brown fox jumps over the lazy dog. This is a fallback sentence. (No quotes cached)".

(** ** The state of the page

    The global variables of the script, the parts of the DOM that the logic
    reads back, and two counters that only observe: the number of requests
    for the batch and the number of calls of [Math.random].  What the script
    writes for display only (the highlighted quote, the overlay, the enabling
    of buttons) is left out. *)

(** The callback that [intervalId] runs every second. *)
Inductive Interval :=
| UpdateTimerInterval     (* [setInterval(updateTimer, 1000)] *)
| StoryClockInterval.     (* the elapsed-time arrow function of story mode *)

Record Result := { wpm : Z; accuracy : Z; shownErrors : nat }.

Record State := {
  currentQuote : jsstring;
  timeLeft : Z;
  intervalId : option Interval;   (* [None]: no interval is running *)
  startTime : Z;
  charIndex : nat;
  errors : nat;
  isTestActive : bool;
  selectedMode : string;
  selectedTimer : Z;
  cachedQuotes : list jsstring;
  quotesReadyPromise : bool;      (* [false]: still [null] *)
  textInput_value : jsstring;
  timerDisplay : Z;               (* the seconds shown *)
  resultDisplay : option Result;
  fetchCount : nat;
  randomCalls : nat
}.

Definition set_cachedQuotes (v : list jsstring) (st : State) : State :=
  {| currentQuote := currentQuote st; timeLeft := timeLeft st;
     intervalId := intervalId st; startTime := startTime st;
     charIndex := charIndex st; errors := errors st;
     isTestActive := isTestActive st; selectedMode := selectedMode st;
     selectedTimer := selectedTimer st; cachedQuotes := v;
     quotesReadyPromise := quotesReadyPromise st;
     textInput_value := textInput_value st; timerDisplay := timerDisplay st;
     resultDisplay := resultDisplay st; fetchCount := fetchCount st;
     randomCalls := randomCalls st |}.

Definition set_fetchCount (v : nat) (st : State) : State :=
  {| currentQuote := currentQuote st; timeLeft := timeLeft st;
     intervalId := intervalId st; startTime := startTime st;
     charIndex := charIndex st; errors := errors st;
     isTestActive := isTestActive st; selectedMode := selectedMode st;
     selectedTimer := selectedTimer st; cachedQuotes := cachedQuotes st;
     quotesReadyPromise := quotesReadyPromise st;
     textInput_value := textInput_value st; timerDisplay := timerDisplay st;
     resultDisplay := resultDisplay st; fetchCount := v;
     randomCalls := randomCalls st |}.

Definition set_randomCalls (v : nat) (st : State) : State :=
  {| currentQuote := currentQuote st; timeLeft := timeLeft st;
     intervalId := intervalId st; startTime := startTime st;
     charIndex := charIndex st; errors := errors st;
     isTestActive := isTestActive st; selectedMode := selectedMode st;
     selectedTimer := selectedTimer st; cachedQuotes := cachedQuotes st;
     quotesReadyPromise := quotesReadyPromise st;
     textInput_value := textInput_value st; timerDisplay := timerDisplay st;
     resultDisplay := resultDisplay st; fetchCount := fetchCount st;
     randomCalls := v |}.

Definition set_currentQuote (v : jsstring) (st : State) : State :=
  {| currentQuote := v; timeLeft := timeLeft st;
     intervalId := intervalId st; startTime := startTime st;
     charIndex := charIndex st; errors := errors st;
     isTestActive := isTestActive st; selectedMode := selectedMode st;
     selectedTimer := selectedTimer st; cachedQuotes := cachedQuotes st;
     quotesReadyPromise := quotesReadyPromise st;
     textInput_value := textInput_value st; timerDisplay := timerDisplay st;
     resultDisplay := resultDisplay st; fetchCount := fetchCount st;
     randomCalls := randomCalls st |}.

Definition set_quotesReadyPromise (v : bool) (st : State) : State :=
  {| currentQuote := currentQuote st; timeLeft := timeLeft st;
     intervalId := intervalId st; startTime := startTime st;
     charIndex := charIndex st; errors := errors st;
     isTestActive := isTestActive st; selectedMode := selectedMode st;
     selectedTimer := selectedTimer st; cachedQuotes := cachedQuotes st;
     quotesReadyPromise := v;
     textInput_value := textInput_value st; timerDisplay := timerDisplay st;
     resultDisplay := resultDisplay st; fetchCount := fetchCount st;
     randomCalls := randomCalls st |}.

Definition set_textInput_value (v : jsstring) (st : State) : State :=
  {| currentQuote := currentQuote st; timeLeft := timeLeft st;
     intervalId := intervalId st; startTime := startTime st;
     charIndex := charIndex st; errors := errors st;
     isTestActive := isTestActive st; selectedMode := selectedMode st;
     selectedTimer := selectedTimer st; cachedQuotes := cachedQuotes st;
     quotesReadyPromise := quotesReadyPromise st;
     textInput_value := v; timerDisplay := timerDisplay st;
     resultDisplay := resultDisplay st; fetchCount := fetchCount st;
     randomCalls := randomCalls st |}.

Definition set_timerDisplay (v : Z) (st : State) : State :=
  {| currentQuote := currentQuote st; timeLeft := timeLeft st;
     intervalId := intervalId st; startTime := startTime st;
     charIndex := charIndex st; errors := errors st;
     isTestActive := isTestActive st; selectedMode := selectedMode st;
     selectedTimer := selectedTimer st; cachedQuotes := cachedQuotes st;
     quotesReadyPromise := quotesReadyPromise st;
     textInput_value := textInput_value st; timerDisplay := v;
     resultDisplay := resultDisplay st; fetchCount := fetchCount st;
     randomCalls := randomCalls st |}.

Definition set_intervalId (v : option Interval) (st : State) : State :=
  {| currentQuote := currentQuote st; timeLeft := timeLeft st;
     intervalId := v; startTime := startTime st;
     charIndex := charIndex st; errors := errors st;
     isTestActive := isTestActive st; selectedMode := selectedMode st;
     selectedTimer := selectedTimer st; cachedQuotes := cachedQuotes st;
     quotesReadyPromise := quotesReadyPromise st;
     textInput_value := textInput_value st; timerDisplay := timerDisplay st;
     resultDisplay := resultDisplay st; fetchCount := fetchCount st;
     randomCalls := randomCalls st |}.

Definition set_timeLeft (v : Z) (st : State) : State :=
  {| currentQuote := currentQuote st; timeLeft := v;
     intervalId := intervalId st; startTime := startTime st;
     charIndex := charIndex st; errors := errors st;
     isTestActive := isTestActive st; selectedMode := selectedMode st;
     selectedTimer := selectedTimer st; cachedQuotes := cachedQuotes st;
     quotesReadyPromise := quotesReadyPromise st;
     textInput_value := textInput_value st; timerDisplay := timerDisplay st;
     resultDisplay := resultDisplay st; fetchCount := fetchCount st;
     randomCalls := randomCalls st |}.

(** The page as the script leaves it after its declarations (lines 12-27). *)
Definition initialState : State :=
  {| currentQuote := []; timeLeft := 0; intervalId := None; startTime := 0;
     charIndex := 0; errors := 0; isTestActive := false;
     selectedMode := "normal"; selectedTimer := 60; cachedQuotes := [];
     quotesReadyPromise := false; textInput_value := []; timerDisplay := 0;
     resultDisplay := None; fetchCount := 0; randomCalls := 0 |}.

(** The value that stands for [undefined] where an array of strings is read
    out of range.  The indices of this program are in range
    ([randomIndex_lt] below), so it is never produced. *)
Definition undefinedString : jsstring := lit "undefined".

(** What the browser hands to [handleInput]: the [inputType] of the event
    and the content of the text area, which the browser has already changed
    when it dispatches the event. *)
Record InputEvent := { inputType : string; value : jsstring }.

(** A key press: the [key] of the [keydown] event and the edit that the
    browser performs as its default action, if any. *)
Record KeyPress := { pressedKey : string; defaultEdit : option InputEvent }.

Section Page.

(** [Math_random k] is the value of the [k]-th call of [Math.random()]. *)
Variable Math_random : nat -> Q.

(** ** Passage supplier *)

(** [Math.floor(Math.random() * n)]. *)
Definition randomIndexBelow (calls n : nat) : nat :=
  Z.to_nat (Number.Math_floor (Number.mul (Math_random calls) (Number.of_nat n))).

(** The [while (currentIndex != 0)] loop of [shuffleArray]; [calls] counts
    the calls of [Math.random] made before. *)
Fixpoint shuffleLoop {A : Type} (undefined : A) (currentIndex calls : nat)
    (array : list A) : list A :=
  match currentIndex with
  | O => array
  | S currentIndex' =>
      let randomIndex := randomIndexBelow calls currentIndex in
      shuffleLoop undefined currentIndex' (S calls)
        (array_swap undefined array currentIndex' randomIndex)
  end.

Definition shuffleArray {A : Type} (undefined : A) (calls : nat)
    (array : list A) : list A :=
  shuffleLoop undefined (length array) calls array.

Definition fetchAndCacheQuotes (net : Network) (st : State) : State :=
  if decide (0 < length (cachedQuotes st)) then st
  else
    let st := set_fetchCount (S (fetchCount st)) st in
    match batch net with
    | BatchJson (Some ((_ :: _) as docs)) =>
        let potentialQuotes := potentialQuotesOf net docs in
        if decide (0 < length potentialQuotes) then
          set_cachedQuotes
            (take MAX_CACHED_QUOTES
               (shuffleArray undefinedString (randomCalls st) potentialQuotes))
            (set_randomCalls (randomCalls st + length potentialQuotes) st)
        else set_cachedQuotes [fallbackNoSuitable] st
    | BatchJson _ => set_cachedQuotes [fallbackNoDocs] st
    | BatchFetchRejected | BatchMalformed => set_cachedQuotes [fallbackError] st
    end.

Definition getNewQuote (st : State) : State :=
  if decide (0 < length (cachedQuotes st)) then
    let randomIndex := randomIndexBelow (randomCalls st) (length (cachedQuotes st)) in
    set_currentQuote (array_get undefinedString (cachedQuotes st) randomIndex)
      (set_randomCalls (S (randomCalls st)) st)
  else set_currentQuote fallbackEmptyCache st.

(** ** Test session *)

(** The body of the loop of [handleInput] (lines 301-305). *)
Definition countErrors (typedText currentQuote : jsstring) : nat :=
  for_loop (length typedText)
    (fun i errors =>
       if bool_decide (i < length currentQuote)
          && bool_decide (typedText !! i ≠ currentQuote !! i)
       then S errors else errors)
    0.

(** The body of the loop of [endTest] (lines 387-391). *)
Definition countCorrect (typedTextValue currentQuote : jsstring) : nat :=
  for_loop (length typedTextValue)
    (fun i correctChars =>
       if bool_decide (i < length currentQuote)
          && bool_decide (typedTextValue !! i = currentQuote !! i)
       then S correctChars else correctChars)
    0.

(** [endTest()]; [now] is [new Date().getTime()]. *)
Definition endTest (now : Z) (st : State) : State :=
  let endTime := inject_Z now in
  let duration := Number.div (Number.sub endTime (inject_Z (startTime st))) 1000 in
  let typedTextValue := textInput_value st in
  let correctChars := countCorrect typedTextValue (currentQuote st) in
  let totalTypedChars := length typedTextValue in
  let timeInMinutes := Number.div duration 60 in
  let wpm :=
    if Qlt_le_dec 0 timeInMinutes then
      Number.Math_round
        (Number.div (Number.div (Number.of_nat correctChars) 5) timeInMinutes)
    else 0%Z in
  let accuracy :=
    if decide (0 < totalTypedChars) then
      Number.Math_round
        (Number.mul
           (Number.div (Number.of_nat correctChars) (Number.of_nat totalTypedChars))
           100)
    else 0%Z in
  {| currentQuote := []; timeLeft := timeLeft st;
     intervalId := None; startTime := startTime st;
     charIndex := charIndex st; errors := errors st;
     isTestActive := false; selectedMode := selectedMode st;
     selectedTimer := selectedTimer st; cachedQuotes := cachedQuotes st;
     quotesReadyPromise := quotesReadyPromise st;
     textInput_value := []; timerDisplay := timerDisplay st;
     resultDisplay :=
       Some {| wpm := wpm; accuracy := accuracy; shownErrors := errors st |};
     fetchCount := fetchCount st; randomCalls := randomCalls st |}.

(** [startTest()]; [now] is [new Date().getTime()]. *)
Definition startTest (now : Z) (st : State) : State :=
  let st := getNewQuote st in
  let story := String.eqb (selectedMode st) "story" in
  {| currentQuote := currentQuote st;
     timeLeft := if story then timeLeft st else selectedTimer st;
     intervalId := Some (if story then StoryClockInterval else UpdateTimerInterval);
     startTime := now;
     charIndex := 0; errors := 0;
     isTestActive := true; selectedMode := selectedMode st;
     selectedTimer := selectedTimer st; cachedQuotes := cachedQuotes st;
     quotesReadyPromise := quotesReadyPromise st;
     textInput_value := [];
     timerDisplay := if story then 0%Z else selectedTimer st;
     resultDisplay := None;
     fetchCount := fetchCount st; randomCalls := randomCalls st |}.

(** [updateTimer()], the callback of the timed modes. *)
Definition updateTimer (now : Z) (st : State) : State :=
  let timeLeft' := (timeLeft st - 1)%Z in
  let st := set_timerDisplay timeLeft' (set_timeLeft timeLeft' st) in
  if decide (timeLeft' <= 0)%Z then endTest now (set_intervalId None st)
  else st.

(** The callback of story mode (lines 257-260): it shows the elapsed time
    and does nothing else. *)
Definition storyClock (now : Z) (st : State) : State :=
  let elapsedTime :=
    Number.Math_floor
      (Number.div (Number.sub (inject_Z now) (inject_Z (startTime st))) 1000) in
  set_timerDisplay elapsedTime st.

(** One firing of the interval that [intervalId] names. *)
Definition tick (now : Z) (st : State) : State :=
  match intervalId st with
  | Some UpdateTimerInterval => updateTimer now st
  | Some StoryClockInterval => storyClock now st
  | None => st
  end.

(** [handleInput(e)]: [e.preventDefault()] has no effect, an [input] event
    cannot be cancelled. *)
Definition handleInput (now : Z) (e_inputType : string) (st : State) : State :=
  if negb (isTestActive st) then st
  else if String.eqb (selectedMode st) "no-backspace"
          && String.eqb e_inputType "deleteContentBackward" then st
  else
    let typedText := textInput_value st in
    let charIndex' := length typedText in
    let errors' := countErrors typedText (currentQuote st) in
    let st :=
      {| currentQuote := currentQuote st; timeLeft := timeLeft st;
         intervalId := intervalId st; startTime := startTime st;
         charIndex := charIndex'; errors := errors';
         isTestActive := isTestActive st; selectedMode := selectedMode st;
         selectedTimer := selectedTimer st; cachedQuotes := cachedQuotes st;
         quotesReadyPromise := quotesReadyPromise st;
         textInput_value := textInput_value st; timerDisplay := timerDisplay st;
         resultDisplay := resultDisplay st; fetchCount := fetchCount st;
         randomCalls := randomCalls st |} in
    if negb (String.eqb (selectedMode st) "story")
       && bool_decide (length (currentQuote st) <= charIndex')
    then endTest now (set_intervalId None st)
    else st.

(** The [keydown] listener; the result tells whether it called
    [e.preventDefault()]. *)
Definition keydownListener (e_key : string) (st : State) : bool :=
  String.eqb (selectedMode st) "no-backspace" && String.eqb e_key "Backspace".

(** The click listener of the stop button. *)
Definition stopClick (now : Z) (st : State) : State :=
  endTest now (set_intervalId None st).

(** [startCountdown()]: it empties the text area; three and a half seconds
    later its timers call [startTest] (the event [CountdownOver] below). *)
Definition startCountdown (st : State) : State :=
  set_textInput_value [] st.

(** The click listener of the start button; [level] and [mode] are the
    values of the two selectors. *)
Definition startClick (level mode : string) (net : Network) (st : State) : State :=
  let selectedTimer' :=
    if String.eqb level "easy" then 60%Z
    else if String.eqb level "medium" then 45%Z else 30%Z in
  let st :=
    {| currentQuote := currentQuote st; timeLeft := timeLeft st;
       intervalId := intervalId st; startTime := startTime st;
       charIndex := charIndex st; errors := errors st;
       isTestActive := isTestActive st; selectedMode := mode;
       selectedTimer := selectedTimer'; cachedQuotes := cachedQuotes st;
       quotesReadyPromise := quotesReadyPromise st;
       textInput_value := textInput_value st; timerDisplay := timerDisplay st;
       resultDisplay := resultDisplay st; fetchCount := fetchCount st;
       randomCalls := randomCalls st |} in
  let st :=
    if quotesReadyPromise st then st
    else set_quotesReadyPromise true (fetchAndCacheQuotes net st) in
  startCountdown st.

(** The last line of the script, run when the page loads. *)
Definition pageLoad (net : Network) (st : State) : State :=
  set_quotesReadyPromise true (fetchAndCacheQuotes net st).

(** ** The browser

    The browser changes the text area and then dispatches the [input]
    event; a key press first runs the [keydown] listener, and its default
    edit happens only if the listener has not prevented it. *)
Definition dispatchInput (now : Z) (e : InputEvent) (st : State) : State :=
  handleInput now (inputType e) (set_textInput_value (value e) st).

Definition dispatchKeyPress (now : Z) (k : KeyPress) (st : State) : State :=
  if keydownListener (pressedKey k) st then st
  else
    match defaultEdit k with
    | Some e => dispatchInput now e st
    | None => st
    end.

Inductive Event :=
| StartClick (level mode : string) (net : Network)
| CountdownOver (now : Z)
| Tick (now : Z)
| Input (now : Z) (e : InputEvent)
| Key (now : Z) (k : KeyPress)
| StopClick (now : Z).

Definition step (st : State) (ev : Event) : State :=
  match ev with
  | StartClick level mode net => startClick level mode net st
  | CountdownOver now => startTest now st
  | Tick now => tick now st
  | Input now e => dispatchInput now e st
  | Key now k => dispatchKeyPress now k st
  | StopClick now => stopClick now st
  end.

Definition run (st : State) (evs : list Event) : State := foldl step st evs.

End Page.

(** ** The words of the specification

    The quantities that the specification names, written after its text, to
    be compared with what the functions above compute. *)

(** The number of positions [i < min(len(a), len(b))] with [a[i] = b[i]]. *)
Definition matchingPositions (a b : jsstring) : nat :=
  length (filter (fun i => a !! i = b !! i) (seq 0 (min (length a) (length b)))).

(** The number of positions [i < min(len(a), len(b))] with [a[i] ≠ b[i]]. *)
Definition differingPositions (a b : jsstring) : nat :=
  length (filter (fun i => a !! i ≠ b !! i) (seq 0 (min (length a) (length b)))).

(** [round(x)] of the specification: the nearest integer, a half going
    up. *)
Definition exact_round (x : Q) : Z := Qfloor (x + (1 # 2)).

(** [wpm = round((correctChars / 5) / (durationSeconds / 60))] if the
    duration is positive, else 0, in the arithmetic of the rationals: no
    quotient is rounded.  The duration is given in milliseconds, as the
    clock gives it. *)
Definition exact_wpm (correctChars : nat) (elapsed : Z) : Z :=
  if decide (0 < elapsed)%Z then
    exact_round ((inject_Z (Z.of_nat correctChars) / 5)
                 / ((inject_Z elapsed / 1000) / 60))
  else 0%Z.

(** [accuracyPercent = round(correctChars / totalTypedChars * 100)] if
    [totalTypedChars > 0], else 0, in the arithmetic of the rationals. *)
Definition exact_accuracy (correctChars totalTypedChars : nat) : Z :=
  if decide (0 < totalTypedChars) then
    exact_round (inject_Z (Z.of_nat correctChars) / inject_Z (Z.of_nat totalTypedChars)
                 * 100)
  else 0%Z.

(** [x] is [X] up to the relative error [u]. *)
Definition near (u x X : Q) : Prop := (X * (1 - u) <= x ∧ x <= X * (1 + u))%Q.

(** The Fisher-Yates shuffle of an array of [n] elements, as it is
    described: one of the elements is chosen at random and becomes the last
    of the result, the element that was last takes the place of the chosen
    one, and the [n - 1] elements before the last are shuffled likewise.
    [pick k n] is the choice, below [n], of the draw number [k]. *)
Fixpoint fisherYates {A : Type} (pick : nat -> nat -> nat) (k n : nat) (array : list A)
    : list A :=
  match n with
  | O => array
  | S m =>
      match array !! m, array !! pick k n with
      | Some final, Some chosen =>
          fisherYates pick (S k) m (take m (<[pick k n := final]> array)) ++ [chosen]
      | _, _ => array
      end
  end.

(** ** The score as [endTest] computes it

    The same quantities with every operator the operator of Numbers, as
    lines 380 and 394 to 406 of the source have them: each difference,
    quotient and product is rounded to the nearest Number, and [round] is
    [Math.round]. *)

(** [duration = (endTime - startTime) / 1000]. *)
Definition durationSeconds (now : Z) (st : State) : Q :=
  Number.div (Number.sub (inject_Z now) (inject_Z (startTime st))) 1000.

(** [Math.round((correctChars / 5) / (duration / 60))] if the duration is
    positive, else 0. *)
Definition wpm_in_Numbers (correctChars : nat) (duration : Q) : Z :=
  if Qlt_le_dec 0 duration then
    Number.Math_round
      (Number.div (Number.div (Number.of_nat correctChars) 5) (Number.div duration 60))
  else 0%Z.

(** [Math.round((correctChars / totalTypedChars) * 100)] if
    [totalTypedChars > 0], else 0. *)
Definition accuracy_in_Numbers (correctChars totalTypedChars : nat) : Z :=
  if decide (0 < totalTypedChars) then
    Number.Math_round
      (Number.mul
         (Number.div (Number.of_nat correctChars) (Number.of_nat totalTypedChars)) 100)
  else 0%Z.

(** ** The words of the specification, continued *)

(** The three properties of a passage of the cache. *)
Definition noLineBreak (s : jsstring) : Prop := (LF ∉ s) ∧ (CR ∉ s).

Definition noSpaceRun (s : jsstring) : Prop :=
  ∀ before after, s ≠ (before ++ SP :: SP :: after).

Definition cleanPassage (s : jsstring) : Prop :=
  100 < length s ∧ noLineBreak s ∧ noSpaceRun s.

(** White space as step 4 leaves it: every white-space character is a
    space, and no two of them are neighbours. *)
Fixpoint tidy (s : jsstring) : Prop :=
  match s with
  | [] => True
  | c :: rest =>
      (isWhiteSpace c = true ->
       c = SP ∧ match rest with
                | c' :: _ => isWhiteSpace c' = false
                | [] => True
                end)
      ∧ tidy rest
  end.

(** The first character, if any, is not white space. *)
Definition startsClean (s : jsstring) : Prop :=
  match s with
  | c :: _ => isWhiteSpace c = false
  | [] => True
  end.

(** A test is running. *)
Definition running (st : State) : Prop := isTestActive st = true.

(** The story clock is the interval of a running test in story mode. *)
Definition storyRunning (st : State) : Prop :=
  isTestActive st = true
  ∧ selectedMode st = "story"%string
  ∧ intervalId st = Some StoryClockInterval.

(** [handleInput] goes past its two guards and scores the text. *)
Definition scored (e : InputEvent) (st : State) : Prop :=
  ¬ (selectedMode st = "no-backspace"%string
     ∧ inputType e = "deleteContentBackward"%string).

(** What [Math.random] promises: a Number that is at least 0 and below 1. *)
Definition unitInterval (Math_random : nat -> Q) : Prop :=
  ∀ k, (0 <= Math_random k)%Q ∧ (Math_random k < 1)%Q
       ∧ Number.representable (Math_random k).

(** The length of an array is an index, far below [2^53]. *)
Definition arrayLength (n : nat) : Prop := (Z.of_nat n < 2 ^ 32)%Z.

(** The sentence with which every fallback passage begins. *)
Definition pangram : jsstring := lit "The quick brown fox jumps over the lazy dog. ".

(** The events that can reach a running test without stopping it by
    request: timer ticks, edits and key presses. *)
Definition timerOrTyping (ev : Event) : Prop :=
  match ev with
  | Tick _ | Input _ _ | Key _ _ => True
  | StartClick _ _ _ | CountdownOver _ | StopClick _ => False
  end.

(** ** Concrete runs

    A page whose requests all fail and whose [Math.random] cycles through
    0, 1/4, 1/2 and 3/4; sessions started on it in a given mode. *)
Definition quarters (k : nat) : Q := Z.of_nat (k mod 4) # 4.

Definition offline : Network :=
  {| batch := BatchFetchRejected; details := fun _ => DetailsFetchRejected |}.

Definition typed (inputType : string) (text : string) : InputEvent :=
  {| inputType := inputType; value := lit text |}.

(** Three texts as the source may send them, with line breaks, missing
    spaces and runs of spaces. *)
Definition work1 : jsstring :=
  lit "It was the best of times,it was the worst of times." ++ [CR; LF]
  ++ lit "It was the age of wisdom,   it was the age of foolishness.It was the epoch of belief.".

Definition work2 : jsstring :=
  lit "  Call me Ishmael.Some years ago,never mind how long precisely," ++ [LF; LF]
  ++ lit "having little or no money in my purse,I thought I would sail about a little.  ".

Definition work3 : jsstring :=
  lit "theWhale swam on.TheCaptain watched the horizon for hours,and the crew waited in silence below the deck.".

(** A source with five documents: two descriptions that need cleaning, a
    document without key, an excerpt, and a description that is too short. *)
Definition library : Network :=
  {| batch :=
       BatchJson (Some [ {| key := Some (lit "/works/1") |};
                         {| key := Some (lit "/works/2") |};
                         {| key := None |};
                         {| key := Some (lit "/works/3") |};
                         {| key := Some (lit "/works/4") |} ]);
     details := fun k =>
       if decide (k = lit "/works/1") then
         DetailsJson {| description := Some (DescriptionString work1); excerpts := None |}
       else if decide (k = lit "/works/2") then
         DetailsJson {| description := Some (DescriptionObject (Some work2));
                        excerpts := None |}
       else if decide (k = lit "/works/3") then
         DetailsJson {| description := None; excerpts := Some [Some work3] |}
       else if decide (k = lit "/works/4") then
         DetailsJson {| description := Some (DescriptionString (lit "Too short."));
                        excerpts := None |}
       else DetailsNotOk |}.

(** A source whose documents have no key, and one without documents. *)
Definition keyless : Network :=
  {| batch := BatchJson (Some [ {| key := None |}; {| key := Some [] |} ]);
     details := fun _ => DetailsNotOk |}.

Definition noDocs : Network :=
  {| batch := BatchJson None; details := fun _ => DetailsNotOk |}.

Definition loadedPage : State := pageLoad quarters offline initialState.

Definition sessionIn (mode : string) : list Event :=
  [StartClick "easy" mode offline; CountdownOver 1000].

(** ** The rendering of the quote

    What [displayQuote] and [updateQuoteDisplay] put in the quote area, as a
    value computed from the page.  The staggered animation and the
    scrolling, which depend on the layout, are left out. *)
Inductive QuoteDisplay :=
| LoadingQuotes                    (* "Loading quotes..." *)
| ClickStart                       (* "Click 'Start Test' to begin!" *)
| QuoteSpans (chars : jsstring).   (* one span for each character *)

Definition displayQuote (st : State) : QuoteDisplay :=
  if negb (isTestActive st) && bool_decide (length (cachedQuotes st) = 0) then
    LoadingQuotes
  else if negb (isTestActive st) then ClickStart
  else QuoteSpans (currentQuote st).

(** The class of a span. *)
Inductive CharClass := Correct | Incorrect | Current | Unmarked.

#[global] Instance CharClass_eq_dec : EqDecision CharClass.
Proof. solve_decision. Defined.

(** The class that the loop of [updateQuoteDisplay] gives to the span of
    index [i] (lines 328-337). *)
Definition classOf (typedText currentQuote : jsstring) (i : nat) : CharClass :=
  if decide (i < length typedText) then
    if decide (typedText !! i = currentQuote !! i) then Correct else Incorrect
  else if decide (i = length typedText) then Current
  else Unmarked.

(** [span.classList.remove('current')]. *)
Definition removeCurrent (span : char * CharClass) : char * CharClass :=
  match span with
  | (c, Current) => (c, Unmarked)
  | _ => span
  end.

(** [updateQuoteDisplay()]: the spans of the quote area, in order. *)
Definition updateQuoteDisplay (st : State) : list (char * CharClass) :=
  let typedText := textInput_value st in
  let spans :=
    imap (fun i c => (c, classOf typedText (currentQuote st) i)) (currentQuote st) in
  if bool_decide (length (currentQuote st) ≤ length typedText)
     && negb (String.eqb (selectedMode st) "story")
  then map removeCurrent spans
  else spans.

(** The number of spans of class [k]. *)
Definition countClass (k : CharClass) (spans : list (char * CharClass)) : nat :=
  length (filter (fun span => span.2 = k) spans).

(** ** More words for the properties *)

(** The characters of a text that are not white space, in order. *)
Definition nonWhite (s : list char) : list char :=
  filter (fun c => isWhiteSpace c = false) s.

(** No character of class [p1] is directly followed by one of class [p2]. *)
Fixpoint noPair (p1 p2 : char -> bool) (s : jsstring) : Prop :=
  match s with
  | [] => True
  | c :: rest =>
      match rest with
      | c' :: _ => p1 c && p2 c' = false
      | [] => True
      end
      ∧ noPair p1 p2 rest
  end.

(** The last character, if any, is not white space. *)
Definition endsClean (s : jsstring) : Prop := startsClean (reverse s).

(** The timed modes: the interval of a running test is [updateTimer]. *)
Definition timedRunning (st : State) : Prop :=
  isTestActive st = true ∧ intervalId st = Some UpdateTimerInterval.

(** No test is running and no interval is left. *)
Definition idle (st : State) : Prop :=
  isTestActive st = false ∧ intervalId st = None.

(** The number of timer ticks among some events. *)
Definition isTick (ev : Event) : bool :=
  match ev with
  | Tick _ => true
  | _ => false
  end.

Definition ticksOf (evs : list Event) : nat :=
  length (filter (fun ev => isTick ev = true) evs).

(** The seconds of a level, as the click listener of the start button
    chooses them. *)
Definition secondsOf (level : string) : Z :=
  if String.eqb level "easy" then 60%Z
  else if String.eqb level "medium" then 45%Z else 30%Z.

(** The interval and the running test go together. *)
Definition intervalWithTest (st : State) : Prop :=
  isTestActive st = true ↔ intervalId st ≠ None.

(** * Properties *)

(** ** Rounding to a Number *)
Module NumberFacts.
Import Number.
Local Open Scope Z_scope.

(** Powers of two, of any integer exponent. *)
Lemma pow2_pos e : (0 < 2 ^ e)%Q.
Proof. apply Qpower_0_lt. reflexivity. Qed.

Lemma pow2_add a b : (2 ^ (a + b) == 2 ^ a * 2 ^ b)%Q.
Proof. apply Qpower_plus. discriminate. Qed.

Lemma pow2_inject n : 0 <= n -> (2 ^ n == inject_Z (2 ^ n))%Q.
Proof. intros H. symmetry. apply (Zpower_Qpower 2 n H). Qed.

Lemma pow2_cancel e : (2 ^ e * 2 ^ (- e) == 1)%Q.
Proof. rewrite <- pow2_add. replace (e + - e) with 0 by lia. reflexivity. Qed.

(** The difference of the binary logarithms of numerator and denominator
    is within one of the binary logarithm of the quotient. *)
Lemma log2_bracket (q : Q) : (0 < q)%Q ->
  let k := Z.log2 (Qnum q) - Z.log2 (Zpos (Qden q)) in
  (2 ^ (k - 1) < q /\ q < 2 ^ (k + 1))%Q.
Proof.
  destruct q as [n d]. intros Hq k. change (Qnum (n # d)) with n in k. change (Qden (n # d)) with d in k.
  assert (Hn : 0 < n) by (unfold Qlt in Hq; cbn in Hq; lia).
  set (a := Z.log2 n) in *. set (b := Z.log2 (Z.pos d)) in *.
  assert (Ha : 2 ^ a <= n < 2 ^ (a + 1)).
  { unfold a. replace (Z.log2 n + 1) with (Z.succ (Z.log2 n)) by lia.
    apply Z.log2_spec; lia. }
  assert (Hb : 2 ^ b <= Z.pos d < 2 ^ (b + 1)).
  { unfold b. replace (Z.log2 (Z.pos d) + 1) with (Z.succ (Z.log2 (Z.pos d))) by lia.
    apply Z.log2_spec; lia. }
  assert (Ha0 : 0 <= a) by apply Z.log2_nonneg.
  assert (Hb0 : 0 <= b) by apply Z.log2_nonneg.
  assert (HA : 0 < 2 ^ a) by (apply Z.pow_pos_nonneg; lia).
  assert (HB : 0 < 2 ^ b) by (apply Z.pow_pos_nonneg; lia).
  assert (E1 : (2 ^ (k - 1) * inject_Z (2 ^ (b + 1)) == inject_Z (2 ^ a))%Q).
  { rewrite <- !pow2_inject by lia. rewrite <- pow2_add.
    replace (k - 1 + (b + 1)) with a by (unfold k; lia). reflexivity. }
  assert (E2 : (2 ^ (k + 1) * inject_Z (2 ^ b) == inject_Z (2 ^ (a + 1)))%Q).
  { rewrite <- !pow2_inject by lia. rewrite <- pow2_add.
    replace (k + 1 + b) with (a + 1) by (unfold k; lia). reflexivity. }
  assert (P1 := pow2_pos (k - 1)). assert (P2 := pow2_pos (k + 1)).
  assert (Z1 : 2 ^ a * Z.pos d < n * 2 ^ (b + 1)).
  { apply Z.le_lt_trans with (n * Z.pos d).
    - apply Z.mul_le_mono_nonneg_r; lia.
    - apply Z.mul_lt_mono_pos_l; lia. }
  assert (Z2 : n * 2 ^ b < 2 ^ (a + 1) * Z.pos d).
  { apply Z.lt_le_trans with (2 ^ (a + 1) * 2 ^ b).
    - apply Z.mul_lt_mono_pos_r; lia.
    - apply Z.mul_le_mono_nonneg_l; lia. }
  assert (L1 : (inject_Z (2 ^ a) < (n # d) * inject_Z (2 ^ (b + 1)))%Q).
  { unfold Qlt; cbn [Qnum Qden Qmult inject_Z]; lia. }
  assert (L2 : ((n # d) * inject_Z (2 ^ b) < inject_Z (2 ^ (a + 1)))%Q).
  { unfold Qlt; cbn [Qnum Qden Qmult inject_Z]; lia. }
  assert (B1 : (0 < inject_Z (2 ^ (b + 1)))%Q) by (unfold Qlt; cbn [Qnum Qden Qmult inject_Z]; lia).
  assert (B0 : (0 < inject_Z (2 ^ b))%Q) by (unfold Qlt; cbn [Qnum Qden Qmult inject_Z]; lia).
  rewrite <- E1 in L1. rewrite <- E2 in L2.
  split.
  - apply (Qmult_lt_r _ _ (inject_Z (2 ^ (b + 1)))); assumption.
  - apply (Qmult_lt_r _ _ (inject_Z (2 ^ b))); assumption.
Qed.

(** The scaled value of a positive rational has exactly 53 bits before the
    point. *)
Lemma ulp_exp_spec (q : Q) : (0 < q)%Q ->
  (2 ^ (prec - 1) <= q * 2 ^ (- ulp_exp q) /\ q * 2 ^ (- ulp_exp q) < 2 ^ prec)%Q.
Proof.
  intros Hq. destruct (log2_bracket q Hq) as [Hlo Hhi].
  unfold ulp_exp.
  set (k := Z.log2 (Qnum q) - Z.log2 (Zpos (Qden q))) in *.
  destruct (Qlt_le_dec q (2 ^ k)) as [Hlt | Hge].
  - assert (P := pow2_pos (- (k - prec))).
    split.
    + replace (prec - 1) with ((k - 1) + - (k - prec)) by lia.
      rewrite pow2_add. apply Qmult_le_compat_r; lra.
    + replace prec with (k + - (k - prec)) at 2 by lia.
      rewrite pow2_add. apply Qmult_lt_compat_r; lra.
  - assert (P := pow2_pos (- (k - prec + 1))).
    split.
    + replace (prec - 1) with (k + - (k - prec + 1)) by lia.
      rewrite pow2_add. apply Qmult_le_compat_r; lra.
    + replace prec with ((k + 1) + - (k - prec + 1)) at 2 by lia.
      rewrite pow2_add. apply Qmult_lt_compat_r; lra.
Qed.

(** Rounding to an integer moves a value by at most one half. *)
Lemma rne_bounds q : (inject_Z (rne q) - (1 # 2) <= q /\ q <= inject_Z (rne q) + (1 # 2))%Q.
Proof.
  unfold rne. assert (Hlo := Qfloor_le q). assert (Hhi := Qlt_floor q).
  rewrite inject_Z_plus in Hhi. change (inject_Z 1) with 1%Q in Hhi.
  destruct (Qcompare_spec (q - inject_Z (Qfloor q)) (1 # 2)) as [E | L | G].
  - destruct (Z.even (Qfloor q)).
    + lra.
    + rewrite inject_Z_plus. change (inject_Z 1) with 1%Q. lra.
  - lra.
  - rewrite inject_Z_plus. change (inject_Z 1) with 1%Q. lra.
Qed.

Lemma Qlt_inject_Z a b : (inject_Z a < inject_Z b)%Q -> a < b.
Proof. rewrite <- Zlt_Qlt. trivial. Qed.

Lemma rne_le q k : (q <= inject_Z k)%Q -> rne q <= k.
Proof.
  intros H. destruct (rne_bounds q) as [Hlo _].
  assert (L : (inject_Z (rne q) < inject_Z (k + 1))%Q).
  { rewrite inject_Z_plus. change (inject_Z 1) with 1%Q. lra. }
  apply Qlt_inject_Z in L. lia.
Qed.

Lemma rne_ge q k : (inject_Z k <= q)%Q -> k <= rne q.
Proof.
  intros H. destruct (rne_bounds q) as [_ Hhi].
  assert (L : (inject_Z (k - 1) < inject_Z (rne q))%Q).
  { unfold Z.sub. rewrite inject_Z_plus. change (inject_Z (- (1))) with (- (1))%Q. lra. }
  apply Qlt_inject_Z in L. lia.
Qed.

Lemma rne_lt q k : (q < inject_Z k - (1 # 2))%Q -> rne q < k.
Proof.
  intros H. destruct (rne_bounds q) as [Hlo _].
  apply Qlt_inject_Z. lra.
Qed.

(** Rounding keeps the sign. *)
Lemma round_pos_pos q : (0 < q)%Q -> (0 < round_pos q)%Q.
Proof.
  intros Hq. unfold round_pos.
  destruct (ulp_exp_spec q Hq) as [Hlo _].
  apply Qmult_lt_0_compat; [| apply pow2_pos].
  assert (1 <= rne (q * 2 ^ (- ulp_exp q))).
  { apply rne_ge. eapply Qle_trans; [| exact Hlo]. discriminate. }
  change 0%Q with (inject_Z 0). rewrite <- Zlt_Qlt. lia.
Qed.

Lemma round64_pos q : (0 < q)%Q -> (0 < round64 q)%Q.
Proof.
  intros Hq. unfold round64. destruct q as [[| n | n] d]; try discriminate Hq.
  apply round_pos_pos; assumption.
Qed.

Lemma round64_nonpos q : (q <= 0)%Q -> (round64 q <= 0)%Q.
Proof.
  intros Hq. unfold round64. destruct q as [[| n | n] d]; cbn [Qnum].
  - apply Qle_refl.
  - exfalso. apply Hq. reflexivity.
  - assert (0 < round_pos (- (Z.neg n # d)))%Q by (apply round_pos_pos; reflexivity).
    lra.
Qed.

Lemma round64_nonneg q : (0 <= q)%Q -> (0 <= round64 q)%Q.
Proof.
  intros Hq. unfold round64. destruct q as [[| n | n] d]; cbn [Qnum].
  - apply Qle_refl.
  - apply Qlt_le_weak, round_pos_pos. reflexivity.
  - exfalso. apply Hq. reflexivity.
Qed.

Lemma round64_pos_iff q : (0 < round64 q)%Q <-> (0 < q)%Q.
Proof.
  split; [| apply round64_pos]. intros H.
  destruct (Qlt_le_dec 0 q) as [Hq | Hq]; [exact Hq |].
  apply round64_nonpos in Hq. lra.
Qed.

(** The scaled value of a positive rational below [2^53] is scaled up. *)
Lemma ulp_exp_small q N : (0 < q)%Q -> (q <= inject_Z N)%Q -> N < 2 ^ prec ->
  ulp_exp q <= 0.
Proof.
  intros Hq HN Hb. destruct (ulp_exp_spec q Hq) as [Hlo _].
  destruct (Z.le_gt_cases (ulp_exp q) 0) as [H | H]; [assumption | exfalso].
  assert (P : (2 ^ prec <= 2 ^ (prec - 1) * 2 ^ ulp_exp q)%Q).
  { rewrite <- pow2_add. apply Qpower_le_compat_l; [lia | discriminate]. }
  assert (E : (q == q * 2 ^ (- ulp_exp q) * 2 ^ ulp_exp q)%Q).
  { rewrite <- Qmult_assoc, (Qmult_comm (2 ^ (- _))), pow2_cancel. ring. }
  assert (P' := pow2_pos (ulp_exp q)).
  assert (L : (2 ^ (prec - 1) * 2 ^ ulp_exp q <= q)%Q).
  { rewrite E at 2. apply Qmult_le_compat_r; lra. }
  assert (I : (inject_Z N < 2 ^ prec)%Q).
  { rewrite pow2_inject by (unfold prec; lia). rewrite <- Zlt_Qlt. assumption. }
  lra.
Qed.

(** Rounding does not cross an integer below [2^53]: such an integer is
    itself a Number. *)
Lemma round_pos_le_int q N : (0 < q)%Q -> (q <= inject_Z N)%Q -> N < 2 ^ prec ->
  (round_pos q <= inject_Z N)%Q.
Proof.
  intros Hq HN Hb. assert (He := ulp_exp_small q N Hq HN Hb).
  unfold round_pos. set (e := ulp_exp q) in *.
  assert (P := pow2_pos e). assert (P' := pow2_pos (- e)).
  assert (S : (q * 2 ^ (- e) <= inject_Z (N * 2 ^ (- e)))%Q).
  { rewrite inject_Z_mult, <- pow2_inject by lia. apply Qmult_le_compat_r; lra. }
  apply rne_le in S. rewrite Zle_Qle in S.
  rewrite inject_Z_mult, <- pow2_inject in S by lia.
  assert (E : (inject_Z N == inject_Z N * 2 ^ (- e) * 2 ^ e)%Q).
  { rewrite <- Qmult_assoc, (Qmult_comm (2 ^ (- _))), pow2_cancel. ring. }
  rewrite E. apply Qmult_le_compat_r; lra.
Qed.

Lemma round64_le_int q N : (q <= inject_Z N)%Q -> 0 <= N < 2 ^ prec ->
  (round64 q <= inject_Z N)%Q.
Proof.
  intros HN Hb. destruct (Qlt_le_dec 0 q) as [Hq | Hq].
  - unfold round64. destruct q as [[| n | n] d]; try discriminate Hq.
    apply round_pos_le_int; [assumption | assumption | lia].
  - apply Qle_trans with 0%Q; [apply round64_nonpos; assumption |].
    change 0%Q with (inject_Z 0). rewrite <- Zle_Qle. lia.
Qed.

Lemma round64_of_pos q : (0 < q)%Q -> round64 q = round_pos q.
Proof.
  intros Hq. unfold round64. destruct q as [[| n | n] d]; try discriminate Hq.
  reflexivity.
Qed.


Lemma pow2_scale_back q e : (q * 2 ^ (- e) * 2 ^ e == q)%Q.
Proof. rewrite <- Qmult_assoc, (Qmult_comm (2 ^ (- _))), pow2_cancel. ring. Qed.

(** The largest Number below 1 is [1 - 2^-53]. *)
Lemma representable_below_one u :
  (0 < u)%Q -> (u < 1)%Q -> representable u -> (u <= 1 - 2 ^ (- prec))%Q.
Proof.
  intros H0 H1 R. unfold representable in R. rewrite (round64_of_pos u H0) in R.
  unfold round_pos in R. destruct (ulp_exp_spec u H0) as [Hlo Hhi].
  set (e := ulp_exp u) in *. set (m := rne (u * 2 ^ (- e))) in *.
  assert (P := pow2_pos e). assert (P' := pow2_pos (- e)).
  assert (M : (u * 2 ^ (- e) == inject_Z m)%Q).
  { rewrite <- R at 1. rewrite <- Qmult_assoc, pow2_cancel. ring. }
  assert (Mb : m <= 2 ^ prec - 1).
  { rewrite M, pow2_inject in Hhi by (unfold prec; lia).
    apply Qlt_inject_Z in Hhi. lia. }
  assert (E : e <= - prec).
  { assert (L : (2 ^ (prec - 1) < 2 ^ (- e))%Q).
    { apply Qle_lt_trans with (u * 2 ^ (- e))%Q; [assumption |].
      rewrite <- (Qmult_1_l (2 ^ (- e))) at 2. apply Qmult_lt_compat_r; assumption. }
    apply Qpower_lt_compat_l_inv in L; [lia | reflexivity]. }
  assert (S : (2 ^ e <= 2 ^ (- prec))%Q).
  { apply Qpower_le_compat_l; [assumption | discriminate]. }
  rewrite <- R.
  apply Qle_trans with (inject_Z (2 ^ prec - 1) * 2 ^ e)%Q.
  - apply Qmult_le_compat_r; [rewrite <- Zle_Qle; assumption | lra].
  - apply Qle_trans with (inject_Z (2 ^ prec - 1) * 2 ^ (- prec))%Q.
    + rewrite !(Qmult_comm (inject_Z _)). apply Qmult_le_compat_r; [assumption | discriminate].
    + vm_compute. discriminate.
Qed.

(** The product of an integer below [2^53] with a Number below 1 rounds to
    a value that is still below the integer. *)
Lemma round_pos_below_int q N :
  (0 < q)%Q -> (q <= inject_Z N * (1 - 2 ^ (- prec)))%Q -> 0 < N < 2 ^ prec ->
  (round_pos q < inject_Z N)%Q.
Proof.
  intros Hq HN Hb.
  assert (N0 : (0 < inject_Z N)%Q) by (change 0%Q with (inject_Z 0); rewrite <- Zlt_Qlt; lia).
  assert (C : (1 - 2 ^ (- prec) < 1)%Q) by reflexivity.
  assert (HN' : (q < inject_Z N)%Q).
  { eapply Qle_lt_trans; [exact HN |]. rewrite <- (Qmult_1_r (inject_Z N)) at 2.
    rewrite !(Qmult_comm (inject_Z N)). apply Qmult_lt_compat_r; assumption. }
  assert (He := ulp_exp_small q N Hq (Qlt_le_weak _ _ HN') (proj2 Hb)).
  destruct (ulp_exp_spec q Hq) as [Hlo _].
  unfold round_pos. set (e := ulp_exp q) in *.
  assert (P := pow2_pos e). assert (P' := pow2_pos (- e)).
  set (N' := N * 2 ^ (- e)).
  assert (EN : (inject_Z N' == inject_Z N * 2 ^ (- e))%Q).
  { unfold N'. rewrite inject_Z_mult, <- pow2_inject by lia. reflexivity. }
  assert (S1 : (q * 2 ^ (- e) <= inject_Z N' * (1 - 2 ^ (- prec)))%Q).
  { rewrite EN. setoid_replace (inject_Z N * 2 ^ (- e) * (1 - 2 ^ (- prec)))%Q
      with (inject_Z N * (1 - 2 ^ (- prec)) * 2 ^ (- e))%Q using relation Qeq by ring.
    apply Qmult_le_compat_r; lra. }
  assert (S2 : (2 ^ (prec - 1) < inject_Z N')%Q).
  { eapply Qle_lt_trans; [exact Hlo |]. rewrite EN. apply Qmult_lt_compat_r; assumption. }
  assert (S3 : (q * 2 ^ (- e) < inject_Z N' - (1 # 2))%Q).
  { eapply Qle_lt_trans; [exact S1 |].
    assert (K : ((1 # 2) < inject_Z N' * 2 ^ (- prec))%Q).
    { setoid_replace (1 # 2)%Q with (2 ^ (prec - 1) * 2 ^ (- prec))%Q using relation Qeq by reflexivity.
      apply Qmult_lt_compat_r; [reflexivity | assumption]. }
    lra. }
  apply rne_lt in S3.
  assert (S4 : (inject_Z (rne (q * 2 ^ (- e))) <= inject_Z N' - 1)%Q).
  { setoid_replace (inject_Z N' - 1)%Q with (inject_Z (N' + -1)) using relation Qeq.
    - rewrite <- Zle_Qle. lia.
    - rewrite inject_Z_plus. reflexivity. }
  apply Qle_lt_trans with ((inject_Z N' - 1) * 2 ^ e)%Q.
  - apply Qmult_le_compat_r; lra.
  - rewrite EN. setoid_replace ((inject_Z N * 2 ^ (- e) - 1) * 2 ^ e)%Q
      with (inject_Z N * 2 ^ (- e) * 2 ^ e - 2 ^ e)%Q using relation Qeq by ring.
    rewrite pow2_scale_back. lra.
Qed.


(** [Math.floor(Math.random() * n)] is an index below [n]. *)
Lemma random_index_range u n :
  (0 <= u)%Q -> (u < 1)%Q -> representable u -> 0 < n < 2 ^ prec ->
  0 <= Math_floor (mul u (inject_Z n)) < n.
Proof.
  intros H0 H1 R Hn. unfold Math_floor, mul.
  assert (N0 : (0 < inject_Z n)%Q) by (change 0%Q with (inject_Z 0); rewrite <- Zlt_Qlt; lia).
  split.
  - change 0 with (Qfloor 0). apply Qfloor_resp_le, round64_nonneg.
    apply Qmult_le_0_compat; lra.
  - destruct (Qlt_le_dec 0 u) as [Hu | Hu].
    + assert (X : (0 < u * inject_Z n)%Q) by (apply Qmult_lt_0_compat; assumption).
      rewrite (round64_of_pos _ X).
      assert (B : (round_pos (u * inject_Z n) < inject_Z n)%Q).
      { apply round_pos_below_int; [assumption | | assumption].
        rewrite (Qmult_comm (inject_Z n)). apply Qmult_le_compat_r; [| lra].
        apply representable_below_one; assumption. }
      apply Qlt_inject_Z. eapply Qle_lt_trans; [apply Qfloor_le | exact B].
    + assert (Z0 : (round64 (u * inject_Z n) <= 0)%Q).
      { apply round64_nonpos. rewrite <- (Qmult_0_l (inject_Z n)).
        apply Qmult_le_compat_r; lra. }
      apply Qlt_inject_Z. eapply Qle_lt_trans; [apply Qfloor_le |]. lra.
Qed.

End NumberFacts.

(** ** The two counting loops *)
Section Loops.

(** A loop that increments a counter where [p] holds counts the indices
    below its bound at which [p] holds. *)
Lemma for_loop_count (p : nat -> Prop) `{!∀ i, Decision (p i)} (l : list nat) (a : nat) :
  foldl (fun acc i => if bool_decide (p i) then S acc else acc) a l
  = a + length (filter p l).
Proof.
  revert a. induction l as [| i l IH]; intros a; cbn [foldl].
  - rewrite filter_nil. cbn. lia.
  - rewrite IH, filter_cons. case_bool_decide; destruct (decide (p i)); try tauto; cbn; lia.
Qed.

Lemma filter_agree {A} (p q : A -> Prop) `{!∀ x, Decision (p x)} `{!∀ x, Decision (q x)}
    (l : list A) :
  Forall (fun x => p x ↔ q x) l -> filter p l = filter q l.
Proof.
  induction 1 as [| x l Hx _ IH]; [reflexivity |].
  rewrite !filter_cons, IH. destruct (decide (p x)), (decide (q x)); tauto.
Qed.

Lemma filter_none {A} (p : A -> Prop) `{!∀ x, Decision (p x)} (l : list A) :
  Forall (fun x => ¬ p x) l -> filter p l = [].
Proof.
  induction 1 as [| x l Hx _ IH]; [reflexivity |].
  rewrite filter_cons, IH. destruct (decide (p x)); tauto.
Qed.

(** Below the shorter length the guard [i < b.length] is true, and from
    there on it is false. *)
Lemma filter_guarded (p : nat -> Prop) `{!∀ i, Decision (p i)} (n m : nat) :
  filter (fun i => i < m ∧ p i) (seq 0 n) = filter p (seq 0 (min n m)).
Proof.
  replace n with (min n m + (n - min n m)) at 1 by lia.
  rewrite seq_app, filter_app.
  rewrite <- (app_nil_r (filter p _)). f_equal.
  - apply filter_agree, Forall_forall. intros i Hi.
    apply elem_of_seq in Hi. split; [tauto | intros; split; [lia | assumption]].
  - apply filter_none, Forall_forall. intros i Hi.
    apply elem_of_seq in Hi. lia.
Qed.

Lemma guarded_loop_count (p : nat -> Prop) `{!∀ i, Decision (p i)} (n m : nat) :
  for_loop n
    (fun i acc => if bool_decide (i < m) && bool_decide (p i) then S acc else acc) 0
  = length (filter p (seq 0 (min n m))).
Proof.
  rewrite <- filter_guarded. unfold for_loop.
  rewrite <- (Nat.add_0_l (length _)), <- for_loop_count.
  generalize 0 (seq 0 n). intros a l. revert a.
  induction l as [| i l IH]; intros a; [reflexivity |]. cbn [foldl].
  rewrite IH. f_equal. repeat case_bool_decide; cbn; tauto || reflexivity.
Qed.

Lemma countCorrect_matchingPositions (typed passage : jsstring) :
  countCorrect typed passage = matchingPositions typed passage.
Proof. apply (guarded_loop_count (fun i => typed !! i = passage !! i)). Qed.

Lemma countErrors_differingPositions (typed passage : jsstring) :
  countErrors typed passage = differingPositions typed passage.
Proof. apply (guarded_loop_count (fun i => typed !! i ≠ passage !! i)). Qed.

End Loops.

(** ** Finalization *)

Lemma div_pos_iff (a b : Q) :
  (0 < b)%Q -> ((0 < Number.div a b)%Q <-> (0 < a)%Q).
Proof.
  intros Hb. unfold Number.div. rewrite NumberFacts.round64_pos_iff. split; intros H.
  - apply (Qmult_lt_r _ _ (/ b)); [apply Qinv_lt_0_compat, Hb |].
    rewrite Qmult_0_l. exact H.
  - apply Qmult_lt_0_compat; [exact H | apply Qinv_lt_0_compat, Hb].
Qed.

(** The duration is positive when the clock has advanced since the start. *)
Lemma durationSeconds_pos (now : Z) (st : State) :
  (0 < durationSeconds now st)%Q <-> (startTime st < now)%Z.
Proof.
  unfold durationSeconds, Number.sub.
  rewrite div_pos_iff by reflexivity. rewrite NumberFacts.round64_pos_iff.
  unfold Qminus. rewrite <- inject_Z_opp, <- inject_Z_plus.
  change 0%Q with (inject_Z 0). rewrite <- Zlt_Qlt. lia.
Qed.

(** The test [timeInMinutes > 0] of [endTest] is the test
    [durationSeconds > 0] of the specification. *)
Lemma endTest_wpm (correctChars : nat) (duration : Q) :
  (if Qlt_le_dec 0 (Number.div duration 60) then
     Number.Math_round
       (Number.div (Number.div (Number.of_nat correctChars) 5) (Number.div duration 60))
   else 0%Z)
  = wpm_in_Numbers correctChars duration.
Proof.
  unfold wpm_in_Numbers.
  assert (H := div_pos_iff duration 60 eq_refl).
  destruct (Qlt_le_dec 0 (Number.div duration 60)) as [L | L],
           (Qlt_le_dec 0 duration) as [L' | L']; try reflexivity; exfalso.
  - apply H in L. lra.
  - apply H in L'. lra.
Qed.

(** What [endTest] shows: the correct characters counted as the
    specification counts them, and the score computed in Numbers. *)
Lemma endTest_shows (now : Z) (st : State) :
  resultDisplay (endTest now st)
  = Some {| wpm := wpm_in_Numbers (matchingPositions (textInput_value st) (currentQuote st))
                     (durationSeconds now st);
            accuracy := accuracy_in_Numbers
                          (matchingPositions (textInput_value st) (currentQuote st))
                          (length (textInput_value st));
            shownErrors := errors st |}.
Proof.
  unfold endTest. cbn [resultDisplay].
  rewrite endTest_wpm, countCorrect_matchingPositions. reflexivity.
Qed.

(** ** Input handling *)

Lemma differingPositions_le (a b : jsstring) :
  differingPositions a b ≤ min (length a) (length b).
Proof.
  unfold differingPositions.
  etransitivity; [apply length_filter |]. rewrite length_seq. reflexivity.
Qed.

Lemma matchingPositions_le (a b : jsstring) :
  matchingPositions a b ≤ min (length a) (length b).
Proof.
  unfold matchingPositions.
  etransitivity; [apply length_filter |]. rewrite length_seq. reflexivity.
Qed.

Lemma errors_endTest (now : Z) (st : State) : errors (endTest now st) = errors st.
Proof. reflexivity. Qed.

Lemma eqb_false_of_scored (e : InputEvent) (st : State) :
  scored e st ->
  String.eqb (selectedMode st) "no-backspace"
  && String.eqb (inputType e) "deleteContentBackward" = false.
Proof.
  intros H. apply not_true_is_false. intros E.
  apply andb_true_iff in E as [E1 E2].
  apply String.eqb_eq in E1, E2. apply H. split; assumption.
Qed.

(** What [handleInput] does with an event that passes its guards. *)
Lemma dispatchInput_scored (now : Z) (e : InputEvent) (st : State) :
  running st -> scored e st ->
  errors (dispatchInput now e st) = countErrors (value e) (currentQuote st)
  ∧ (isTestActive (dispatchInput now e st)
     = String.eqb (selectedMode st) "story"
       || negb (bool_decide (length (currentQuote st) ≤ length (value e)))).
Proof.
  intros Hrun Hsc. unfold dispatchInput, handleInput.
  cbn [isTestActive selectedMode set_textInput_value textInput_value currentQuote].
  rewrite Hrun. cbn [negb]. rewrite (eqb_false_of_scored e st Hsc).
  destruct (String.eqb (selectedMode st) "story"); cbn [negb andb orb].
  - split; reflexivity.
  - destruct (bool_decide (length (currentQuote st) ≤ length (value e)));
      split; cbn; try reflexivity; assumption.
Qed.

(** Where [handleInput] reaches its loop (every input event of a running
    test but a [deleteContentBackward] one in no-backspace mode), [errors]
    is the number of positions below both lengths at which the typed text
    [P] and the passage [Q] differ; positions beyond the passage count for
    nothing, and [errors] is at most the length of [P]. *)
Lemma handleInput_errors (now : Z) (e : InputEvent) (st : State) :
  running st -> scored e st ->
  let P := value e in
  let Q := currentQuote st in
  let st' := dispatchInput now e st in
  errors st' = differingPositions P Q
  ∧ errors st' ≤ length P
  ∧ errors st' ≤ length Q.
Proof.
  intros Hrun Hsc P Q st'.
  destruct (dispatchInput_scored now e st Hrun Hsc) as [He _].
  subst st'. rewrite He, countErrors_differingPositions.
  assert (H := differingPositions_le P Q). fold P Q. lia.
Qed.

Lemma handleInput_errors_witness :
  let st := run quarters loadedPage (sessionIn "normal") in
  let e := typed "insertText" "Thx" in
  errors (dispatchInput 2000 e st) = differingPositions (value e) (currentQuote st)
  ∧ errors (dispatchInput 2000 e st) ≤ length (value e)
  ∧ errors (dispatchInput 2000 e st) ≤ length (currentQuote st).
Proof.
  apply (handleInput_errors 2000 (typed "insertText" "Thx")
           (run quarters loadedPage (sessionIn "normal"))).
  - reflexivity.
  - intros [H _]. vm_compute in H. discriminate H.
Defined.

(** C2 does not hold of the code, which returns too early.  In no-backspace
    mode, during a running test on the passage of a page without network
    (the fallback sentence of line 128, which begins with "The quick brown
    fox"), the text "x" is typed and scored: one error.  Then
    an input event of type [deleteContentBackward] arrives that has emptied
    the text area.  [handleInput] returns at its guard, before it recomputes
    anything: [errors] is still 1 and [charIndex] still 1, while the typed
    text [P] is empty, no position of [P] differs from the passage, and the
    test goes on.  The claim asks for 0 errors, and for no more errors than
    [P] has characters. *)
Lemma handleInput_stale_errors :
  let st := run quarters loadedPage
              (sessionIn "no-backspace" ++ [Input 2000 (typed "insertText" "x")]) in
  let e := typed "deleteContentBackward" "" in
  let st' := dispatchInput 3000 e st in
  running st
  ∧ currentQuote st = fallbackError
  ∧ errors st = 1
  ∧ running st'
  ∧ textInput_value st' = value e
  ∧ differingPositions (value e) (currentQuote st') = 0
  ∧ length (value e) = 0
  ∧ errors st' = 1
  ∧ charIndex st' = 1.
Proof. vm_compute. repeat split; reflexivity. Qed.

(** ** No-backspace mode *)

(** C4, as the code has it.  In no-backspace mode a press of the Backspace
    key is rejected: the [keydown] listener prevents its default action, so
    no edit happens and the page, the typed text with it, stays as it was.
    With "abc" typed, a Backspace press that would delete the last character
    leaves "abc". *)
Theorem backspace_rejected (now : Z) (k : KeyPress) (st : State) :
  selectedMode st = "no-backspace"%string ->
  pressedKey k = "Backspace"%string ->
  dispatchKeyPress now k st = st
  ∧ textInput_value (dispatchKeyPress now k st) = textInput_value st.
Proof.
  intros Hmode Hkey. unfold dispatchKeyPress, keydownListener.
  rewrite Hmode, Hkey. cbn. split; reflexivity.
Qed.

Lemma backspace_rejected_witness :
  let st := run quarters loadedPage
              (sessionIn "no-backspace" ++ [Input 2000 (typed "insertText" "abc")]) in
  let k := {| pressedKey := "Backspace";
              defaultEdit := Some (typed "deleteContentBackward" "ab") |} in
  textInput_value st = lit "abc"
  ∧ textInput_value (dispatchKeyPress 3000 k st) = lit "abc".
Proof.
  cbn zeta. split; [vm_compute; reflexivity |].
  etransitivity.
  - apply (backspace_rejected 3000
             {| pressedKey := "Backspace";
                defaultEdit := Some (typed "deleteContentBackward" "ab") |}
             (run quarters loadedPage
                (sessionIn "no-backspace" ++ [Input 2000 (typed "insertText" "abc")])));
      reflexivity.
  - vm_compute. reflexivity.
Defined.

(** The claim C4 as it is written fails for a deletion that is not a
    Backspace press: in no-backspace mode, with "abc" typed during a running
    test, the Delete key removes the last character and the typed text
    becomes "ab". *)
Lemma delete_key_not_rejected :
  let st := run quarters loadedPage
              (sessionIn "no-backspace" ++ [Input 2000 (typed "insertText" "abc")]) in
  let k := {| pressedKey := "Delete";
              defaultEdit := Some (typed "deleteContentForward" "ab") |} in
  running st
  ∧ selectedMode st = "no-backspace"%string
  ∧ textInput_value st = lit "abc"
  ∧ textInput_value (dispatchKeyPress 3000 k st) = lit "ab"
  ∧ length (textInput_value (dispatchKeyPress 3000 k st)) < length (textInput_value st).
Proof. vm_compute. repeat split; reflexivity || lia. Qed.

(** ** The end of a test *)

Lemma handleInput_story (now : Z) (t : string) (st : State) :
  selectedMode st = "story"%string -> handleInput now t st = st ∨
  (isTestActive (handleInput now t st) = isTestActive st
   ∧ selectedMode (handleInput now t st) = selectedMode st
   ∧ intervalId (handleInput now t st) = intervalId st).
Proof.
  intros Hmode. unfold handleInput.
  destruct (negb (isTestActive st)); [left; reflexivity |].
  destruct (_ && _); [left; reflexivity |].
  right. cbn [selectedMode]. rewrite Hmode. cbn. repeat split; reflexivity.
Qed.

Lemma storyRunning_step (Math_random : nat -> Q) (st : State) (ev : Event) :
  storyRunning st -> timerOrTyping ev -> storyRunning (step Math_random st ev).
Proof.
  intros (Hact & Hmode & Hint) Hev. destruct ev as [| | now | now e | now k |];
    try contradiction; cbn [step].
  - unfold tick. rewrite Hint. unfold storyClock, storyRunning. cbn. tauto.
  - unfold dispatchInput.
    destruct (handleInput_story now (inputType e) (set_textInput_value (value e) st))
      as [-> | (H1 & H2 & H3)]; [exact Hmode | |].
    + unfold storyRunning. cbn. tauto.
    + unfold storyRunning. rewrite H1, H2, H3. cbn. tauto.
  - unfold dispatchKeyPress. destruct (keydownListener _ _); [unfold storyRunning; tauto |].
    destruct (defaultEdit k) as [e |]; [| unfold storyRunning; tauto].
    unfold dispatchInput.
    destruct (handleInput_story now (inputType e) (set_textInput_value (value e) st))
      as [-> | (H1 & H2 & H3)]; [exact Hmode | |].
    + unfold storyRunning. cbn. tauto.
    + unfold storyRunning. rewrite H1, H2, H3. cbn. tauto.
Qed.

Lemma storyRunning_run (Math_random : nat -> Q) (evs : list Event) (st : State) :
  storyRunning st -> Forall timerOrTyping evs -> storyRunning (run Math_random st evs).
Proof.
  intros Hst Hevs. revert st Hst. unfold run.
  induction Hevs as [| ev evs Hev _ IH]; intros st Hst; cbn [foldl].
  - exact Hst.
  - apply IH, storyRunning_step; assumption.
Qed.

Lemma selectedMode_getNewQuote (Math_random : nat -> Q) (st : State) :
  selectedMode (getNewQuote Math_random st) = selectedMode st.
Proof. unfold getNewQuote. destruct (decide _); reflexivity. Qed.

Lemma storyRunning_startTest (Math_random : nat -> Q) (now : Z) (st : State) :
  selectedMode st = "story"%string -> storyRunning (startTest Math_random now st).
Proof.
  intros Hmode. unfold storyRunning, startTest.
  cbn [isTestActive selectedMode intervalId].
  rewrite selectedMode_getNewQuote, Hmode. cbn. tauto.
Qed.

(** C6, as the code has it.  In every mode other than "story", an input
    event that [handleInput] scores while a test is running and that brings
    the typed text to the length of the passage or beyond ends the test at
    once: the test is no longer active and the interval is cleared.  In
    story mode no timer tick, edit or key press ends a test, whatever is
    typed, the full passage included; the test ends when the stop button is
    clicked. *)
Theorem test_ends (Math_random : nat -> Q) (now : Z) (st : State) :
  (∀ e, running st -> selectedMode st ≠ "story"%string -> scored e st ->
        length (currentQuote st) ≤ length (value e) ->
        isTestActive (dispatchInput now e st) = false
        ∧ intervalId (dispatchInput now e st) = None)
  ∧ (∀ evs, selectedMode st = "story"%string -> Forall timerOrTyping evs ->
            running (run Math_random (startTest Math_random now st) evs))
  ∧ isTestActive (stopClick now st) = false
  ∧ intervalId (stopClick now st) = None.
Proof.
  split; [| split; [| split; reflexivity]].
  - intros e Hrun Hmode Hsc Hlen.
    unfold dispatchInput, handleInput.
    cbn [isTestActive selectedMode set_textInput_value textInput_value currentQuote].
    rewrite Hrun. cbn [negb]. rewrite (eqb_false_of_scored e st Hsc).
    apply String.eqb_neq in Hmode. rewrite Hmode.
    rewrite (bool_decide_eq_true_2 _ Hlen). cbn. split; reflexivity.
  - intros evs Hmode Hevs.
    apply (storyRunning_run Math_random evs); [| assumption].
    apply storyRunning_startTest, Hmode.
Qed.

Lemma test_ends_witness :
  let st := run quarters loadedPage (sessionIn "normal") in
  let e := {| inputType := "insertFromPaste"; value := currentQuote st |} in
  let st0 := run quarters loadedPage [StartClick "easy" "story" offline] in
  (isTestActive (dispatchInput 2000 e st) = false
   ∧ intervalId (dispatchInput 2000 e st) = None)
  ∧ running (run quarters (startTest quarters 1000 st0)
               [Tick 2000; Input 2500 (typed "insertText" "T"); Tick 3000]).
Proof.
  cbn zeta. split.
  - apply (proj1 (test_ends quarters 2000 (run quarters loadedPage (sessionIn "normal")))).
    + reflexivity.
    + vm_compute. discriminate.
    + intros [H _]. vm_compute in H. discriminate H.
    + vm_compute. lia.
  - apply (proj1 (proj2 (test_ends quarters 1000
             (run quarters loadedPage [StartClick "easy" "story" offline])))).
    + reflexivity.
    + repeat constructor.
Defined.

(** The claim C6 as it is written fails in story mode: typing the full
    passage does not end the test, and a click on the stop button ends it
    while only one character is typed. *)
Lemma story_mode_end :
  let st := run quarters loadedPage (sessionIn "story") in
  let full := {| inputType := "insertFromPaste"; value := currentQuote st |} in
  let partial := run quarters st [Input 2000 (typed "insertText" "T")] in
  running st
  ∧ length (currentQuote st) ≤ length (value full)
  ∧ isTestActive (dispatchInput 2000 full st) = true
  ∧ length (textInput_value partial) < length (currentQuote partial)
  ∧ isTestActive (stopClick 3000 partial) = false.
Proof. vm_compute. repeat split; reflexivity || lia. Qed.

(** ** The shuffle *)
Section Shuffle.
Context {A : Type} (undefined : A).

Lemma length_array_set (array : list A) (i : nat) (v : A) :
  length array ≤ length (array_set undefined array i v).
Proof.
  unfold array_set. destruct (decide (i < length array)).
  - rewrite length_insert. reflexivity.
  - rewrite length_app. lia.
Qed.

Lemma length_array_swap (array : list A) (i j : nat) :
  length array ≤ length (array_swap undefined array i j).
Proof.
  unfold array_swap. etransitivity; [| apply length_array_set]. apply length_array_set.
Qed.

(** Within the array, the destructuring assignment exchanges two elements. *)
Lemma array_swap_Permutation (array : list A) (i j : nat) :
  i < length array -> j < length array ->
  array_swap undefined array i j ≡ₚ array.
Proof.
  intros Hi Hj.
  destruct (lookup_lt_is_Some_2 array i Hi) as [vi Evi].
  destruct (lookup_lt_is_Some_2 array j Hj) as [vj Evj].
  unfold array_swap, array_get, array_set. rewrite Evi, Evj.
  change (default undefined (Some vi)) with vi.
  change (default undefined (Some vj)) with vj.
  destruct (decide (i < length array)) as [_ | N]; [| contradiction].
  destruct (decide (j < length (<[i:=vj]> array))) as [_ | N].
  - apply Permutation_insert_swap; assumption.
  - rewrite length_insert in N. contradiction.
Qed.

Lemma array_swap_app (l t : list A) (i j : nat) :
  i < length l -> j < length l ->
  array_swap undefined (l ++ t) i j = array_swap undefined l i j ++ t.
Proof.
  intros Hi Hj. unfold array_swap, array_get, array_set.
  rewrite !(lookup_app_l l t) by assumption.
  rewrite length_app.
  destruct (decide (i < length l + length t)) as [_ | N]; [| lia].
  destruct (decide (i < length l)) as [_ | N]; [| lia].
  rewrite (insert_app_l l t) by assumption.
  rewrite length_app, !length_insert.
  destruct (decide (j < length l + length t)) as [_ | N]; [| lia].
  destruct (decide (j < length l)) as [_ | N]; [| lia].
  apply insert_app_l. rewrite length_insert. assumption.
Qed.

(** The exchange of the last element with the one at [r]: the element at [r]
    becomes the last, and the one that was last is at [r] among the
    others. *)
Lemma array_swap_last (init : list A) (x : A) (r : nat) :
  r ≤ length init ->
  array_swap undefined (init ++ [x]) (length init) r
  = take (length init) (<[r:=x]> (init ++ [x])) ++ [array_get undefined (init ++ [x]) r].
Proof.
  intros Hr.
  assert (Ex : (init ++ [x]) !! length init = Some x) by apply list_lookup_middle, eq_refl.
  assert (Hlen : length (init ++ [x]) = S (length init))
    by (rewrite length_app; cbn [length]; lia).
  unfold array_swap, array_get, array_set. rewrite Ex. cbn [default from_option id].
  destruct (decide (length init < length (init ++ [x]))) as [_ | N]; [| lia].
  rewrite length_insert.
  destruct (decide (r < length (init ++ [x]))) as [_ | N]; [| lia].
  destruct (decide (r = length init)) as [-> | Hne].
  - rewrite Ex. cbn [default from_option id]. rewrite !(list_insert_id _ _ _ Ex).
    rewrite take_app_length. reflexivity.
  - assert (Hlt : r < length init) by lia.
    destruct (lookup_lt_is_Some_2 init r Hlt) as [y Ey].
    rewrite (lookup_app_l_Some _ _ _ _ Ey). cbn [default from_option id].
    rewrite (insert_app_r_alt init [x] (length init)) by lia.
    rewrite Nat.sub_diag. cbn [insert list_insert].
    rewrite !(insert_app_l init) by assumption.
    rewrite take_app_length' by (rewrite length_insert; reflexivity).
    reflexivity.
Qed.

End Shuffle.

Section RandomIndex.
Variable Math_random : nat -> Q.
Hypothesis random_unit : unitInterval Math_random.

(** [Math.floor(Math.random() * n)] is an index of an array of length
    [n]. *)
Lemma randomIndex_lt (calls n : nat) :
  0 < n -> arrayLength n -> randomIndexBelow Math_random calls n < n.
Proof.
  intros Hn Hlen. unfold randomIndexBelow, Number.of_nat.
  destruct (random_unit calls) as (H0 & H1 & Hr).
  assert (B : (0 < Z.of_nat n < 2 ^ Number.prec)%Z).
  { unfold arrayLength in Hlen. split; [lia |].
    eapply Z.lt_trans; [exact Hlen | reflexivity]. }
  destruct (NumberFacts.random_index_range (Math_random calls) (Z.of_nat n) H0 H1 Hr B).
  lia.
Qed.

Lemma shuffleLoop_Permutation {A : Type} (undefined : A) (currentIndex calls : nat)
    (array : list A) :
  currentIndex ≤ length array -> arrayLength (length array) ->
  shuffleLoop Math_random undefined currentIndex calls array ≡ₚ array.
Proof.
  revert calls array. induction currentIndex as [| ci IH]; intros calls array Hci Hlen.
  - reflexivity.
  - cbn [shuffleLoop].
    assert (Hr : randomIndexBelow Math_random calls (S ci) < S ci).
    { apply randomIndex_lt; [lia |]. unfold arrayLength in *. lia. }
    assert (Hp : array_swap undefined array ci (randomIndexBelow Math_random calls (S ci))
                 ≡ₚ array) by (apply array_swap_Permutation; lia).
    rewrite IH.
    + exact Hp.
    + rewrite (Permutation_length Hp). lia.
    + rewrite (Permutation_length Hp). exact Hlen.
Qed.

Lemma shuffleArray_Permutation {A : Type} (undefined : A) (calls : nat) (array : list A) :
  arrayLength (length array) ->
  shuffleArray Math_random undefined calls array ≡ₚ array.
Proof. intros H. apply shuffleLoop_Permutation; [reflexivity | exact H]. Qed.

(** The loop leaves alone what lies at and beyond [currentIndex]. *)
Lemma shuffleLoop_app {A : Type} (undefined : A) (currentIndex calls : nat)
    (array rest : list A) :
  currentIndex ≤ length array -> arrayLength (length array) ->
  shuffleLoop Math_random undefined currentIndex calls (array ++ rest)
  = shuffleLoop Math_random undefined currentIndex calls array ++ rest.
Proof.
  revert calls array. induction currentIndex as [| ci IH]; intros calls array Hci Hlen.
  - reflexivity.
  - cbn [shuffleLoop].
    assert (Hr : randomIndexBelow Math_random calls (S ci) < S ci).
    { apply randomIndex_lt; [lia |]. unfold arrayLength in *. lia. }
    assert (Hp : array_swap undefined array ci (randomIndexBelow Math_random calls (S ci))
                 ≡ₚ array) by (apply array_swap_Permutation; lia).
    rewrite array_swap_app by lia.
    apply IH; rewrite (Permutation_length Hp); [lia | exact Hlen].
Qed.

(** One turn of the loop of [shuffleArray]: the element at the index drawn
    becomes the last, the one that was last takes its place, and the loop
    goes on with the elements before the last. *)
Lemma shuffleArray_last {A : Type} (undefined : A) (calls : nat) (init : list A) (x : A) :
  arrayLength (length (init ++ [x])) ->
  let r := randomIndexBelow Math_random calls (length (init ++ [x])) in
  r < length (init ++ [x])
  ∧ shuffleArray Math_random undefined calls (init ++ [x])
    = shuffleArray Math_random undefined (S calls)
        (take (length init) (<[r:=x]> (init ++ [x])))
      ++ [array_get undefined (init ++ [x]) r].
Proof.
  intros Hlen r.
  assert (El : length (init ++ [x]) = S (length init))
    by (rewrite length_app; cbn [length]; lia).
  assert (Hr : r < length (init ++ [x])).
  { subst r. apply randomIndex_lt; [lia | exact Hlen]. }
  split; [exact Hr |].
  assert (Et : length (take (length init) (<[r:=x]> (init ++ [x]))) = length init).
  { rewrite length_take, length_insert. lia. }
  unfold shuffleArray. rewrite Et.
  subst r. revert Hr. rewrite El. intros Hr. cbn [shuffleLoop].
  rewrite array_swap_last by lia.
  apply shuffleLoop_app.
  - rewrite length_take, length_insert. lia.
  - rewrite length_take, length_insert. unfold arrayLength in *. lia.
Qed.

(** [shuffleArray] is the Fisher-Yates shuffle whose choices are
    [Math.floor(Math.random() * currentIndex)]. *)
Lemma shuffleArray_fisherYates {A : Type} (undefined : A) (calls : nat) (array : list A) :
  arrayLength (length array) ->
  shuffleArray Math_random undefined calls array
  = fisherYates (randomIndexBelow Math_random) calls (length array) array.
Proof.
  remember (length array) as n eqn:En. revert calls array En.
  induction n as [| m IH]; intros calls array En Hlen.
  - destruct array; [reflexivity | discriminate En].
  - destruct array as [| x init _] using rev_ind; [discriminate En |].
    assert (El : length (init ++ [x]) = S (length init))
      by (rewrite length_app; cbn [length]; lia).
    assert (Em : m = length init) by lia. subst m.
    destruct (shuffleArray_last undefined calls init x) as [Hr Es];
      [rewrite El; exact Hlen |].
    rewrite Es. clear Es. revert Hr. rewrite El. intros Hr.
    cbn [fisherYates].
    rewrite (list_lookup_middle init [] x (length init) eq_refl).
    destruct (lookup_lt_is_Some_2 (init ++ [x])
                (randomIndexBelow Math_random calls (S (length init))))
      as [chosen Ec]; [lia |].
    unfold array_get. rewrite Ec. cbn [default from_option id].
    f_equal. apply IH.
    + rewrite length_take, length_insert. lia.
    + unfold arrayLength in *. lia.
Qed.

End RandomIndex.

(** Whatever [Math.random] returns, the shuffle loses no element. *)
Lemma length_shuffleLoop (Math_random : nat -> Q) {A : Type} (undefined : A)
    (currentIndex calls : nat) (array : list A) :
  length array ≤ length (shuffleLoop Math_random undefined currentIndex calls array).
Proof.
  revert calls array. induction currentIndex as [| ci IH]; intros calls array.
  - reflexivity.
  - cbn [shuffleLoop]. etransitivity; [| apply IH]. apply length_array_swap.
Qed.

Lemma quarters_unit : unitInterval quarters.
Proof.
  intros k. unfold quarters.
  assert (H : k mod 4 < 4) by (apply Nat.mod_upper_bound; discriminate).
  destruct (k mod 4) as [| [| [| [| n]]]]; [| | | | lia];
    (split; [| split]); vm_compute; try reflexivity; discriminate.
Qed.

(** ** The cleaning of a candidate *)

Lemma collapseWhiteSpace_tidy (s : jsstring) (inRun : bool) :
  tidy (collapseWhiteSpace inRun s)
  ∧ (inRun = true -> startsClean (collapseWhiteSpace inRun s)).
Proof.
  revert inRun. induction s as [| c rest IH]; intros inRun; cbn [collapseWhiteSpace].
  - cbn. tauto.
  - destruct (isWhiteSpace c) eqn:Ec.
    + destruct inRun.
      * apply IH.
      * destruct (IH true) as [IH1 IH2]. split; [| discriminate].
        cbn [tidy]. split; [| exact IH1].
        intros _. split; [reflexivity |]. apply IH2. reflexivity.
    + destruct (IH false) as [IH1 _]. split.
      * cbn [tidy]. split; [| exact IH1]. intros H. congruence.
      * intros _. exact Ec.
Qed.

Lemma tidy_app (x y : jsstring) : tidy (x ++ y) -> tidy x ∧ tidy y.
Proof.
  induction x as [| c x IH]; cbn [app tidy].
  - tauto.
  - intros [Hc Hrest]. destruct (IH Hrest) as [Hx Hy]. repeat split; try assumption.
    + apply Hc; assumption.
    + destruct x as [| c' x']; [exact I |]. apply (Hc H).
Qed.

Lemma tidy_white_space (s : jsstring) (c : char) :
  tidy s -> c ∈ s -> isWhiteSpace c = true -> c = SP.
Proof.
  induction s as [| c' s IH]; intros Ht Hin Hws.
  - apply elem_of_nil in Hin. contradiction.
  - destruct Ht as [Hc Hrest]. apply elem_of_cons in Hin as [-> | Hin].
    + apply Hc, Hws.
    + apply IH; assumption.
Qed.

Lemma tidy_noLineBreak (s : jsstring) : tidy s -> noLineBreak s.
Proof.
  intros Ht. split; intros Hin;
    apply (tidy_white_space s _ Ht) in Hin; try reflexivity; discriminate Hin.
Qed.

Lemma tidy_noSpaceRun (s : jsstring) : tidy s -> noSpaceRun s.
Proof.
  intros Ht before after ->. apply tidy_app in Ht as [_ Ht].
  destruct Ht as [Hc _]. destruct (Hc eq_refl) as [_ H]. discriminate H.
Qed.

Lemma trimStart_suffix (s : jsstring) : ∃ before, s = before ++ trimStart s.
Proof.
  induction s as [| c s [before IH]]; cbn [trimStart].
  - exists []. reflexivity.
  - destruct (isWhiteSpace c).
    + exists (c :: before). cbn. f_equal. exact IH.
    + exists []. reflexivity.
Qed.

Lemma trimEnd_prefix (s : jsstring) : ∃ after, s = trimEnd s ++ after.
Proof.
  unfold trimEnd. destruct (trimStart_suffix (reverse s)) as [before E].
  exists (reverse before).
  rewrite <- reverse_app, <- E, reverse_involutive. reflexivity.
Qed.

Lemma tidy_trim (s : jsstring) : tidy s -> tidy (trim s).
Proof.
  intros Ht. unfold trim.
  destruct (trimStart_suffix s) as [before E1].
  destruct (trimEnd_prefix (trimStart s)) as [after E2].
  rewrite E1 in Ht. apply tidy_app in Ht as [_ Ht].
  rewrite E2 in Ht. apply tidy_app in Ht as [Ht _]. exact Ht.
Qed.

Lemma cleanText_tidy (textContent : jsstring) : tidy (cleanText textContent).
Proof. unfold cleanText. apply tidy_trim, collapseWhiteSpace_tidy. Qed.

Lemma detailPromise_clean (net : Network) (doc : Doc) (q : jsstring) :
  detailPromise net doc = Some q ->
  (∃ textContent, q = cleanText textContent) ∧ 100 < length q.
Proof.
  unfold detailPromise. intros H.
  destruct (key doc) as [[| k0 k] |]; try discriminate H.
  destruct (details net _) as [| | | detailsData]; try discriminate H.
  destruct (textContentOf detailsData) as [[| t0 t] |]; try discriminate H.
  destruct (decide (100 < length _)) as [L | L]; try discriminate H.
  injection H as <-. split; [eexists; reflexivity | exact L].
Qed.

Lemma potentialQuotes_clean (net : Network) (docs : list Doc) :
  Forall cleanPassage (potentialQuotesOf net docs).
Proof.
  apply Forall_forall. intros q Hq. unfold potentialQuotesOf in Hq.
  apply list_elem_of_omap in Hq as (doc & _ & Hd).
  apply detailPromise_clean in Hd as [[textContent ->] Hlen].
  split; [exact Hlen |].
  split; [apply tidy_noLineBreak | apply tidy_noSpaceRun]; apply cleanText_tidy.
Qed.

Lemma fallback_clean (s : jsstring) :
  cleanText s = s -> (100 <? length s) = true -> cleanPassage s.
Proof.
  intros E L. split; [apply Nat.ltb_lt, L |]. rewrite <- E.
  split; [apply tidy_noLineBreak | apply tidy_noSpaceRun]; apply cleanText_tidy.
Qed.

(** ** The cache *)

(** The cache that a fetch cycle leaves, by the answer of the source. *)
Lemma fetchAndCacheQuotes_empty (Math_random : nat -> Q) (net : Network) (st : State) :
  cachedQuotes st = [] ->
  cachedQuotes (fetchAndCacheQuotes Math_random net st)
  = match batch net with
    | BatchJson (Some ((_ :: _) as docs)) =>
        if decide (0 < length (potentialQuotesOf net docs)) then
          take MAX_CACHED_QUOTES
            (shuffleArray Math_random undefinedString (randomCalls st)
               (potentialQuotesOf net docs))
        else [fallbackNoSuitable]
    | BatchJson _ => [fallbackNoDocs]
    | BatchFetchRejected | BatchMalformed => [fallbackError]
    end
  ∧ fetchCount (fetchAndCacheQuotes Math_random net st) = S (fetchCount st).
Proof.
  intros E. unfold fetchAndCacheQuotes. rewrite E. cbn [length].
  destruct (decide (0 < 0)) as [H | _]; [lia |].
  destruct (batch net) as [| | [[| doc docs] |]]; try (split; reflexivity).
  cbn [randomCalls set_fetchCount].
  destruct (decide (0 < length (potentialQuotesOf net (doc :: docs)))); split; reflexivity.
Qed.

Lemma fetchAndCacheQuotes_cached (Math_random : nat -> Q) (net : Network) (st : State) :
  0 < length (cachedQuotes st) -> fetchAndCacheQuotes Math_random net st = st.
Proof.
  intros H. unfold fetchAndCacheQuotes.
  destruct (decide (0 < length (cachedQuotes st))); [reflexivity | contradiction].
Qed.

Lemma length_potentialQuotes (net : Network) (docs : list Doc) :
  length (potentialQuotesOf net docs) ≤ length docs.
Proof.
  unfold potentialQuotesOf. induction docs as [| doc docs IH]; [reflexivity |].
  cbn [omap list_omap]. destruct (detailPromise net doc); cbn [length]; lia.
Qed.

(** After a fetch cycle the cache holds at least one passage. *)
Lemma fetchAndCacheQuotes_filled (Math_random : nat -> Q) (net : Network) (st : State) :
  0 < length (cachedQuotes (fetchAndCacheQuotes Math_random net st)).
Proof.
  destruct (cachedQuotes st) as [| q qs] eqn:E.
  - destruct (fetchAndCacheQuotes_empty Math_random net st E) as [-> _].
    destruct (batch net) as [| | [[| doc docs] |]]; cbn [length]; try lia.
    destruct (decide _) as [L | _]; cbn [length]; [| lia].
    rewrite length_take. unfold MAX_CACHED_QUOTES, shuffleArray.
    assert (H := length_shuffleLoop Math_random undefinedString
                   (length (potentialQuotesOf net (doc :: docs))) (randomCalls st)
                   (potentialQuotesOf net (doc :: docs))).
    lia.
  - rewrite fetchAndCacheQuotes_cached; rewrite E; cbn [length]; lia.
Qed.

(** C3, as the code has it.  A fetch cycle that fails leaves exactly one
    fallback sentence in the cache, and which one depends on the failure:
    one sentence when the batch request is rejected or its answer is
    malformed, another when the answer has no documents, a third when no
    candidate survives the cleaning; [getNewQuote] on an empty cache takes a
    fourth.  The four sentences differ from each other and all begin with
    the same pangram. *)
Theorem fallback_sentences (Math_random : nat -> Q) (net : Network) (st : State) :
  cachedQuotes st = [] ->
  let cache := cachedQuotes (fetchAndCacheQuotes Math_random net st) in
  (batch net = BatchFetchRejected ∨ batch net = BatchMalformed ->
   cache = [fallbackError])
  ∧ (batch net = BatchJson None ∨ batch net = BatchJson (Some []) ->
     cache = [fallbackNoDocs])
  ∧ (∀ docs, batch net = BatchJson (Some docs) -> docs ≠ [] ->
             potentialQuotesOf net docs = [] -> cache = [fallbackNoSuitable])
  ∧ currentQuote (getNewQuote Math_random st) = fallbackEmptyCache
  ∧ NoDup [fallbackError; fallbackNoDocs; fallbackNoSuitable; fallbackEmptyCache]
  ∧ Forall (fun s => ∃ rest, s = pangram ++ rest)
      [fallbackError; fallbackNoDocs; fallbackNoSuitable; fallbackEmptyCache].
Proof.
  intros E cache. subst cache.
  destruct (fetchAndCacheQuotes_empty Math_random net st E) as [-> _].
  repeat apply conj.
  - intros [-> | ->]; reflexivity.
  - intros [-> | ->]; reflexivity.
  - intros docs -> Hne Hp. destruct docs as [| doc docs]; [contradiction |].
    rewrite Hp. reflexivity.
  - unfold getNewQuote. rewrite E. reflexivity.
  - repeat (apply NoDup_cons_2;
              [rewrite ?elem_of_cons, elem_of_nil; vm_compute; intuition discriminate |]).
    apply NoDup_nil_2.
  - repeat (apply Forall_cons_2; [eexists; vm_compute; reflexivity |]).
    apply Forall_nil_2.
Qed.

Lemma fallback_sentences_witness :
  cachedQuotes (fetchAndCacheQuotes quarters offline initialState) = [fallbackError]
  ∧ cachedQuotes (fetchAndCacheQuotes quarters noDocs initialState) = [fallbackNoDocs]
  ∧ cachedQuotes (fetchAndCacheQuotes quarters keyless initialState)
    = [fallbackNoSuitable]
  ∧ currentQuote (getNewQuote quarters initialState) = fallbackEmptyCache.
Proof.
  destruct (fallback_sentences quarters offline initialState eq_refl)
    as (H1 & _ & _ & H4 & _).
  destruct (fallback_sentences quarters noDocs initialState eq_refl)
    as (_ & H2 & _).
  destruct (fallback_sentences quarters keyless initialState eq_refl)
    as (_ & _ & H3 & _).
  split; [apply H1; left; reflexivity |].
  split; [apply H2; left; reflexivity |].
  split; [| exact H4].
  apply (H3 _ eq_refl); [discriminate | reflexivity].
Defined.

(** The claim C3 as it is written fails: no single sentence is both what a
    failed fetch puts in the cache and what [getNewQuote] returns on an
    empty cache. *)
Lemma no_single_fallback :
  ¬ ∃ fallback : jsstring,
      cachedQuotes (fetchAndCacheQuotes quarters offline initialState) = [fallback]
      ∧ currentQuote (getNewQuote quarters initialState) = fallback.
Proof.
  intros (fallback & H1 & H2). vm_compute in H1, H2.
  rewrite <- H2 in H1. discriminate H1.
Qed.

Lemma library_docs_bounded (docs : list Doc) :
  batch library = BatchJson (Some docs) -> arrayLength (length docs).
Proof. intros H. injection H as <-. reflexivity. Qed.

Lemma offline_docs_bounded (docs : list Doc) :
  batch offline = BatchJson (Some docs) -> arrayLength (length docs).
Proof. intros H. discriminate H. Qed.

(** C5.  The five cleaning steps leave no line break and no run of two or
    more spaces in any text; every candidate kept is such a cleaned text
    and has more than 100 characters; and so has every passage of the cache
    after a fetch cycle, given that the passages it held before had. *)
Theorem cached_passages_clean (Math_random : nat -> Q) (net : Network) (st : State)
    (textContent : jsstring) :
  unitInterval Math_random ->
  (∀ docs, batch net = BatchJson (Some docs) -> arrayLength (length docs)) ->
  Forall cleanPassage (cachedQuotes st) ->
  noLineBreak (cleanText textContent)
  ∧ noSpaceRun (cleanText textContent)
  ∧ (∀ docs, Forall cleanPassage (potentialQuotesOf net docs))
  ∧ Forall cleanPassage (cachedQuotes (fetchAndCacheQuotes Math_random net st)).
Proof.
  intros Hrand Hdocs Hst.
  split; [apply tidy_noLineBreak, cleanText_tidy |].
  split; [apply tidy_noSpaceRun, cleanText_tidy |].
  split; [intros docs; apply potentialQuotes_clean |].
  destruct (cachedQuotes st) as [| q qs] eqn:E.
  - destruct (fetchAndCacheQuotes_empty Math_random net st E) as [-> _].
    destruct (batch net) as [| | [[| doc docs] |]] eqn:Eb;
      try (apply Forall_singleton, fallback_clean; vm_compute; reflexivity).
    destruct (decide _) as [L | _];
      [| apply Forall_singleton, fallback_clean; vm_compute; reflexivity].
    apply Forall_take.
    rewrite (shuffleArray_Permutation Math_random Hrand).
    + apply potentialQuotes_clean.
    + specialize (Hdocs _ eq_refl).
      assert (H := length_potentialQuotes net (doc :: docs)).
      unfold arrayLength in *. lia.
  - rewrite fetchAndCacheQuotes_cached; rewrite E; [exact Hst | cbn [length]; lia].
Qed.

Lemma cached_passages_clean_witness :
  noLineBreak (cleanText work1)
  ∧ noSpaceRun (cleanText work1)
  ∧ (∀ docs, Forall cleanPassage (potentialQuotesOf library docs))
  ∧ Forall cleanPassage (cachedQuotes (fetchAndCacheQuotes quarters library initialState)).
Proof.
  apply (cached_passages_clean quarters library initialState work1).
  - exact quarters_unit.
  - exact library_docs_bounded.
  - apply Forall_nil_2.
Defined.

(** A fetch cycle never leaves more than 20 passages in the cache. *)
Lemma fetchAndCacheQuotes_capacity (Math_random : nat -> Q) (net : Network) (st : State) :
  cachedQuotes st = [] ->
  length (cachedQuotes (fetchAndCacheQuotes Math_random net st)) ≤ MAX_CACHED_QUOTES.
Proof.
  intros E. destruct (fetchAndCacheQuotes_empty Math_random net st E) as [-> _].
  unfold MAX_CACHED_QUOTES.
  destruct (batch net) as [| | [[| doc docs] |]]; cbn [length]; try lia.
  destruct (decide _); cbn [length]; [| lia]. rewrite length_take. lia.
Qed.

(** C7.  [shuffleArray] performs a Fisher-Yates shuffle: with the choices
    [Math.floor(Math.random() * currentIndex)], each of them below
    [currentIndex], its result is the result of the shuffle as it is
    described; the element at the first index drawn becomes the last element
    and the elements before it are shuffled with the draws that follow; and
    the result is a permutation of the array.  After a fetch cycle with
    surviving candidates the cache is the first 20 elements of what
    [shuffleArray] returns for the candidates, so every cached passage is
    one of the candidates; and no fetch cycle leaves more than 20 passages,
    the capacity, in the cache. *)
Theorem shuffled_cache (Math_random : nat -> Q) (net : Network) (st : State) :
  unitInterval Math_random ->
  cachedQuotes st = [] ->
  let cache := cachedQuotes (fetchAndCacheQuotes Math_random net st) in
  (∀ (A : Type) (undefined : A) (calls : nat) (array : list A),
      arrayLength (length array) ->
      shuffleArray Math_random undefined calls array
      = fisherYates (randomIndexBelow Math_random) calls (length array) array
      ∧ shuffleArray Math_random undefined calls array ≡ₚ array
      ∧ (∀ init x, array = init ++ [x] ->
           let r := randomIndexBelow Math_random calls (length array) in
           r < length array
           ∧ shuffleArray Math_random undefined calls array
             = shuffleArray Math_random undefined (S calls)
                 (take (length init) (<[r:=x]> array))
               ++ [array_get undefined array r]))
  ∧ (∀ docs, batch net = BatchJson (Some docs) -> arrayLength (length docs) ->
             potentialQuotesOf net docs ≠ [] ->
             cache = take MAX_CACHED_QUOTES
                       (shuffleArray Math_random undefinedString (randomCalls st)
                          (potentialQuotesOf net docs))
             ∧ shuffleArray Math_random undefinedString (randomCalls st)
                 (potentialQuotesOf net docs) ≡ₚ potentialQuotesOf net docs
             ∧ (∀ q, q ∈ cache -> q ∈ potentialQuotesOf net docs))
  ∧ length cache ≤ MAX_CACHED_QUOTES
  ∧ MAX_CACHED_QUOTES = 20.
Proof.
  intros Hrand E cache.
  split; [| split; [| split; [apply fetchAndCacheQuotes_capacity, E | reflexivity]]].
  - intros A undefined calls array Hlen.
    split; [apply shuffleArray_fisherYates; assumption |].
    split; [apply shuffleArray_Permutation; assumption |].
    intros init x ->. apply shuffleArray_last; assumption.
  - intros docs Eb Hlen Hne.
    assert (Hp : arrayLength (length (potentialQuotesOf net docs))).
    { assert (H := length_potentialQuotes net docs). unfold arrayLength in *. lia. }
    assert (Hs := shuffleArray_Permutation Math_random Hrand undefinedString
                    (randomCalls st) (potentialQuotesOf net docs) Hp).
    assert (Ec : cache = take MAX_CACHED_QUOTES
                   (shuffleArray Math_random undefinedString (randomCalls st)
                      (potentialQuotesOf net docs))).
    { subst cache. destruct (fetchAndCacheQuotes_empty Math_random net st E) as [-> _].
      rewrite Eb. destruct docs as [| doc docs]; [contradiction Hne; reflexivity |].
      destruct (decide _) as [_ | N]; [reflexivity |].
      destruct (potentialQuotesOf net (doc :: docs)); [contradiction | cbn in N; lia]. }
    split; [exact Ec |]. split; [exact Hs |].
    intros q Hq. rewrite Ec in Hq. rewrite <- Hs.
    apply (subseteq_take MAX_CACHED_QUOTES), Hq.
Qed.

(** With [Math.random] returning 0, 1/4, 1/2, 3/4 in turn, the shuffle of
    five numbers and the cache drawn from the three candidates of
    [library]. *)
Lemma shuffled_cache_witness :
  let docs := match batch library with BatchJson (Some docs) => docs | _ => [] end in
  let cache := cachedQuotes (fetchAndCacheQuotes quarters library initialState) in
  shuffleArray quarters 0 7 [1; 2; 3; 4; 5] = [3; 2; 5; 1; 4]
  ∧ shuffleArray quarters 0 7 [1; 2; 3; 4; 5]
    = shuffleArray quarters 0 8 [1; 2; 3; 5] ++ [4]
  ∧ shuffleArray quarters 0 7 [1; 2; 3; 4; 5] ≡ₚ [1; 2; 3; 4; 5]
  ∧ cache = [cleanText work2; cleanText work3; cleanText work1]
  ∧ (∀ q, q ∈ cache -> q ∈ potentialQuotesOf library docs)
  ∧ length cache ≤ MAX_CACHED_QUOTES.
Proof.
  destruct (shuffled_cache quarters library initialState quarters_unit eq_refl)
    as (Hshuffle & H & Hlen & _).
  destruct (Hshuffle nat 0 7 [1; 2; 3; 4; 5] eq_refl) as (Efy & Hperm & Hlast).
  destruct (Hlast [1; 2; 3; 4] 5 eq_refl) as [_ Estep].
  destruct (H (match batch library with BatchJson (Some docs) => docs | _ => [] end)
              eq_refl eq_refl) as (Ec & _ & Hin); [vm_compute; discriminate |].
  cbn zeta.
  split; [rewrite Efy; vm_compute; reflexivity |].
  split; [rewrite Estep; vm_compute; reflexivity |].
  split; [exact Hperm |].
  split; [rewrite Ec; vm_compute; reflexivity |].
  split; [exact Hin | exact Hlen].
Defined.

(** The shuffle of the three candidates of [library] moves them. *)
Example shuffled_cache_library :
  potentialQuotesOf library
    match batch library with BatchJson (Some docs) => docs | _ => [] end
  = [cleanText work1; cleanText work2; cleanText work3]
  ∧ cachedQuotes (fetchAndCacheQuotes quarters library initialState)
    = [cleanText work2; cleanText work3; cleanText work1].
Proof. vm_compute. split; reflexivity. Qed.

(** ** One fetch cycle *)

(** Both fields are left as they were. *)
Local Ltac kept H := split; (exact H || reflexivity).

Local Ltac through_handleInput H :=
  unfold dispatchInput, handleInput;
  destruct (negb _); [kept H |];
  destruct (_ && _); [kept H |];
  destruct (_ && _); kept H.

(** Once the promise is set, no event fetches again. *)
Lemma step_no_fetch (Math_random : nat -> Q) (st : State) (ev : Event) :
  quotesReadyPromise st = true ->
  quotesReadyPromise (step Math_random st ev) = true
  ∧ fetchCount (step Math_random st ev) = fetchCount st.
Proof.
  intros H. destruct ev as [level mode net | now | now | now e | now k | now]; cbn [step].
  - unfold startClick. cbn [quotesReadyPromise]. rewrite H. split; reflexivity.
  - unfold startTest, getNewQuote. destruct (decide _); kept H.
  - unfold tick, updateTimer, storyClock.
    destruct (intervalId st) as [[|] |]; [destruct (decide _) | |]; kept H.
  - through_handleInput H.
  - unfold dispatchKeyPress. destruct (keydownListener _ _); [kept H |].
    destruct (defaultEdit k) as [e |]; [| kept H].
    through_handleInput H.
  - kept H.
Qed.

Lemma run_no_fetch (Math_random : nat -> Q) (evs : list Event) (st : State) :
  quotesReadyPromise st = true ->
  fetchCount (run Math_random st evs) = fetchCount st.
Proof.
  revert st. unfold run. induction evs as [| ev evs IH]; intros st H; cbn [foldl].
  - reflexivity.
  - destruct (step_no_fetch Math_random st ev H) as [H1 H2]. rewrite IH; assumption.
Qed.

(** C8.  [fetchAndCacheQuotes] is idempotent.  With a passage in the cache
    it returns at once and leaves the page as it was, nothing fetched; a
    call leaves a passage in the cache, so a second call in sequence changes
    nothing and the two calls together request the batch at most once; and on
    a page that has loaded, no sequence of events, clicks on the start
    button included, requests it again. *)
Theorem fetch_at_most_once (Math_random : nat -> Q) (net1 net2 : Network) (st : State) :
  (0 < length (cachedQuotes st) -> fetchAndCacheQuotes Math_random net1 st = st)
  ∧ fetchAndCacheQuotes Math_random net2 (fetchAndCacheQuotes Math_random net1 st)
    = fetchAndCacheQuotes Math_random net1 st
  ∧ fetchCount (fetchAndCacheQuotes Math_random net2
                  (fetchAndCacheQuotes Math_random net1 st))
    ≤ S (fetchCount st)
  ∧ ∀ evs, fetchCount (run Math_random (pageLoad Math_random net1 initialState) evs) = 1.
Proof.
  assert (Hsecond :
    fetchAndCacheQuotes Math_random net2 (fetchAndCacheQuotes Math_random net1 st)
    = fetchAndCacheQuotes Math_random net1 st)
    by apply fetchAndCacheQuotes_cached, fetchAndCacheQuotes_filled.
  split; [apply fetchAndCacheQuotes_cached |].
  split; [exact Hsecond |].
  split.
  - rewrite Hsecond. destruct (cachedQuotes st) as [| q qs] eqn:E.
    + destruct (fetchAndCacheQuotes_empty Math_random net1 st E) as [_ ->]. lia.
    + rewrite fetchAndCacheQuotes_cached; [lia | rewrite E; cbn [length]; lia].
  - intros evs. rewrite run_no_fetch by reflexivity.
    unfold pageLoad. cbn [fetchCount set_quotesReadyPromise].
    destruct (fetchAndCacheQuotes_empty Math_random net1 initialState eq_refl) as [_ ->].
    reflexivity.
Qed.

Lemma fetch_at_most_once_witness :
  fetchAndCacheQuotes quarters library loadedPage = loadedPage
  ∧ fetchAndCacheQuotes quarters offline (fetchAndCacheQuotes quarters library initialState)
    = fetchAndCacheQuotes quarters library initialState
  ∧ fetchCount (fetchAndCacheQuotes quarters offline
                  (fetchAndCacheQuotes quarters library initialState)) ≤ 1
  ∧ fetchCount
      (run quarters (pageLoad quarters library initialState)
         (sessionIn "normal" ++ [StopClick 5000] ++ sessionIn "story")) = 1.
Proof.
  destruct (fetch_at_most_once quarters library offline initialState)
    as (_ & H2 & H3 & H4).
  destruct (fetch_at_most_once quarters library offline loadedPage) as (H1 & _).
  split; [apply H1; vm_compute; lia |].
  split; [exact H2 |]. split; [exact H3 |]. apply H4.
Defined.

(** ** The score *)

Lemma inject_Z_minus (a b : Z) : (inject_Z a - inject_Z b)%Q = inject_Z (a - b).
Proof.
  unfold Qminus, Qplus, Qopp, inject_Z. cbn [Qnum Qden]. f_equal. lia.
Qed.

(** C9.  The score depends on the typed text, the passage and the duration
    only: two finalizations, whatever the rest of the two pages, that have
    the same typed text, the same passage and the same time since the start
    show the same [wpm] and the same accuracy. *)
Theorem result_deterministic (now1 now2 : Z) (st1 st2 : State) :
  textInput_value st1 = textInput_value st2 ->
  currentQuote st1 = currentQuote st2 ->
  (now1 - startTime st1 = now2 - startTime st2)%Z ->
  wpm <$> resultDisplay (endTest now1 st1) = wpm <$> resultDisplay (endTest now2 st2)
  ∧ accuracy <$> resultDisplay (endTest now1 st1)
    = accuracy <$> resultDisplay (endTest now2 st2).
Proof.
  intros Ht Hq Hd.
  rewrite !endTest_shows.
  unfold durationSeconds, Number.sub. rewrite !inject_Z_minus, Ht, Hq, Hd.
  split; reflexivity.
Qed.

Lemma result_deterministic_witness :
  let st1 := set_currentQuote (lit "The quick brown fox")
               (run quarters loadedPage
                  (sessionIn "normal" ++ [Input 2000 (typed "insertText" "The quikc")])) in
  let st2 := set_currentQuote (lit "The quick brown fox")
               (run quarters (pageLoad quarters library initialState)
                  [StartClick "hard" "story" library; CountdownOver 700000;
                   Input 700500 (typed "insertText" "The quick");
                   Input 700900 (typed "insertText" "The quikc"); Tick 701000]) in
  wpm <$> resultDisplay (endTest 13000 st1) = wpm <$> resultDisplay (endTest 712000 st2)
  ∧ accuracy <$> resultDisplay (endTest 13000 st1)
    = accuracy <$> resultDisplay (endTest 712000 st2).
Proof.
  cbn zeta.
  apply (result_deterministic 13000 712000
           (set_currentQuote (lit "The quick brown fox")
              (run quarters loadedPage
                 (sessionIn "normal" ++ [Input 2000 (typed "insertText" "The quikc")])))
           (set_currentQuote (lit "The quick brown fox")
              (run quarters (pageLoad quarters library initialState)
                 [StartClick "hard" "story" library; CountdownOver 700000;
                  Input 700500 (typed "insertText" "The quick");
                  Input 700900 (typed "insertText" "The quikc"); Tick 701000])));
    vm_compute; reflexivity.
Defined.

Lemma Math_round_nonneg (x : Q) : (0 <= x)%Q -> (0 <= Number.Math_round x)%Z.
Proof.
  intros H. unfold Number.Math_round. change 0%Z with (Qfloor 0).
  apply Qfloor_resp_le. lra.
Qed.

Lemma Math_round_le (x : Q) (n : Z) : (x <= inject_Z n)%Q -> (Number.Math_round x <= n)%Z.
Proof.
  intros H. unfold Number.Math_round.
  assert (L : (inject_Z (Qfloor (x + (1 # 2))) < inject_Z (n + 1))%Q).
  { eapply Qle_lt_trans; [apply Qfloor_le |].
    rewrite inject_Z_plus. change (inject_Z 1) with 1%Q. lra. }
  apply NumberFacts.Qlt_inject_Z in L. lia.
Qed.

Lemma of_nat_nonneg (n : nat) : (0 <= Number.of_nat n)%Q.
Proof.
  unfold Number.of_nat. change 0%Q with (inject_Z 0). rewrite <- Zle_Qle. lia.
Qed.

Lemma div_nonneg (a b : Q) : (0 <= a)%Q -> (0 < b)%Q -> (0 <= Number.div a b)%Q.
Proof.
  intros Ha Hb. apply NumberFacts.round64_nonneg, Qle_shift_div_l; [exact Hb | lra].
Qed.

Lemma wpm_in_Numbers_nonneg (correctChars : nat) (duration : Q) :
  (0 <= wpm_in_Numbers correctChars duration)%Z.
Proof.
  unfold wpm_in_Numbers. destruct (Qlt_le_dec 0 duration) as [L | _]; [| reflexivity].
  apply Math_round_nonneg, div_nonneg.
  - apply div_nonneg; [apply of_nat_nonneg | reflexivity].
  - apply div_pos_iff; [reflexivity | exact L].
Qed.

Lemma accuracy_in_Numbers_bounds (correctChars totalTypedChars : nat) :
  correctChars ≤ totalTypedChars ->
  (0 <= accuracy_in_Numbers correctChars totalTypedChars <= 100)%Z.
Proof.
  intros Hle. unfold accuracy_in_Numbers.
  destruct (decide (0 < totalTypedChars)) as [Ht | _]; [| lia].
  assert (T : (0 < Number.of_nat totalTypedChars)%Q).
  { unfold Number.of_nat. change 0%Q with (inject_Z 0). rewrite <- Zlt_Qlt. lia. }
  assert (R0 : (0 <= Number.div (Number.of_nat correctChars)
                       (Number.of_nat totalTypedChars))%Q)
    by (apply div_nonneg; [apply of_nat_nonneg | exact T]).
  assert (R1 : (Number.div (Number.of_nat correctChars)
                  (Number.of_nat totalTypedChars) <= inject_Z 1)%Q).
  { apply NumberFacts.round64_le_int; [| split; [lia | reflexivity]].
    apply Qle_shift_div_r; [exact T |].
    unfold Number.of_nat. rewrite <- inject_Z_mult, <- Zle_Qle. lia. }
  change (inject_Z 1) with 1%Q in R1.
  split.
  - apply Math_round_nonneg, NumberFacts.round64_nonneg. apply Qmult_le_0_compat; lra.
  - apply Math_round_le, NumberFacts.round64_le_int; [| split; [lia | reflexivity]].
    change (inject_Z 100) with 100%Q. lra.
Qed.

(** C10.  The result that [endTest] shows has an accuracy between 0 and 100
    and a [wpm] that is not negative: the correct characters are typed
    characters, so [correctChars] is at most [totalTypedChars], and it is at
    most the length of the passage, so what is typed beyond the passage adds
    to the denominator of the accuracy and never to [correctChars]. *)
Theorem result_bounds (now : Z) (st : State) :
  let typedText := textInput_value st in
  let correctChars := countCorrect typedText (currentQuote st) in
  (∃ r, resultDisplay (endTest now st) = Some r
        ∧ (0 <= accuracy r <= 100)%Z ∧ (0 <= wpm r)%Z)
  ∧ correctChars ≤ length typedText
  ∧ correctChars ≤ length (currentQuote st)
  ∧ ∀ extra, countCorrect (currentQuote st ++ extra) (currentQuote st)
             = length (currentQuote st).
Proof.
  cbn zeta. rewrite countCorrect_matchingPositions.
  assert (H := matchingPositions_le (textInput_value st) (currentQuote st)).
  split; [| split; [lia | split; [lia |]]].
  - eexists. split; [apply endTest_shows |]. cbn [accuracy wpm].
    split; [apply accuracy_in_Numbers_bounds; lia | apply wpm_in_Numbers_nonneg].
  - intros extra. rewrite countCorrect_matchingPositions. unfold matchingPositions.
    rewrite length_app, Nat.min_r by lia.
    transitivity (length (seq 0 (length (currentQuote st)))); [| apply length_seq].
    f_equal.
    rewrite <- (filter_agree (fun _ => True)
                  (fun i => (currentQuote st ++ extra) !! i = currentQuote st !! i)).
    + induction (seq 0 _) as [| i l IH]; [reflexivity |].
      rewrite filter_cons_True by exact I. f_equal. exact IH.
    + apply Forall_forall. intros i Hi. apply elem_of_seq in Hi.
      split; [intros _ | trivial]. apply lookup_app_l. lia.
Qed.

(** ** Scenarios of the specification *)

(** "The cat sat." typed without a mistake in exactly 12 seconds: 12 words
    per minute, accuracy 100, no error. *)
Example the_cat_sat :
  resultDisplay
    (run quarters (set_cachedQuotes [lit "The cat sat."] initialState)
       [CountdownOver 1000; Input 13000 (typed "insertText" "The cat sat.")])
  = Some {| wpm := 12; accuracy := 100; shownErrors := 0 |}.
Proof. vm_compute. reflexivity. Qed.

(** "Hxllo world" for "Hello world": one error, at position 1. *)
Example hxllo_world :
  countErrors (lit "Hxllo world") (lit "Hello world") = 1
  ∧ filter (fun i => lit "Hxllo world" !! i ≠ lit "Hello world" !! i) (seq 0 11) = [1].
Proof. vm_compute. split; reflexivity. Qed.

(** Every request fails: the cache is one fallback sentence, and every test
    takes it as its passage. *)
Example all_fetches_fail (now : Z) :
  cachedQuotes loadedPage = [fallbackError]
  ∧ currentQuote (run quarters loadedPage (sessionIn "normal")) = fallbackError
  ∧ currentQuote
      (run quarters loadedPage
         (sessionIn "normal" ++ [StopClick now] ++ sessionIn "invisible"))
    = fallbackError.
Proof. vm_compute. repeat split; reflexivity. Qed.

(** The operators round: 23 correct characters of 40 typed are 57.5 percent
    exactly, which would round to 58, but [23 / 40] is the Number just below
    0.575, its product with 100 is just below 57.5, and the accuracy shown
    is 57. *)
Remark accuracy_of_23_in_40 :
  accuracy_in_Numbers 23 40 = 57%Z
  ∧ Qfloor ((23 # 40) * 100 + (1 # 2)) = 58%Z.
Proof. vm_compute. split; reflexivity. Qed.

(** An [input] event is not cancellable: in no-backspace mode a
    [deleteContentBackward] event that reaches [handleInput] without a
    Backspace key press leaves the text as the browser has shortened it. *)
Example deleteContentBackward_event :
  let st := run quarters loadedPage
              (sessionIn "no-backspace" ++ [Input 2000 (typed "insertText" "abc")]) in
  textInput_value (dispatchInput 3000 (typed "deleteContentBackward" "ab") st) = lit "ab".
Proof. vm_compute. reflexivity. Qed.

(** * Further properties of the code *)

(** ** What the cleaning keeps and what it removes *)

(** Induction for the functions that look at two characters at a time. *)
Lemma pairs_ind {A : Type} (P : list A -> Prop) :
  P [] -> (∀ c, P [c]) -> (∀ c c' s, P s -> P (c' :: s) -> P (c :: c' :: s)) ->
  ∀ s, P s.
Proof.
  intros H0 H1 H2 s.
  assert (H : P s ∧ ∀ c, P (c :: s)); [| apply H].
  induction s as [| c' s [IH1 IH2]]; split; auto.
Qed.

Lemma nonWhite_cons (c : char) (s : jsstring) :
  nonWhite (c :: s) = if isWhiteSpace c then nonWhite s else c :: nonWhite s.
Proof.
  unfold nonWhite. rewrite filter_cons.
  destruct (decide (isWhiteSpace c = false)) as [E | E]; destruct (isWhiteSpace c);
    congruence.
Qed.

Lemma nonWhite_replaceNewlines (s : jsstring) :
  nonWhite (replaceNewlines s) = nonWhite s.
Proof.
  induction s as [| c | c c' s IH1 IH2] using pairs_ind; [reflexivity | |].
  - cbn [replaceNewlines].
    destruct (N.eqb_spec c CR) as [-> | _]; [reflexivity |].
    destruct (N.eqb_spec c LF) as [-> | _]; reflexivity.
  - change (replaceNewlines (c :: c' :: s))
      with (if (c =? CR)%N then
              if (c' =? LF)%N then SP :: replaceNewlines s
              else SP :: replaceNewlines (c' :: s)
            else if (c =? LF)%N then SP :: replaceNewlines (c' :: s)
            else c :: replaceNewlines (c' :: s)).
    destruct (N.eqb_spec c CR) as [-> | _].
    + destruct (N.eqb_spec c' LF) as [-> | _].
      * rewrite !nonWhite_cons. cbn. exact IH1.
      * rewrite (nonWhite_cons SP), (nonWhite_cons CR). cbn. exact IH2.
    + destruct (N.eqb_spec c LF) as [-> | _].
      * rewrite (nonWhite_cons SP), (nonWhite_cons LF). cbn. exact IH2.
      * rewrite !(nonWhite_cons c), IH2. reflexivity.
Qed.

Lemma insertSpaceBetween_cons2 (p1 p2 : char -> bool) (c c' : char) (s : jsstring) :
  insertSpaceBetween p1 p2 (c :: c' :: s)
  = if p1 c && p2 c' then c :: SP :: c' :: insertSpaceBetween p1 p2 s
    else c :: insertSpaceBetween p1 p2 (c' :: s).
Proof. reflexivity. Qed.

Lemma nonWhite_insertSpaceBetween (p1 p2 : char -> bool) (s : jsstring) :
  nonWhite (insertSpaceBetween p1 p2 s) = nonWhite s.
Proof.
  induction s as [| c | c c' s IH1 IH2] using pairs_ind; [reflexivity | reflexivity |].
  rewrite insertSpaceBetween_cons2. destruct (p1 c && p2 c').
  - rewrite (nonWhite_cons c (SP :: _)), (nonWhite_cons SP), (nonWhite_cons c' (insertSpaceBetween _ _ _)).
    rewrite (nonWhite_cons c (c' :: s)), (nonWhite_cons c' s), IH1. reflexivity.
  - rewrite (nonWhite_cons c (insertSpaceBetween _ _ _)), IH2. rewrite (nonWhite_cons c (c' :: s)).
    reflexivity.
Qed.

Lemma nonWhite_collapseWhiteSpace (inRun : bool) (s : jsstring) :
  nonWhite (collapseWhiteSpace inRun s) = nonWhite s.
Proof.
  revert inRun. induction s as [| c s IH]; intros inRun; [reflexivity |].
  cbn [collapseWhiteSpace]. rewrite (nonWhite_cons c s).
  destruct (isWhiteSpace c) eqn:E.
  - destruct inRun; [apply IH |]. rewrite nonWhite_cons. cbn. apply IH.
  - rewrite nonWhite_cons, E, IH. reflexivity.
Qed.

Lemma nonWhite_trimStart (s : jsstring) : nonWhite (trimStart s) = nonWhite s.
Proof.
  induction s as [| c s IH]; [reflexivity |]. cbn [trimStart].
  destruct (isWhiteSpace c) eqn:E; [| reflexivity].
  rewrite (nonWhite_cons c s), E. exact IH.
Qed.

Lemma nonWhite_trim (s : jsstring) : nonWhite (trim s) = nonWhite s.
Proof.
  unfold trim, trimEnd, nonWhite.
  rewrite filter_reverse. fold (nonWhite (trimStart (reverse (trimStart s)))).
  rewrite nonWhite_trimStart. unfold nonWhite.
  rewrite filter_reverse, reverse_involutive. apply nonWhite_trimStart.
Qed.

Lemma cleanText_keeps_nonWhite_lemma (textContent : jsstring) :
  nonWhite (cleanText textContent) = nonWhite textContent.
Proof.
  unfold cleanText.
  rewrite nonWhite_trim, nonWhite_collapseWhiteSpace, !nonWhite_insertSpaceBetween.
  apply nonWhite_replaceNewlines.
Qed.

(** X1.  The cleaning only touches white space: the characters of the
    cleaned text that are not white space are those of the raw text, all of
    them and in the same order; so the cleaned text has at least as many
    characters as the raw text has characters that are not white space. *)
Theorem cleanText_keeps_nonWhite (textContent : jsstring) :
  nonWhite (cleanText textContent) = nonWhite textContent
  ∧ length (nonWhite textContent) ≤ length (cleanText textContent).
Proof.
  split; [apply cleanText_keeps_nonWhite_lemma |].
  rewrite <- cleanText_keeps_nonWhite_lemma. apply length_filter.
Qed.

(** The character classes of the cleaning are apart from each other and
    from white space. *)
Lemma isWhiteSpace_range (c : char) :
  isWhiteSpace c = true -> (c <= 32 ∨ 160 <= c)%N.
Proof.
  unfold isWhiteSpace, inRange.
  rewrite !orb_true_iff, !andb_true_iff, !N.eqb_eq, !N.leb_le. lia.
Qed.

Lemma isPunct_range (c : char) : isPunct c = true -> (33 <= c <= 63)%N.
Proof. unfold isPunct. rewrite !orb_true_iff, !N.eqb_eq. lia. Qed.

Lemma isLower_range (c : char) : isLower c = true -> (97 <= c <= 122)%N.
Proof. unfold isLower, inRange. rewrite andb_true_iff, !N.leb_le. lia. Qed.

Lemma isUpper_range (c : char) : isUpper c = true -> (65 <= c <= 90)%N.
Proof. unfold isUpper, inRange. rewrite andb_true_iff, !N.leb_le. lia. Qed.

Lemma isLetter_range (c : char) : isLetter c = true -> (65 <= c <= 122)%N.
Proof.
  unfold isLetter. rewrite orb_true_iff.
  intros [H | H]; [apply isLower_range in H | apply isUpper_range in H]; lia.
Qed.

Lemma letter_not_punct (c : char) : isLetter c = true -> isPunct c = false.
Proof.
  intros H. apply isLetter_range in H. apply not_true_is_false. intros P.
  apply isPunct_range in P. lia.
Qed.

Lemma upper_not_lower (c : char) : isUpper c = true -> isLower c = false.
Proof.
  intros H. apply isUpper_range in H. apply not_true_is_false. intros P.
  apply isLower_range in P. lia.
Qed.

Lemma white_not_punct (c : char) : isWhiteSpace c = true -> isPunct c = false.
Proof.
  intros H. apply isWhiteSpace_range in H. apply not_true_is_false. intros P.
  apply isPunct_range in P. lia.
Qed.

Lemma white_not_letter (c : char) : isWhiteSpace c = true -> isLetter c = false.
Proof.
  intros H. apply isWhiteSpace_range in H. apply not_true_is_false. intros P.
  apply isLetter_range in P. lia.
Qed.

Lemma white_not_lower (c : char) : isWhiteSpace c = true -> isLower c = false.
Proof.
  intros H. apply isWhiteSpace_range in H. apply not_true_is_false. intros P.
  apply isLower_range in P. lia.
Qed.

Lemma white_not_upper (c : char) : isWhiteSpace c = true -> isUpper c = false.
Proof.
  intros H. apply isWhiteSpace_range in H. apply not_true_is_false. intros P.
  apply isUpper_range in P. lia.
Qed.

Lemma insertSpaceBetween_head (q1 q2 : char -> bool) (c : char) (s : jsstring) :
  ∃ t, insertSpaceBetween q1 q2 (c :: s) = c :: t.
Proof.
  destruct s as [| c' s]; [eexists; reflexivity |].
  rewrite insertSpaceBetween_cons2. destruct (q1 c && q2 c'); eexists; reflexivity.
Qed.

Section Pairs.
Variables p1 p2 : char -> bool.
Hypothesis p1_white : ∀ c, isWhiteSpace c = true -> p1 c = false.
Hypothesis p2_white : ∀ c, isWhiteSpace c = true -> p2 c = false.

Lemma noPair_cons2 (c c' : char) (s : jsstring) :
  noPair p1 p2 (c :: c' :: s) ↔ p1 c && p2 c' = false ∧ noPair p1 p2 (c' :: s).
Proof. reflexivity. Qed.

Lemma p1_space : p1 SP = false.
Proof. apply p1_white. reflexivity. Qed.

Lemma p2_space : p2 SP = false.
Proof. apply p2_white. reflexivity. Qed.

Lemma insertSpaceBetween_skip (c : char) (s : jsstring) :
  p1 c = false -> insertSpaceBetween p1 p2 (c :: s) = c :: insertSpaceBetween p1 p2 s.
Proof. intros E. destruct s as [| c' s]; cbn; rewrite ?E; reflexivity. Qed.

(** After the replacement no match is left, because a character that ends
    a match cannot begin one. *)
Lemma insertSpaceBetween_noPair (s : jsstring) :
  (∀ c, p2 c = true -> p1 c = false) ->
  noPair p1 p2 (insertSpaceBetween p1 p2 s).
Proof.
  intros Hapart.
  induction s as [| c | c c' s IH1 IH2] using pairs_ind; [exact I | cbn; tauto |].
  rewrite insertSpaceBetween_cons2. destruct (p1 c && p2 c') eqn:E.
  - apply andb_true_iff in E as [_ E2].
    rewrite !noPair_cons2. rewrite p2_space, p1_space, andb_false_r. cbn [andb].
    split; [reflexivity | split; [reflexivity |]].
    rewrite (insertSpaceBetween_skip c' s (Hapart c' E2)) in IH2. exact IH2.
  - destruct s as [| c'' s].
    + cbn. rewrite E. tauto.
    + rewrite insertSpaceBetween_cons2 in *.
      destruct (p1 c' && p2 c''); rewrite noPair_cons2; (split; [exact E | exact IH2]).
Qed.

(** A replacement that only inserts spaces creates no new pair. *)
Lemma insertSpaceBetween_keeps_noPair (q1 q2 : char -> bool) (s : jsstring) :
  noPair p1 p2 s -> noPair p1 p2 (insertSpaceBetween q1 q2 s).
Proof.
  induction s as [| c | c c' s IH1 IH2] using pairs_ind; [trivial | trivial |].
  rewrite noPair_cons2. intros [E H]. rewrite insertSpaceBetween_cons2.
  destruct (q1 c && q2 c').
  - rewrite !noPair_cons2. rewrite p2_space, p1_space, andb_false_r. cbn [andb].
    split; [reflexivity | split; [reflexivity |]].
    destruct s as [| c'' s]; [cbn; tauto |].
    rewrite noPair_cons2 in H. destruct H as [E' H].
    specialize (IH1 H).
    destruct (insertSpaceBetween_head q1 q2 c'' s) as [t Et]. rewrite Et in *.
    rewrite noPair_cons2. split; [exact E' | exact IH1].
  - specialize (IH2 H). destruct s as [| c'' s].
    + cbn. rewrite E. tauto.
    + rewrite insertSpaceBetween_cons2 in *.
      destruct (q1 c' && q2 c''); rewrite noPair_cons2; (split; [exact E | exact IH2]).
Qed.

Lemma collapseWhiteSpace_keeps_noPair (inRun : bool) (s : jsstring) :
  noPair p1 p2 s -> noPair p1 p2 (collapseWhiteSpace inRun s).
Proof.
  revert inRun. induction s as [| c s IH]; intros inRun; [trivial |].
  intros [E H]. cbn [collapseWhiteSpace].
  destruct (isWhiteSpace c) eqn:Ec.
  - destruct inRun; [apply IH, H |].
    assert (IH' := IH true H).
    destruct (collapseWhiteSpace true s) as [| d t]; [cbn; tauto |].
    rewrite noPair_cons2. rewrite p1_space. split; [reflexivity | exact IH'].
  - assert (IH' := IH false H). destruct s as [| c' s]; [cbn; tauto |].
    cbn [collapseWhiteSpace] in *. destruct (isWhiteSpace c') eqn:Ec'.
    + rewrite noPair_cons2. rewrite p2_space, andb_false_r. split; [reflexivity | exact IH'].
    + rewrite noPair_cons2. split; [exact E | exact IH'].
Qed.

Lemma noPair_app (x y : jsstring) :
  noPair p1 p2 (x ++ y) -> noPair p1 p2 x ∧ noPair p1 p2 y.
Proof.
  induction x as [| c x IH]; cbn [app]; [cbn; tauto |].
  intros [E H]. destruct (IH H) as [Hx Hy]. split; [| exact Hy].
  split; [| exact Hx]. destruct x as [| c' x]; [exact I | exact E].
Qed.

Lemma trim_keeps_noPair (s : jsstring) : noPair p1 p2 s -> noPair p1 p2 (trim s).
Proof.
  intros H. unfold trim.
  destruct (trimStart_suffix s) as [before E1].
  destruct (trimEnd_prefix (trimStart s)) as [after E2].
  rewrite E1 in H. apply noPair_app in H as [_ H].
  rewrite E2 in H. apply noPair_app in H as [H _]. exact H.
Qed.

Lemma insertSpaceBetween_id (s : jsstring) :
  noPair p1 p2 s -> insertSpaceBetween p1 p2 s = s.
Proof.
  induction s as [| c | c c' s IH1 IH2] using pairs_ind; [reflexivity | reflexivity |].
  rewrite noPair_cons2. intros [E H]. rewrite insertSpaceBetween_cons2, E.
  f_equal. apply IH2, H.
Qed.

End Pairs.

Lemma trimStart_startsClean (s : jsstring) : startsClean (trimStart s).
Proof.
  induction s as [| c s IH]; [exact I |]. cbn [trimStart].
  destruct (isWhiteSpace c) eqn:E; [exact IH | exact E].
Qed.

Lemma startsClean_prefix (x y : jsstring) : startsClean (x ++ y) -> startsClean x.
Proof. destruct x; [intros _; exact I | trivial]. Qed.

Lemma trim_edges (s : jsstring) : startsClean (trim s) ∧ endsClean (trim s).
Proof.
  unfold trim. split.
  - destruct (trimEnd_prefix (trimStart s)) as [after E].
    apply (startsClean_prefix _ after). rewrite <- E. apply trimStart_startsClean.
  - unfold endsClean, trimEnd. rewrite reverse_involutive. apply trimStart_startsClean.
Qed.

Lemma trimStart_id (s : jsstring) : startsClean s -> trimStart s = s.
Proof. destruct s as [| c s]; [reflexivity |]. cbn. intros ->. reflexivity. Qed.

Lemma trim_id (s : jsstring) : startsClean s -> endsClean s -> trim s = s.
Proof.
  intros H1 H2. unfold trim, trimEnd. rewrite (trimStart_id s H1).
  rewrite (trimStart_id _ H2). apply reverse_involutive.
Qed.

Lemma replaceNewlines_id (s : jsstring) : noLineBreak s -> replaceNewlines s = s.
Proof.
  intros [HLF HCR]. induction s as [| c s IH]; [reflexivity |].
  apply not_elem_of_cons in HLF as [H1 HLF]. apply not_elem_of_cons in HCR as [H2 HCR].
  cbn [replaceNewlines].
  destruct (N.eqb_spec c CR) as [-> | _]; [congruence |].
  destruct (N.eqb_spec c LF) as [-> | _]; [congruence |].
  f_equal. apply IH; assumption.
Qed.

Lemma collapseWhiteSpace_id (inRun : bool) (s : jsstring) :
  tidy s -> (inRun = true -> startsClean s) -> collapseWhiteSpace inRun s = s.
Proof.
  revert inRun. induction s as [| c s IH]; intros inRun Ht Hrun; [reflexivity |].
  destruct Ht as [Hc Hs]. cbn [collapseWhiteSpace].
  destruct (isWhiteSpace c) eqn:E.
  - destruct (Hc eq_refl) as [-> Hnext].
    destruct inRun; [specialize (Hrun eq_refl); cbn in Hrun; congruence |].
    f_equal. apply IH; [exact Hs |]. intros _. destruct s; [exact I | exact Hnext].
  - f_equal. apply IH; [exact Hs | discriminate].
Qed.

Lemma cleanText_noPairs (textContent : jsstring) :
  noPair isPunct isLetter (cleanText textContent)
  ∧ noPair isLower isUpper (cleanText textContent).
Proof.
  unfold cleanText. split.
  - apply (trim_keeps_noPair isPunct isLetter).
    apply (collapseWhiteSpace_keeps_noPair _ _ white_not_punct white_not_letter).
    apply (insertSpaceBetween_keeps_noPair _ _ white_not_punct white_not_letter).
    apply (insertSpaceBetween_noPair _ _ white_not_punct white_not_letter).
    apply letter_not_punct.
  - apply (trim_keeps_noPair isLower isUpper).
    apply (collapseWhiteSpace_keeps_noPair _ _ white_not_lower white_not_upper).
    apply (insertSpaceBetween_noPair _ _ white_not_lower white_not_upper).
    apply upper_not_lower.
Qed.

Lemma cleanText_edges (textContent : jsstring) :
  startsClean (cleanText textContent) ∧ endsClean (cleanText textContent).
Proof. unfold cleanText. apply trim_edges. Qed.

(** X2.  What the cleaned text looks like: it neither begins nor ends with
    white space, its only white space is single spaces, no [.?!,] is directly
    followed by a letter, and no lowercase letter by an uppercase one. *)
Theorem cleanText_shape (textContent : jsstring) :
  let cleanedText := cleanText textContent in
  startsClean cleanedText
  ∧ endsClean cleanedText
  ∧ (∀ c, c ∈ cleanedText -> isWhiteSpace c = true -> c = SP)
  ∧ noSpaceRun cleanedText
  ∧ noPair isPunct isLetter cleanedText
  ∧ noPair isLower isUpper cleanedText.
Proof.
  cbn zeta.
  split; [apply cleanText_edges |]. split; [apply cleanText_edges |].
  split; [intros c; apply tidy_white_space, cleanText_tidy |].
  split; [apply tidy_noSpaceRun, cleanText_tidy |].
  apply cleanText_noPairs.
Qed.

Lemma cleanText_fixpoint (s : jsstring) :
  tidy s -> startsClean s -> endsClean s ->
  noPair isPunct isLetter s -> noPair isLower isUpper s ->
  cleanText s = s.
Proof.
  intros Ht Hs He Hp Hl. unfold cleanText.
  rewrite (replaceNewlines_id s (tidy_noLineBreak s Ht)).
  rewrite (insertSpaceBetween_id _ _ s Hp), (insertSpaceBetween_id _ _ s Hl).
  rewrite (collapseWhiteSpace_id false s Ht) by discriminate.
  apply trim_id; assumption.
Qed.

(** X3.  The cleaning is idempotent: a cleaned text is left as it is by a
    second cleaning. *)
Theorem cleanText_idempotent (textContent : jsstring) :
  cleanText (cleanText textContent) = cleanText textContent.
Proof.
  apply cleanText_fixpoint.
  - apply cleanText_tidy.
  - apply cleanText_edges.
  - apply cleanText_edges.
  - apply cleanText_noPairs.
  - apply cleanText_noPairs.
Qed.

Lemma nonWhite_nil_iff (s : list char) :
  nonWhite s = [] ↔ Forall (fun c => isWhiteSpace c = true) s.
Proof.
  induction s as [| c s IH]; [split; [constructor | reflexivity] |].
  rewrite nonWhite_cons, Forall_cons. destruct (isWhiteSpace c).
  - rewrite IH. tauto.
  - split; [discriminate | intros [H _]; discriminate H].
Qed.

(** X4.  The cleaned text is empty exactly when the raw text is made of
    white space only (the empty text included); such a candidate is then
    dropped. *)
Theorem cleanText_empty_iff (textContent : jsstring) :
  cleanText textContent = [] ↔ Forall (fun c => isWhiteSpace c = true) textContent.
Proof.
  rewrite <- nonWhite_nil_iff, <- (cleanText_keeps_nonWhite_lemma textContent). split.
  - intros ->. reflexivity.
  - intros H. destruct (cleanText_edges textContent) as [Hs _].
    destruct (cleanText textContent) as [| c t]; [reflexivity |].
    rewrite nonWhite_cons in H. cbn in Hs. rewrite Hs in H. discriminate H.
Qed.

(** ** Rounding respects the value of a rational *)
Module NumberCompat.
Import Number NumberFacts.
Local Open Scope Z_scope.

(** The exponent is determined by the value. *)
Lemma ulp_exp_unique (q : Q) (e : Z) :
  (0 < q)%Q -> (2 ^ (prec - 1) <= q * 2 ^ (- e))%Q -> (q * 2 ^ (- e) < 2 ^ prec)%Q ->
  e = ulp_exp q.
Proof.
  intros Hq Hlo Hhi. destruct (ulp_exp_spec q Hq) as [Hlo' Hhi'].
  set (e' := ulp_exp q) in *.
  assert (L : ∀ a b, (2 ^ (prec - 1) <= q * 2 ^ (- a))%Q -> (q * 2 ^ (- b) < 2 ^ prec)%Q ->
              b <= a -> False \/ a <= b).
  { intros a b Ha Hb Hab. destruct (Z.le_gt_cases a b) as [H | H]; [right; exact H | left].
    (* b < a: q 2^-b = q 2^-a 2^(a-b) >= 2^52 * 2 *)
    assert (E : (q * 2 ^ (- b) == q * 2 ^ (- a) * 2 ^ (a - b))%Q).
    { rewrite <- Qmult_assoc, <- pow2_add. replace (- a + (a - b)) with (- b) by lia.
      reflexivity. }
    assert (P : (2 ^ 1 <= 2 ^ (a - b))%Q) by (apply Qpower_le_compat_l; [lia | discriminate]).
    assert (P0 := pow2_pos (prec - 1)).
    assert (M : (2 ^ (prec - 1) * 2 ^ 1 <= q * 2 ^ (- a) * 2 ^ (a - b))%Q).
    { apply Qle_trans with (q * 2 ^ (- a) * 2 ^ 1)%Q.
      - apply Qmult_le_compat_r; [exact Ha | discriminate].
      - rewrite !(Qmult_comm (q * 2 ^ (- a))). apply Qmult_le_compat_r; [exact P |].
        lra. }
    rewrite <- E in M. change (2 ^ (prec - 1) * 2 ^ 1)%Q with (2 ^ prec)%Q in M. lra. }
  destruct (Z.le_ge_cases e e') as [H | H].
  - destruct (L e' e Hlo' Hhi H) as [[] | H']. lia.
  - destruct (L e e' Hlo Hhi' ltac:(lia)) as [[] | H']. lia.
Qed.

Lemma ulp_exp_compat (q q' : Q) : (q == q')%Q -> (0 < q)%Q -> ulp_exp q = ulp_exp q'.
Proof.
  intros E Hq. assert (Hq' : (0 < q')%Q) by (rewrite <- E; exact Hq).
  destruct (ulp_exp_spec q Hq) as [Hlo Hhi].
  apply ulp_exp_unique; [exact Hq' | rewrite <- E; exact Hlo | rewrite <- E; exact Hhi].
Qed.

Lemma rne_compat (q q' : Q) : (q == q')%Q -> rne q = rne q'.
Proof.
  intros E. unfold rne. rewrite <- (Qfloor_comp _ _ E).
  assert (C : (q - inject_Z (Qfloor q) ?= 1 # 2)%Q = (q' - inject_Z (Qfloor q) ?= 1 # 2)%Q)
    by (apply Qcompare_comp; [apply Qplus_comp; [exact E |] |]; reflexivity).
  rewrite C. reflexivity.
Qed.

Lemma round_pos_compat (q q' : Q) :
  (q == q')%Q -> (0 < q)%Q -> (round_pos q == round_pos q')%Q.
Proof.
  intros E Hq. unfold round_pos. rewrite <- (ulp_exp_compat q q' E Hq).
  rewrite (rne_compat (q * 2 ^ (- ulp_exp q)) (q' * 2 ^ (- ulp_exp q))); [reflexivity |].
  apply Qmult_comp; [exact E | reflexivity].
Qed.

Lemma round64_of_neg (q : Q) : (q < 0)%Q -> round64 q = (- round_pos (- q))%Q.
Proof.
  intros Hq. unfold round64. destruct q as [[| n | n] d]; try discriminate Hq.
  reflexivity.
Qed.

Lemma round64_of_zero (q : Q) : (q == 0)%Q -> round64 q = 0%Q.
Proof.
  intros Hq. unfold round64. destruct q as [[| n | n] d]; try discriminate Hq.
  reflexivity.
Qed.

(** Rounding depends on the value of a rational, not on the fraction that
    denotes it. *)
Lemma round64_compat (q q' : Q) : (q == q')%Q -> (round64 q == round64 q')%Q.
Proof.
  intros E. destruct (Q_dec 0 q) as [[H | H] | H].
  - rewrite (round64_of_pos q H), (round64_of_pos q') by (rewrite <- E; exact H).
    apply round_pos_compat; assumption.
  - rewrite (round64_of_neg q H), (round64_of_neg q') by (rewrite <- E; exact H).
    apply Qopp_comp, round_pos_compat; [apply Qopp_comp, E | lra].
  - rewrite (round64_of_zero q), (round64_of_zero q'); [reflexivity | |].
    + rewrite <- E. symmetry. exact H.
    + symmetry. exact H.
Qed.

#[global] Instance round64_Proper : Proper (Qeq ==> Qeq) round64.
Proof. intros q q' E. apply round64_compat, E. Qed.

#[global] Instance Math_round_Proper : Proper (Qeq ==> eq) Math_round.
Proof.
  intros q q' E. unfold Math_round. apply Qfloor_comp, Qplus_comp; [exact E | reflexivity].
Qed.

#[global] Instance Math_floor_Proper : Proper (Qeq ==> eq) Math_floor.
Proof. intros q q' E. unfold Math_floor. apply Qfloor_comp, E. Qed.

End NumberCompat.

(** ** Errors, correct characters and the score *)

Lemma filter_all {A} (p : A -> Prop) `{!∀ x, Decision (p x)} (l : list A) :
  Forall p l -> filter p l = l.
Proof.
  induction 1 as [| x l Hx _ IH]; [reflexivity |].
  rewrite filter_cons_True by exact Hx. f_equal. exact IH.
Qed.

Lemma matching_plus_differing (a b : jsstring) :
  matchingPositions a b + differingPositions a b = min (length a) (length b).
Proof.
  unfold matchingPositions, differingPositions.
  rewrite <- length_app.
  rewrite (Permutation_length
             (filter_app_complement (fun i => a !! i = b !! i)
                (seq 0 (min (length a) (length b))))).
  apply length_seq.
Qed.

(** X5.  The loop of [handleInput] and the loop of [endTest] split the
    positions below both lengths: on the same typed text and passage, the
    errors and the correct characters add up to the shorter of the two
    lengths. *)
Theorem errors_plus_correct (typedText currentQuote : jsstring) :
  countErrors typedText currentQuote + countCorrect typedText currentQuote
  = min (length typedText) (length currentQuote).
Proof.
  rewrite countErrors_differingPositions, countCorrect_matchingPositions.
  rewrite Nat.add_comm. apply matching_plus_differing.
Qed.

Lemma prefix_positions (typedText passage : jsstring) :
  typedText `prefix_of` passage ->
  matchingPositions typedText passage = length typedText
  ∧ differingPositions typedText passage = 0.
Proof.
  intros [rest ->].
  assert (M : matchingPositions typedText (typedText ++ rest) = length typedText).
  { unfold matchingPositions. rewrite length_app, Nat.min_l by lia.
    rewrite filter_all; [apply length_seq |].
    apply Forall_forall. intros i Hi. apply elem_of_seq in Hi.
    symmetry. apply lookup_app_l. lia. }
  split; [exact M |].
  assert (H := matching_plus_differing typedText (typedText ++ rest)).
  rewrite length_app in H. lia.
Qed.

Lemma accuracy_in_Numbers_all (n : nat) : 0 < n -> accuracy_in_Numbers n n = 100%Z.
Proof.
  intros Hn. unfold accuracy_in_Numbers. destruct (decide (0 < n)) as [_ | N]; [| contradiction].
  assert (T : ¬ (Number.of_nat n == 0)%Q).
  { unfold Number.of_nat, Qeq. cbn [Qnum Qden inject_Z]. lia. }
  assert (D : (Number.div (Number.of_nat n) (Number.of_nat n) == 1)%Q).
  { unfold Number.div.
    rewrite (NumberCompat.round64_compat _ 1%Q); [reflexivity |].
    unfold Qdiv. apply Qmult_inv_r, T. }
  unfold Number.mul.
  rewrite (NumberCompat.Math_round_Proper _ 100%Q); [reflexivity |].
  rewrite (NumberCompat.round64_compat _ 100%Q); [reflexivity |].
  rewrite D. reflexivity.
Qed.

Lemma score_of_nothing (totalTypedChars : nat) (duration : Q) :
  wpm_in_Numbers 0 duration = 0%Z ∧ accuracy_in_Numbers 0 totalTypedChars = 0%Z.
Proof.
  unfold wpm_in_Numbers, accuracy_in_Numbers. split.
  - destruct (Qlt_le_dec 0 duration); reflexivity.
  - destruct (decide (0 < totalTypedChars)); reflexivity.
Qed.

(** X6.  A typed text without a mistake, that is a beginning of the
    passage, has no error and, unless it is empty, an accuracy of exactly
    100; a typed text with no correct character has an accuracy of 0 and 0
    words per minute, whatever the duration. *)
Theorem perfect_and_hopeless (now : Z) (st : State) :
  (textInput_value st `prefix_of` currentQuote st ->
   countErrors (textInput_value st) (currentQuote st) = 0
   ∧ (textInput_value st ≠ [] ->
      accuracy <$> resultDisplay (endTest now st) = Some 100%Z))
  ∧ (countCorrect (textInput_value st) (currentQuote st) = 0 ->
     accuracy <$> resultDisplay (endTest now st) = Some 0%Z
     ∧ wpm <$> resultDisplay (endTest now st) = Some 0%Z).
Proof.
  rewrite endTest_shows. cbn [fmap option_fmap option_map accuracy wpm]. split.
  - intros Hp. destruct (prefix_positions _ _ Hp) as [M D].
    rewrite countErrors_differingPositions. split; [exact D |].
    intros Hne. rewrite M. f_equal. apply accuracy_in_Numbers_all.
    destruct (textInput_value st); [contradiction | cbn; lia].
  - rewrite countCorrect_matchingPositions. intros ->.
    destruct (score_of_nothing (length (textInput_value st)) (durationSeconds now st))
      as [-> ->].
    split; reflexivity.
Qed.

(** ** The timer *)

Lemma idle_step (Math_random : nat -> Q) (st : State) (ev : Event) :
  idle st -> timerOrTyping ev ->
  idle (step Math_random st ev)
  ∧ resultDisplay (step Math_random st ev) = resultDisplay st
  ∧ errors (step Math_random st ev) = errors st.
Proof.
  intros [Hact Hint] Hev.
  destruct ev as [| | now | now e | now k |]; try contradiction; cbn [step].
  - unfold tick. rewrite Hint. repeat split; assumption.
  - unfold dispatchInput, handleInput. cbn [isTestActive set_textInput_value].
    rewrite Hact. cbn [negb]. repeat split; assumption.
  - unfold dispatchKeyPress. destruct (keydownListener _ _); [repeat split; assumption |].
    destruct (defaultEdit k) as [e |]; [| repeat split; assumption].
    unfold dispatchInput, handleInput. cbn [isTestActive set_textInput_value].
    rewrite Hact. cbn [negb]. repeat split; assumption.
Qed.

Lemma idle_run (Math_random : nat -> Q) (evs : list Event) (st : State) :
  idle st -> Forall timerOrTyping evs ->
  idle (run Math_random st evs)
  ∧ resultDisplay (run Math_random st evs) = resultDisplay st
  ∧ errors (run Math_random st evs) = errors st.
Proof.
  intros Hst Hevs. revert st Hst. unfold run.
  induction Hevs as [| ev evs Hev _ IH]; intros st Hst; cbn [foldl].
  - repeat split; apply Hst.
  - destruct (idle_step Math_random st ev Hst Hev) as (H1 & H2 & H3).
    destruct (IH _ H1) as (I1 & I2 & I3). rewrite I2, I3. repeat split; assumption || apply I1.
Qed.

Lemma idle_endTest (now : Z) (st : State) : idle (endTest now st).
Proof. split; reflexivity. Qed.

(** X7.  Once a test has ended, by the timer, by completion or by the stop
    button, no later timer tick, edit or key press runs a finalization
    again: the page stays without test and without interval, and the result
    and the error count shown stay as they are. *)
Theorem ended_test_stays_ended (Math_random : nat -> Q) (now : Z) (st : State)
    (evs : list Event) :
  Forall timerOrTyping evs ->
  let ended := endTest now st in
  idle (run Math_random ended evs)
  ∧ resultDisplay (run Math_random ended evs) = resultDisplay ended
  ∧ errors (run Math_random ended evs) = errors st.
Proof.
  intros Hevs ended.
  destruct (idle_run Math_random evs ended (idle_endTest now st) Hevs) as (H1 & H2 & H3).
  repeat split; assumption || apply H1.
Qed.

Lemma ended_test_stays_ended_witness :
  let st := run quarters loadedPage
              (sessionIn "normal" ++ [Input 2000 (typed "insertText" "The quikc")]) in
  let evs := [Tick 14000; Input 14500 (typed "insertText" "The quick");
              Key 15000 {| pressedKey := "x"; defaultEdit := Some (typed "insertText" "y") |}] in
  idle (run quarters (endTest 13000 st) evs)
  ∧ resultDisplay (run quarters (endTest 13000 st) evs) = resultDisplay (endTest 13000 st)
  ∧ errors (run quarters (endTest 13000 st) evs) = errors st.
Proof.
  apply (ended_test_stays_ended quarters 13000
           (run quarters loadedPage
              (sessionIn "normal" ++ [Input 2000 (typed "insertText" "The quikc")]))).
  repeat constructor.
Defined.

Lemma ticksOf_cons (ev : Event) (evs : list Event) :
  ticksOf (ev :: evs) = (if isTick ev then 1 else 0) + ticksOf evs.
Proof.
  unfold ticksOf. rewrite filter_cons.
  destruct (decide (isTick ev = true)) as [E | E]; destruct (isTick ev);
    try congruence; reflexivity.
Qed.

(** One event of a running timed test: the test has ended, or it runs on,
    with one second less after a tick, which then was not the last second. *)
Lemma timed_step (Math_random : nat -> Q) (st : State) (ev : Event) :
  timedRunning st -> timerOrTyping ev ->
  idle (step Math_random st ev)
  ∨ (timedRunning (step Math_random st ev)
     ∧ timeLeft (step Math_random st ev)
       = (timeLeft st - (if isTick ev then 1 else 0))%Z
     ∧ (isTick ev = true -> (1 < timeLeft st)%Z)).
Proof.
  intros [Hact Hint] Hev.
  assert (Hin : ∀ now e st0,
            isTestActive st0 = true -> intervalId st0 = Some UpdateTimerInterval ->
            idle (handleInput now e st0)
            ∨ (timedRunning (handleInput now e st0)
               ∧ timeLeft (handleInput now e st0) = timeLeft st0)).
  { intros now e st0 H1 H2. unfold handleInput. rewrite H1. cbn [negb].
    destruct (_ && _); [right; repeat split; assumption |].
    destruct (_ && _); [left; apply idle_endTest | right; repeat split; assumption]. }
  destruct ev as [| | now | now e | now k |]; try contradiction; cbn [step isTick].
  - unfold tick. rewrite Hint. unfold updateTimer.
    destruct (decide (timeLeft st - 1 <= 0)%Z) as [L | L].
    + left. apply idle_endTest.
    + right. unfold timedRunning. cbn. repeat split; try assumption; lia.
  - unfold dispatchInput.
    destruct (Hin now (inputType e) (set_textInput_value (value e) st) Hact Hint)
      as [H | [H1 H2]]; [left; exact H | right].
    split; [exact H1 |]. rewrite H2. cbn. split; [lia | discriminate].
  - unfold dispatchKeyPress.
    destruct (keydownListener _ _);
      [right; split; [split; assumption | split; [lia | discriminate]] |].
    destruct (defaultEdit k) as [e |];
      [| right; split; [split; assumption | split; [lia | discriminate]]].
    unfold dispatchInput.
    destruct (Hin now (inputType e) (set_textInput_value (value e) st) Hact Hint)
      as [H | [H1 H2]]; [left; exact H | right].
    split; [exact H1 |]. rewrite H2. cbn. split; [lia | discriminate].
Qed.

Lemma timed_run (Math_random : nat -> Q) (evs : list Event) (st : State) :
  timedRunning st -> Forall timerOrTyping evs ->
  idle (run Math_random st evs)
  ∨ (timedRunning (run Math_random st evs)
     ∧ timeLeft (run Math_random st evs) = (timeLeft st - Z.of_nat (ticksOf evs))%Z
     ∧ (0 < ticksOf evs -> (Z.of_nat (ticksOf evs) < timeLeft st)%Z)).
Proof.
  intros Hst Hevs. revert st Hst.
  induction Hevs as [| ev evs Hev Hevs IH]; intros st Hst.
  - right. cbn. split; [exact Hst |]. split; [lia | intros H; inversion H].
  - change (run Math_random st (ev :: evs))
      with (run Math_random (step Math_random st ev) evs).
    rewrite ticksOf_cons.
    destruct (timed_step Math_random st ev Hst Hev) as [Hidle | (H1 & H2 & H3)].
    + left. apply idle_run; assumption.
    + destruct (IH _ H1) as [Hidle | (I1 & I2 & I3)]; [left; exact Hidle | right].
      split; [exact I1 |]. rewrite I2, H2.
      destruct (isTick ev).
      * specialize (H3 eq_refl). split; [lia |]. intros _.
        destruct (ticksOf evs) as [| n] eqn:En; [lia |].
        specialize (I3 ltac:(lia)). lia.
      * split; [lia |]. intros Hpos. specialize (I3 ltac:(lia)). lia.
Qed.

(** Ticks alone do not end a timed test before its time is up. *)
Lemma ticks_run (Math_random : nat -> Q) (nows : list Z) (st : State) :
  timedRunning st -> (Z.of_nat (length nows) < timeLeft st)%Z ->
  let st' := run Math_random st (map Tick nows) in
  timedRunning st'
  ∧ timeLeft st' = (timeLeft st - Z.of_nat (length nows))%Z
  ∧ (nows ≠ [] -> timerDisplay st' = timeLeft st').
Proof.
  revert st. induction nows as [| now nows IH] using rev_ind; intros st Hst Hlen.
  - cbn. split; [exact Hst |]. split; [lia | congruence].
  - rewrite length_app in Hlen. cbn [length] in Hlen.
    destruct (IH st Hst ltac:(lia)) as ([Hact Hint] & Hleft & _).
    cbn zeta. rewrite map_app. unfold run in *. rewrite foldl_app. cbn [map foldl step].
    set (st1 := foldl (step Math_random) st (map Tick nows)) in *.
    unfold tick. rewrite Hint. unfold updateTimer.
    destruct (decide (timeLeft st1 - 1 <= 0)%Z) as [L | L]; [lia |].
    unfold timedRunning. cbn. rewrite length_app. cbn [length].
    repeat split; try assumption; lia.
Qed.

(** A fetch cycle changes the cache and the two counters, nothing else. *)
Lemma fetchAndCacheQuotes_frame (Math_random : nat -> Q) (net : Network) (st : State) :
  ∃ cache fetches calls,
    fetchAndCacheQuotes Math_random net st
    = set_cachedQuotes cache (set_randomCalls calls (set_fetchCount fetches st)).
Proof.
  unfold fetchAndCacheQuotes. destruct (decide _).
  - exists (cachedQuotes st), (fetchCount st), (randomCalls st). destruct st; reflexivity.
  - destruct (batch net) as [| | [[| doc docs] |]]; try (do 3 eexists; reflexivity).
    destruct (decide _); do 3 eexists; reflexivity.
Qed.

Lemma fetchAndCacheQuotes_settings (Math_random : nat -> Q) (net : Network) (st : State) :
  selectedMode (fetchAndCacheQuotes Math_random net st) = selectedMode st
  ∧ selectedTimer (fetchAndCacheQuotes Math_random net st) = selectedTimer st
  ∧ isTestActive (fetchAndCacheQuotes Math_random net st) = isTestActive st.
Proof.
  destruct (fetchAndCacheQuotes_frame Math_random net st) as (c & f & r & ->).
  repeat split; reflexivity.
Qed.

Lemma startTest_timed (Math_random : nat -> Q) (now : Z) (st : State) :
  selectedMode st ≠ "story"%string ->
  timedRunning (startTest Math_random now st)
  ∧ timeLeft (startTest Math_random now st) = selectedTimer st
  ∧ timerDisplay (startTest Math_random now st) = selectedTimer st.
Proof.
  intros Hmode. apply String.eqb_neq in Hmode.
  unfold timedRunning, startTest. cbn [isTestActive intervalId timeLeft timerDisplay].
  rewrite selectedMode_getNewQuote, Hmode.
  assert (E : selectedTimer (getNewQuote Math_random st) = selectedTimer st)
    by (unfold getNewQuote; destruct (decide _); reflexivity).
  rewrite E. repeat split; reflexivity.
Qed.

(** X8.  In every mode but the story mode, a test started from the start
    button with a level has as many seconds as the level says (60 for easy,
    45 for medium, 30 for anything else).  Timer ticks alone keep it running
    until that many ticks have come, with the time left shown going down by
    one at each tick; and whatever is typed in between, the test has ended
    when that many ticks have come. *)
Theorem timed_test_times_out (Math_random : nat -> Q) (level mode : string)
    (net : Network) (now : Z) (st : State) :
  mode ≠ "story"%string ->
  let started := startTest Math_random now (startClick Math_random level mode net st) in
  timeLeft started = secondsOf level
  ∧ timerDisplay started = secondsOf level
  ∧ (∀ nows, (Z.of_nat (length nows) < secondsOf level)%Z ->
       let st' := run Math_random started (map Tick nows) in
       running st'
       ∧ timeLeft st' = (secondsOf level - Z.of_nat (length nows))%Z
       ∧ timerDisplay st' = timeLeft st')
  ∧ (∀ evs, Forall timerOrTyping evs -> (secondsOf level <= Z.of_nat (ticksOf evs))%Z ->
       idle (run Math_random started evs)).
Proof.
  intros Hmode started.
  assert (Hsel : selectedMode (startClick Math_random level mode net st) = mode
                 ∧ selectedTimer (startClick Math_random level mode net st)
                   = secondsOf level).
  { unfold startClick, startCountdown. cbn [quotesReadyPromise].
    destruct (quotesReadyPromise st); [split; reflexivity |].
    match goal with
    | |- context [fetchAndCacheQuotes _ _ ?page] =>
        destruct (fetchAndCacheQuotes_frame Math_random net page) as (c & f & r & ->)
    end.
    split; reflexivity. }
  destruct Hsel as [Hsel1 Hsel2].
  destruct (startTest_timed Math_random now
              (startClick Math_random level mode net st)) as (Ht & Hl & Hd);
    [rewrite Hsel1; exact Hmode |].
  fold started in Ht, Hl, Hd. rewrite Hsel2 in Hl, Hd.
  assert (Hpos : (0 < secondsOf level)%Z).
  { unfold secondsOf. destruct (String.eqb level "easy"); [lia |].
    destruct (String.eqb level "medium"); lia. }
  split; [exact Hl |]. split; [exact Hd |]. split.
  - intros nows Hlen.
    destruct (ticks_run Math_random nows started Ht) as (H1 & H2 & H3);
      [rewrite Hl; exact Hlen |].
    cbn zeta. rewrite Hl in H2. split; [apply H1 |]. split; [exact H2 |].
    destruct nows as [| n0 nows0]; [| apply H3; discriminate].
    change (timerDisplay started = timeLeft started). rewrite Hd, Hl. reflexivity.
  - intros evs Hevs Hticks.
    destruct (timed_run Math_random evs started Ht Hevs) as [H | (_ & _ & H)];
      [exact H | exfalso].
    rewrite Hl in H. specialize (H ltac:(lia)). lia.
Qed.

Lemma timed_test_times_out_witness :
  let started := startTest quarters 1000 (startClick quarters "hard" "normal" offline loadedPage) in
  timeLeft started = 30%Z
  ∧ running (run quarters started (map Tick (replicate 29 2000%Z)))
  ∧ idle (run quarters started
            (Input 1500 (typed "insertText" "The") :: map Tick (replicate 30 2000%Z))).
Proof.
  destruct (timed_test_times_out quarters "hard" "normal" offline 1000 loadedPage)
    as (H1 & _ & H3 & H4); [discriminate |].
  cbn zeta. split; [exact H1 |]. split.
  - apply (H3 (replicate 29 2000%Z)). vm_compute. reflexivity.
  - apply H4; [repeat constructor | vm_compute; discriminate].
Defined.

(** ** The passage of a test *)

Lemma fetchAndCacheQuotes_keeps_clean (Math_random : nat -> Q) (net : Network) (st : State) :
  unitInterval Math_random ->
  (∀ docs, batch net = BatchJson (Some docs) -> arrayLength (length docs)) ->
  Forall cleanPassage (cachedQuotes st) ->
  Forall cleanPassage (cachedQuotes (fetchAndCacheQuotes Math_random net st)).
Proof.
  intros Hrand Hdocs Hst. destruct (cachedQuotes st) as [| q qs] eqn:E.
  - destruct (fetchAndCacheQuotes_empty Math_random net st E) as [-> _].
    destruct (batch net) as [| | [[| doc docs] |]] eqn:Eb;
      try (apply Forall_singleton, fallback_clean; vm_compute; reflexivity).
    destruct (decide _) as [L | _];
      [| apply Forall_singleton, fallback_clean; vm_compute; reflexivity].
    apply Forall_take. rewrite (shuffleArray_Permutation Math_random Hrand).
    + apply potentialQuotes_clean.
    + specialize (Hdocs _ eq_refl).
      assert (H := length_potentialQuotes net (doc :: docs)).
      unfold arrayLength in *. lia.
  - rewrite fetchAndCacheQuotes_cached; rewrite E; [exact Hst | cbn [length]; lia].
Qed.

(** Once the promise is set, no event touches the cache. *)
Lemma step_keeps_cache (Math_random : nat -> Q) (st : State) (ev : Event) :
  quotesReadyPromise st = true ->
  quotesReadyPromise (step Math_random st ev) = true
  ∧ cachedQuotes (step Math_random st ev) = cachedQuotes st.
Proof.
  intros H. destruct ev as [level mode net | now | now | now e | now k | now]; cbn [step].
  - unfold startClick. cbn [quotesReadyPromise]. rewrite H. split; reflexivity.
  - unfold startTest, getNewQuote. destruct (decide _); kept H.
  - unfold tick, updateTimer, storyClock.
    destruct (intervalId st) as [[|] |]; [destruct (decide _) | |]; kept H.
  - through_handleInput H.
  - unfold dispatchKeyPress. destruct (keydownListener _ _); [kept H |].
    destruct (defaultEdit k) as [e |]; [| kept H].
    through_handleInput H.
  - kept H.
Qed.

Lemma run_keeps_cache (Math_random : nat -> Q) (evs : list Event) (st : State) :
  quotesReadyPromise st = true ->
  cachedQuotes (run Math_random st evs) = cachedQuotes st.
Proof.
  revert st. unfold run. induction evs as [| ev evs IH]; intros st H; cbn [foldl].
  - reflexivity.
  - destruct (step_keeps_cache Math_random st ev H) as [H1 H2]. rewrite IH; assumption.
Qed.

(** With passages in the cache, [getNewQuote] takes one of them. *)
Lemma getNewQuote_cached (Math_random : nat -> Q) (st : State) :
  unitInterval Math_random ->
  0 < length (cachedQuotes st) -> arrayLength (length (cachedQuotes st)) ->
  currentQuote (getNewQuote Math_random st) ∈ cachedQuotes st.
Proof.
  intros Hrand Hpos Hlen. unfold getNewQuote.
  destruct (decide (0 < length (cachedQuotes st))) as [_ | N]; [| contradiction].
  cbn [currentQuote set_currentQuote]. unfold array_get.
  assert (Hi := randomIndex_lt Math_random Hrand (randomCalls st) _ Hpos Hlen).
  destruct (lookup_lt_is_Some_2 (cachedQuotes st) _ Hi) as [q Eq].
  rewrite Eq. cbn. apply (list_elem_of_lookup_2 _ _ _ Eq).
Qed.

(** X9.  The cache is filled when the page loads and no event changes it
    afterwards: it stays what the first fetch cycle left, between 1 and 20
    passages.  Every test started on the page takes its passage from this
    cache, never the sentence of [getNewQuote] for an empty cache, and the
    passage has more than 100 characters, no line break and no run of
    spaces. *)
Theorem passage_from_cache (Math_random : nat -> Q) (net : Network)
    (evs : list Event) (now : Z) :
  unitInterval Math_random ->
  (∀ docs, batch net = BatchJson (Some docs) -> arrayLength (length docs)) ->
  let page := pageLoad Math_random net initialState in
  let st := run Math_random page evs in
  cachedQuotes st = cachedQuotes page
  ∧ 0 < length (cachedQuotes st) ≤ MAX_CACHED_QUOTES
  ∧ currentQuote (startTest Math_random now st) ∈ cachedQuotes page
  ∧ cleanPassage (currentQuote (startTest Math_random now st))
  ∧ currentQuote (startTest Math_random now st) ≠ fallbackEmptyCache.
Proof.
  intros Hrand Hdocs page st.
  assert (Hkeep : cachedQuotes st = cachedQuotes page)
    by (apply run_keeps_cache; reflexivity).
  assert (Hpage : cachedQuotes page
                  = cachedQuotes (fetchAndCacheQuotes Math_random net initialState))
    by reflexivity.
  assert (Hpos : 0 < length (cachedQuotes page))
    by (rewrite Hpage; apply fetchAndCacheQuotes_filled).
  assert (Hcap : length (cachedQuotes page) ≤ MAX_CACHED_QUOTES)
    by (rewrite Hpage; apply fetchAndCacheQuotes_capacity; reflexivity).
  assert (Hclean : Forall cleanPassage (cachedQuotes page)).
  { rewrite Hpage. apply fetchAndCacheQuotes_keeps_clean; [assumption | assumption |].
    apply Forall_nil_2. }
  assert (Hin : currentQuote (startTest Math_random now st) ∈ cachedQuotes page).
  { change (currentQuote (startTest Math_random now st))
      with (currentQuote (getNewQuote Math_random st)).
    rewrite <- Hkeep. apply getNewQuote_cached; [exact Hrand | | ]; rewrite Hkeep.
    - exact Hpos.
    - unfold arrayLength, MAX_CACHED_QUOTES in *. lia. }
  assert (Hc : cleanPassage (currentQuote (startTest Math_random now st)))
    by (apply (proj1 (Forall_forall _ _) Hclean), Hin).
  split; [exact Hkeep |]. split; [rewrite Hkeep; split; assumption |].
  split; [exact Hin |]. split; [exact Hc |].
  intros E. rewrite E in Hc. destruct Hc as [L _]. vm_compute in L. lia.
Qed.

Lemma passage_from_cache_witness :
  let page := pageLoad quarters library initialState in
  let st := run quarters page (sessionIn "normal" ++ [StopClick 9000]) in
  cachedQuotes st = cachedQuotes page
  ∧ 0 < length (cachedQuotes st) ≤ MAX_CACHED_QUOTES
  ∧ currentQuote (startTest quarters 20000 st) ∈ cachedQuotes page
  ∧ cleanPassage (currentQuote (startTest quarters 20000 st))
  ∧ currentQuote (startTest quarters 20000 st) ≠ fallbackEmptyCache.
Proof.
  apply (passage_from_cache quarters library (sessionIn "normal" ++ [StopClick 9000]) 20000).
  - exact quarters_unit.
  - exact library_docs_bounded.
Defined.

(** ** The candidates of a fetch cycle *)

Lemma potentialQuotesOf_app (net : Network) (docs1 docs2 : list Doc) :
  potentialQuotesOf net (docs1 ++ docs2)
  = potentialQuotesOf net docs1 ++ potentialQuotesOf net docs2.
Proof.
  unfold potentialQuotesOf. induction docs1 as [| doc docs1 IH]; [reflexivity |].
  cbn [app omap list_omap]. fold (omap (detailPromise net) (docs1 ++ docs2)).
  fold (omap (detailPromise net) docs1).
  destruct (detailPromise net doc); rewrite IH; reflexivity.
Qed.

(** X10.  A failure for one document is confined to it: a document without
    key, or whose details request is rejected, answered with an error
    status or with a malformed body, or whose cleaned text has at most 100
    characters, gives no candidate and leaves the candidates of the other
    documents, and their order, as they are. *)
Theorem failed_document_is_dropped (net : Network) (docs1 docs2 : list Doc) (doc : Doc) :
  (key doc = None ∨ key doc = Some []
   ∨ (∃ k, key doc = Some k
           ∧ (details net k = DetailsFetchRejected ∨ details net k = DetailsNotOk
              ∨ details net k = DetailsMalformed
              ∨ ∃ detailsData textContent,
                  details net k = DetailsJson detailsData
                  ∧ textContentOf detailsData = Some textContent
                  ∧ length (cleanText textContent) ≤ 100))) ->
  potentialQuotesOf net (docs1 ++ doc :: docs2)
  = potentialQuotesOf net docs1 ++ potentialQuotesOf net docs2.
Proof.
  intros H.
  assert (N : detailPromise net doc = None).
  { unfold detailPromise.
    destruct H as [-> | [-> | (k & -> & H)]]; [reflexivity | reflexivity |].
    destruct k as [| k0 k]; [reflexivity |].
    destruct H as [-> | [-> | [-> | (d & t & -> & -> & L)]]]; try reflexivity.
    destruct t as [| t0 t]; [reflexivity |].
    destruct (decide _) as [L' | _]; [lia | reflexivity]. }
  rewrite potentialQuotesOf_app. f_equal.
  change (doc :: docs2) with ([doc] ++ docs2). rewrite potentialQuotesOf_app.
  unfold potentialQuotesOf at 1. cbn [omap list_omap]. rewrite N. reflexivity.
Qed.

Lemma failed_document_is_dropped_witness :
  potentialQuotesOf library
    ([ {| key := Some (lit "/works/1") |} ] ++ {| key := Some (lit "/works/4") |}
       :: [ {| key := Some (lit "/works/3") |} ])
  = potentialQuotesOf library [ {| key := Some (lit "/works/1") |} ]
    ++ potentialQuotesOf library [ {| key := Some (lit "/works/3") |} ].
Proof.
  apply failed_document_is_dropped.
  right. right. exists (lit "/works/4"). split; [reflexivity |].
  right. right. right. eexists. exists (lit "Too short.").
  split; [reflexivity |]. split; [reflexivity |]. vm_compute. lia.
Defined.

(** ** Completion *)

(** X11.  When an edit completes the passage in a mode other than the story
    mode, the result is computed from that very text: the errors shown are
    the positions below the length of the passage at which the text differs
    from it, the correct characters are all the others of the passage, and
    afterwards the text area and the passage are empty and no test runs. *)
Theorem completion_result (now : Z) (e : InputEvent) (st : State) :
  running st -> selectedMode st ≠ "story"%string -> scored e st ->
  length (currentQuote st) ≤ length (value e) ->
  let mistakes := differingPositions (value e) (currentQuote st) in
  let correctChars := length (currentQuote st) - mistakes in
  let st' := dispatchInput now e st in
  resultDisplay st'
  = Some {| wpm := wpm_in_Numbers correctChars (durationSeconds now st);
            accuracy := accuracy_in_Numbers correctChars (length (value e));
            shownErrors := mistakes |}
  ∧ mistakes ≤ length (currentQuote st)
  ∧ textInput_value st' = [] ∧ currentQuote st' = [] ∧ idle st'.
Proof.
  intros Hrun Hmode Hsc Hlen mistakes correctChars st'.
  assert (E : st' = endTest now
                (set_intervalId None
                   {| currentQuote := currentQuote st; timeLeft := timeLeft st;
                      intervalId := intervalId st; startTime := startTime st;
                      charIndex := length (value e);
                      errors := countErrors (value e) (currentQuote st);
                      isTestActive := isTestActive st; selectedMode := selectedMode st;
                      selectedTimer := selectedTimer st; cachedQuotes := cachedQuotes st;
                      quotesReadyPromise := quotesReadyPromise st;
                      textInput_value := value e; timerDisplay := timerDisplay st;
                      resultDisplay := resultDisplay st; fetchCount := fetchCount st;
                      randomCalls := randomCalls st |})).
  { subst st'. unfold dispatchInput, handleInput.
    cbn [isTestActive selectedMode set_textInput_value textInput_value currentQuote].
    rewrite Hrun. cbn [negb]. rewrite (eqb_false_of_scored e st Hsc).
    apply String.eqb_neq in Hmode. rewrite Hmode.
    rewrite (bool_decide_eq_true_2 _ Hlen). reflexivity. }
  assert (M := matching_plus_differing (value e) (currentQuote st)).
  rewrite Nat.min_r in M by exact Hlen.
  split; [| split; [fold mistakes in M; lia | rewrite E; repeat split; reflexivity]].
  rewrite E, endTest_shows.
  cbn [textInput_value currentQuote set_intervalId errors].
  rewrite countErrors_differingPositions. fold mistakes.
  replace (matchingPositions (value e) (currentQuote st)) with correctChars
    by (subst correctChars; fold mistakes in M; lia).
  reflexivity.
Qed.

Lemma completion_result_witness :
  let st := run quarters (set_cachedQuotes [lit "The cat sat."] initialState)
              [CountdownOver 1000] in
  let e := typed "insertText" "The cat sat!?" in
  resultDisplay (dispatchInput 13000 e st)
  = Some {| wpm := 11; accuracy := 85; shownErrors := 1 |}
  ∧ idle (dispatchInput 13000 e st).
Proof.
  destruct (completion_result 13000 (typed "insertText" "The cat sat!?")
              (run quarters (set_cachedQuotes [lit "The cat sat."] initialState)
                 [CountdownOver 1000])) as (H1 & _ & _ & _ & H5).
  - reflexivity.
  - vm_compute. discriminate.
  - intros [H _]. vm_compute in H. discriminate H.
  - vm_compute. lia.
  - cbn zeta. split; [| exact H5]. rewrite H1. vm_compute. reflexivity.
Defined.

(** ** The highlighted quote *)

Lemma countClass_fmap {A} (k : CharClass) (g : A -> CharClass) (l : list A) :
  length (filter (fun k' => k' = k) (g <$> l)) = length (filter (fun x => g x = k) l).
Proof.
  induction l as [| x l IH]; [reflexivity |].
  rewrite fmap_cons, !filter_cons. destruct (decide (g x = k)); cbn [length]; rewrite IH;
    reflexivity.
Qed.

Lemma length_filter_seq_eq (t n : nat) :
  length (filter (fun i => i = t) (seq 0 n)) = if decide (t < n) then 1 else 0.
Proof.
  induction n as [| n IH]; [destruct (decide (t < 0)); [lia | reflexivity] |].
  rewrite seq_S, filter_app, length_app, IH. cbn [Nat.add].
  rewrite filter_cons, filter_nil.
  destruct (decide (n = t)), (decide (t < n)), (decide (t < S n)); cbn [length]; lia.
Qed.

(** For a span of the passage, removing the class [current] when the whole
    passage is typed changes nothing: no span has it then. *)
Lemma updateQuoteDisplay_spans (st : State) :
  updateQuoteDisplay st
  = imap (fun i c => (c, classOf (textInput_value st) (currentQuote st) i))
      (currentQuote st).
Proof.
  unfold updateQuoteDisplay.
  destruct (bool_decide (length (currentQuote st) ≤ length (textInput_value st))
            && negb (String.eqb (selectedMode st) "story")) eqn:E; [| reflexivity].
  apply andb_true_iff in E as [E _]. apply bool_decide_eq_true in E.
  apply list_eq. intros i. rewrite list_lookup_fmap, !list_lookup_imap.
  destruct (lookup (M:=list char) i (currentQuote st)) as [c |] eqn:Ec; [| reflexivity].
  apply lookup_lt_Some in Ec. cbn. unfold classOf.
  destruct (decide (i < length (textInput_value st))) as [_ | N]; [| lia].
  destruct (decide _); reflexivity.
Qed.

Lemma updateQuoteDisplay_classOf (st : State) :
  snd <$> updateQuoteDisplay st
  = classOf (textInput_value st) (currentQuote st) <$> seq 0 (length (currentQuote st)).
Proof.
  rewrite updateQuoteDisplay_spans, fmap_imap, <- imap_seq_0.
  apply imap_ext. reflexivity.
Qed.

Lemma countClass_updateQuoteDisplay (k : CharClass) (st : State) :
  countClass k (updateQuoteDisplay st)
  = length (filter (fun i => classOf (textInput_value st) (currentQuote st) i = k)
              (seq 0 (length (currentQuote st)))).
Proof.
  unfold countClass.
  rewrite <- (countClass_fmap k snd), updateQuoteDisplay_classOf.
  apply countClass_fmap.
Qed.

(** X12.  The highlighting agrees with the scoring.  [updateQuoteDisplay]
    shows the passage, one span for each character; the spans marked
    incorrect are as many as the errors that [handleInput] counts and those
    marked correct as many as the correct characters that [endTest] counts;
    exactly one span, the one after the typed text, is marked current while
    the typed text is shorter than the passage, and none otherwise, in
    every mode. *)
Theorem updateQuoteDisplay_agrees (st : State) :
  let typedText := textInput_value st in
  let spans := updateQuoteDisplay st in
  fst <$> spans = currentQuote st
  ∧ countClass Incorrect spans = countErrors typedText (currentQuote st)
  ∧ countClass Correct spans = countCorrect typedText (currentQuote st)
  ∧ countClass Current spans
    = (if decide (length typedText < length (currentQuote st)) then 1 else 0)
  ∧ (∀ i c, spans !! i = Some (c, Current) -> i = length typedText).
Proof.
  cbn zeta. split; [| split; [| split; [| split]]].
  - rewrite updateQuoteDisplay_spans. apply list_eq. intros i.
    rewrite list_lookup_fmap, list_lookup_imap.
    destruct (lookup (M:=list char) i (currentQuote st)); reflexivity.
  - rewrite countClass_updateQuoteDisplay, countErrors_differingPositions.
    unfold differingPositions. rewrite Nat.min_comm.
    rewrite <- (filter_guarded (fun i => textInput_value st !! i ≠ currentQuote st !! i)).
    f_equal. apply filter_agree, Forall_forall. intros i _. unfold classOf.
    destruct (decide (i < _)); [destruct (decide (_ = _)) | destruct (decide (i = _))];
      split; intros H; try discriminate H; try tauto; destruct H; congruence || lia.
  - rewrite countClass_updateQuoteDisplay, countCorrect_matchingPositions.
    unfold matchingPositions. rewrite Nat.min_comm.
    rewrite <- (filter_guarded (fun i => textInput_value st !! i = currentQuote st !! i)).
    f_equal. apply filter_agree, Forall_forall. intros i _. unfold classOf.
    destruct (decide (i < _)); [destruct (decide (_ = _)) | destruct (decide (i = _))];
      split; intros H; try discriminate H; try tauto; destruct H; congruence || lia.
  - rewrite countClass_updateQuoteDisplay, <- length_filter_seq_eq.
    f_equal. apply filter_agree, Forall_forall. intros i _. unfold classOf.
    destruct (decide (i < _)); [destruct (decide (_ = _)) | destruct (decide (i = _))];
      split; intros H; try discriminate H; try tauto; lia.
  - intros i c H. rewrite updateQuoteDisplay_spans, list_lookup_imap in H.
    destruct (lookup (M:=list char) i (currentQuote st)); [| discriminate H]. cbn in H.
    injection H as _ H. unfold classOf in H.
    destruct (decide (i < _)); [destruct (decide (_ = _)); discriminate H |].
    destruct (decide (i = _)); [assumption | discriminate H].
Qed.

(** ** The quote area *)

(** X13.  The quote area of a page without running test shows the loading
    message exactly when the cache is empty.  A fetch cycle on such a page
    always ends with the prompt to start, whatever the source answers; and
    on a page that has loaded, the end of a test always brings the prompt
    back. *)
Theorem displayQuote_prompt (Math_random : nat -> Q) (net : Network) (st : State) :
  (displayQuote st = LoadingQuotes ↔ isTestActive st = false ∧ cachedQuotes st = [])
  ∧ (isTestActive st = false -> cachedQuotes st = [] ->
     displayQuote (fetchAndCacheQuotes Math_random net st) = ClickStart)
  ∧ (∀ evs now,
       displayQuote
         (endTest now (run Math_random (pageLoad Math_random net initialState) evs))
       = ClickStart).
Proof.
  split; [| split].
  - unfold displayQuote. destruct (isTestActive st); cbn [negb andb].
    + split; [discriminate | intros [H _]; discriminate H].
    + destruct (cachedQuotes st) as [| q qs]; cbn.
      * split; [intros _; split; reflexivity | reflexivity].
      * split; [discriminate | intros [_ H]; discriminate H].
  - intros Hact _. unfold displayQuote.
    destruct (fetchAndCacheQuotes_settings Math_random net st) as (_ & _ & ->).
    rewrite Hact. cbn [negb andb].
    assert (H := fetchAndCacheQuotes_filled Math_random net st).
    rewrite bool_decide_eq_false_2 by lia. reflexivity.
  - intros evs now. unfold displayQuote. cbn [isTestActive endTest negb andb cachedQuotes].
    rewrite run_keeps_cache by reflexivity.
    assert (H := fetchAndCacheQuotes_filled Math_random net initialState).
    change (cachedQuotes (pageLoad Math_random net initialState))
      with (cachedQuotes (fetchAndCacheQuotes Math_random net initialState)).
    rewrite bool_decide_eq_false_2 by lia. reflexivity.
Qed.

Lemma displayQuote_prompt_witness :
  displayQuote (fetchAndCacheQuotes quarters keyless initialState) = ClickStart
  ∧ displayQuote initialState = LoadingQuotes.
Proof.
  destruct (displayQuote_prompt quarters keyless initialState) as (H1 & H2 & _).
  split; [apply H2; reflexivity | apply H1; split; reflexivity].
Defined.

(** ** Whole numbers and whole seconds *)
Module NumberExact.
Import Number NumberFacts.
Local Open Scope Z_scope.

Lemma round_pos_ge_int (q : Q) (N : Z) :
  (0 < q)%Q -> (inject_Z N <= q)%Q -> N < 2 ^ prec -> (inject_Z N <= round_pos q)%Q.
Proof.
  intros Hq HN Hb. destruct (ulp_exp_spec q Hq) as [Hlo _].
  unfold round_pos. set (e := ulp_exp q) in *.
  assert (P := pow2_pos e). assert (P' := pow2_pos (- e)).
  destruct (Z.le_gt_cases e 0) as [He | He].
  - assert (S : (inject_Z (N * 2 ^ (- e)) <= q * 2 ^ (- e))%Q).
    { rewrite inject_Z_mult, <- pow2_inject by lia. apply Qmult_le_compat_r; lra. }
    apply rne_ge in S. rewrite Zle_Qle in S.
    rewrite inject_Z_mult, <- pow2_inject in S by lia.
    rewrite <- (pow2_scale_back (inject_Z N) e). apply Qmult_le_compat_r; lra.
  - assert (S : (inject_Z (2 ^ (prec - 1)) <= q * 2 ^ (- e))%Q)
      by (rewrite <- pow2_inject by (unfold prec; lia); exact Hlo).
    apply rne_ge in S. rewrite Zle_Qle in S.
    rewrite <- pow2_inject in S by (unfold prec; lia).
    assert (B : (inject_Z N <= 2 ^ prec)%Q).
    { rewrite pow2_inject by (unfold prec; lia). rewrite <- Zle_Qle. lia. }
    assert (G : (2 ^ prec <= 2 ^ (prec - 1) * 2 ^ e)%Q).
    { rewrite <- pow2_add. apply Qpower_le_compat_l; [lia | discriminate]. }
    apply Qle_trans with (2 ^ (prec - 1) * 2 ^ e)%Q; [lra |].
    apply Qmult_le_compat_r; lra.
Qed.

Lemma round64_ge_int (q : Q) (N : Z) :
  (inject_Z N <= q)%Q -> 0 <= N < 2 ^ prec -> (inject_Z N <= round64 q)%Q.
Proof.
  intros HN Hb. destruct (Z.eq_dec N 0) as [-> | Hne].
  - apply round64_nonneg. exact HN.
  - assert (Hq : (0 < q)%Q).
    { eapply Qlt_le_trans; [| exact HN]. change 0%Q with (inject_Z 0).
      rewrite <- Zlt_Qlt. lia. }
    rewrite (round64_of_pos q Hq). apply round_pos_ge_int; [exact Hq | exact HN | lia].
Qed.

(** The integers below [2^53] are Numbers. *)
Lemma round64_int (N : Z) : 0 <= N < 2 ^ prec -> (round64 (inject_Z N) == inject_Z N)%Q.
Proof.
  intros Hb. apply Qle_antisym.
  - apply round64_le_int; [apply Qle_refl | exact Hb].
  - apply round64_ge_int; [apply Qle_refl | exact Hb].
Qed.

(** Rounding moves a positive value up by at most one part in [2^53]. *)
Lemma round_pos_upper (q : Q) :
  (0 < q)%Q -> (round_pos q <= q + q * 2 ^ (- prec))%Q.
Proof.
  intros Hq. destruct (ulp_exp_spec q Hq) as [Hlo _].
  unfold round_pos. set (e := ulp_exp q) in *.
  assert (P := pow2_pos e). assert (P' := pow2_pos (- e)).
  destruct (rne_bounds (q * 2 ^ (- e))) as [Hm _].
  assert (M : (inject_Z (rne (q * 2 ^ (- e))) * 2 ^ e
               <= (q * 2 ^ (- e) + (1 # 2)) * 2 ^ e)%Q)
    by (apply Qmult_le_compat_r; lra).
  assert (E1 : ((q * 2 ^ (- e) + (1 # 2)) * 2 ^ e == q + (1 # 2) * 2 ^ e)%Q).
  { rewrite Qmult_plus_distr_l, pow2_scale_back. reflexivity. }
  assert (H : ((1 # 2) * 2 ^ e <= q * 2 ^ (- prec))%Q).
  { assert (L : (2 ^ (prec - 1) * 2 ^ e <= q)%Q).
    { apply Qle_trans with (q * 2 ^ (- e) * 2 ^ e)%Q.
      - apply Qmult_le_compat_r; lra.
      - rewrite pow2_scale_back. apply Qle_refl. }
    assert (L' : (2 ^ (prec - 1) * 2 ^ e * 2 ^ (- prec) <= q * 2 ^ (- prec))%Q)
      by (apply Qmult_le_compat_r; [exact L | discriminate]).
    assert (E2 : (2 ^ (prec - 1) * 2 ^ e * 2 ^ (- prec) == (1 # 2) * 2 ^ e)%Q).
    { setoid_replace (2 ^ (prec - 1) * 2 ^ e * 2 ^ (- prec))%Q
        with (2 ^ (prec - 1) * 2 ^ (- prec) * 2 ^ e)%Q using relation Qeq by ring.
      apply Qmult_comp; reflexivity. }
    rewrite E2 in L'. exact L'. }
  rewrite E1 in M. lra.
Qed.

(** The quotient of a time in milliseconds by 1000, rounded to a Number and
    then down, is the number of whole seconds. *)
Lemma floor_div_1000 (ms : Z) :
  0 <= ms < 2 ^ (prec - 1) ->
  Math_floor (div (inject_Z ms) 1000) = ms / 1000.
Proof.
  intros Hms. unfold Math_floor, div.
  assert (Hk := Z.div_mod ms 1000 ltac:(lia)).
  assert (Hr := Z.mod_pos_bound ms 1000 ltac:(lia)).
  set (k := ms / 1000) in *. set (r := ms mod 1000) in *.
  assert (Hk0 : 0 <= k) by (apply Z.div_pos; lia).
  assert (Hk1 : k < 2 ^ prec).
  { assert (2 ^ (prec - 1) < 2 ^ prec) by reflexivity. lia. }
  set (x := (inject_Z ms / 1000)%Q).
  assert (X : (x == inject_Z k + inject_Z r / 1000)%Q).
  { unfold x. rewrite Hk, inject_Z_plus, inject_Z_mult. change (inject_Z 1000) with 1000%Q.
    field. }
  assert (R0 : (0 <= inject_Z r)%Q) by (change 0%Q with (inject_Z 0); rewrite <- Zle_Qle; lia).
  assert (R1 : (inject_Z r <= 999)%Q) by (change 999%Q with (inject_Z 999); rewrite <- Zle_Qle; lia).
  assert (D0 : (0 <= inject_Z r / 1000)%Q) by (apply Qle_shift_div_l; [reflexivity | lra]).
  assert (D1 : (inject_Z r / 1000 <= 999 # 1000)%Q)
    by (apply Qle_shift_div_r; [reflexivity | lra]).
  set (d := (inject_Z r / 1000)%Q) in *.
  assert (Lo : (inject_Z k <= round64 x)%Q).
  { apply round64_ge_int; [| lia]. rewrite X. lra. }
  assert (Hi : (round64 x < inject_Z (k + 1))%Q).
  { rewrite inject_Z_plus. change (inject_Z 1) with 1%Q.
    destruct (Z.eq_dec r 0) as [Er | Er].
    - assert (Xk : (x == inject_Z k)%Q).
      { rewrite X. unfold d. rewrite Er.
        setoid_replace (inject_Z 0 / 1000)%Q with 0%Q using relation Qeq by reflexivity.
        ring. }
      rewrite (NumberCompat.round64_compat x (inject_Z k) Xk), round64_int by lia. lra.
    - assert (R2 : (1 <= inject_Z r)%Q)
        by (change 1%Q with (inject_Z 1); rewrite <- Zle_Qle; lia).
      assert (D2 : (1 # 1000 <= d)%Q)
        by (unfold d; apply Qle_shift_div_l; [reflexivity | lra]).
      assert (Xpos : (0 < x)%Q).
      { rewrite X. assert (0 <= inject_Z k)%Q
          by (change 0%Q with (inject_Z 0); rewrite <- Zle_Qle; lia). lra. }
      rewrite (round64_of_pos x Xpos).
      assert (U := round_pos_upper x Xpos).
      assert (Xb : (x < 2 ^ (prec - 1) / 1000)%Q).
      { unfold x. apply Qmult_lt_compat_r; [reflexivity |].
        rewrite pow2_inject by (unfold prec; lia). rewrite <- Zlt_Qlt. lia. }
      assert (S : (x * 2 ^ (- prec) < 1 # 2000)%Q).
      { setoid_replace (1 # 2000)%Q with (2 ^ (prec - 1) / 1000 * 2 ^ (- prec))%Q
          using relation Qeq by reflexivity.
        apply Qmult_lt_compat_r; [reflexivity | exact Xb]. }
      lra. }
  apply Z.le_antisymm.
  - assert (L : (inject_Z (Qfloor (round64 x)) < inject_Z (k + 1))%Q)
      by (eapply Qle_lt_trans; [apply Qfloor_le | exact Hi]).
    apply Qlt_inject_Z in L. lia.
  - rewrite <- (Qfloor_Z k). apply Qfloor_resp_le, Lo.
Qed.

End NumberExact.

(** X14.  The clock of the story mode shows the whole seconds elapsed since
    the start of the test: the milliseconds elapsed, divided by 1000 and
    rounded down, although the quotient is first rounded to a Number. *)
Theorem story_clock_seconds (now : Z) (st : State) :
  (0 <= now - startTime st < 2 ^ 52)%Z ->
  timerDisplay (storyClock now st) = ((now - startTime st) / 1000)%Z
  ∧ (storyRunning st -> timerDisplay (tick now st) = ((now - startTime st) / 1000)%Z).
Proof.
  intros Hms.
  assert (E : timerDisplay (storyClock now st) = ((now - startTime st) / 1000)%Z).
  { unfold storyClock. cbn [timerDisplay set_timerDisplay].
    unfold Number.sub. rewrite inject_Z_minus.
    rewrite <- (NumberExact.floor_div_1000 (now - startTime st)) by exact Hms.
    apply NumberCompat.Math_floor_Proper. unfold Number.div.
    apply NumberCompat.round64_compat, Qmult_comp; [| reflexivity].
    apply NumberExact.round64_int. split; [lia |].
    eapply Z.lt_trans; [apply Hms | reflexivity]. }
  split; [exact E |].
  intros (_ & _ & Hint). unfold tick. rewrite Hint. exact E.
Qed.

Lemma story_clock_seconds_witness :
  let st := run quarters loadedPage (sessionIn "story") in
  timerDisplay (storyClock 62999 st) = 61%Z
  ∧ timerDisplay (tick 62999 st) = 61%Z.
Proof.
  destruct (story_clock_seconds 62999 (run quarters loadedPage (sessionIn "story")))
    as [H1 H2]; [vm_compute; split; [discriminate | reflexivity] |].
  cbn zeta. split; [rewrite H1; reflexivity |].
  rewrite H2; [reflexivity |]. repeat split.
Defined.

(** ** A test without typing, and the interval of a test *)

Lemma ticks_frame (Math_random : nat -> Q) (nows : list Z) (st : State) :
  timedRunning st -> (Z.of_nat (length nows) < timeLeft st)%Z ->
  let st' := run Math_random st (map Tick nows) in
  textInput_value st' = textInput_value st ∧ errors st' = errors st
  ∧ currentQuote st' = currentQuote st ∧ startTime st' = startTime st.
Proof.
  revert st. induction nows as [| now nows IH] using rev_ind; intros st Hst Hlen.
  - cbn. repeat split; reflexivity.
  - rewrite length_app in Hlen. cbn [length] in Hlen.
    destruct (IH st Hst ltac:(lia)) as (I1 & I2 & I3 & I4).
    destruct (ticks_run Math_random nows st Hst ltac:(lia)) as ([Hact Hint] & Hleft & _).
    cbn zeta. rewrite map_app. unfold run in *. rewrite foldl_app. cbn [map foldl step].
    set (st1 := foldl (step Math_random) st (map Tick nows)) in *.
    unfold tick. rewrite Hint. unfold updateTimer.
    destruct (decide (timeLeft st1 - 1 <= 0)%Z) as [L | L]; [lia |].
    cbn. repeat split; assumption.
Qed.

(** X15.  A timed test during which nothing is typed runs its full time and
    then shows 0 words per minute, an accuracy of 0 and no error. *)
Theorem untouched_test_scores_nothing (Math_random : nat -> Q) (level mode : string)
    (net : Network) (now : Z) (st : State) (nows : list Z) (last : Z) :
  mode ≠ "story"%string ->
  Z.of_nat (length nows) = (secondsOf level - 1)%Z ->
  let started := startTest Math_random now (startClick Math_random level mode net st) in
  running (run Math_random started (map Tick nows))
  ∧ resultDisplay (run Math_random started (map Tick (nows ++ [last])))
    = Some {| wpm := 0; accuracy := 0; shownErrors := 0 |}.
Proof.
  intros Hmode Hlen started.
  assert (Hsel : selectedMode (startClick Math_random level mode net st) = mode
                 ∧ selectedTimer (startClick Math_random level mode net st)
                   = secondsOf level).
  { unfold startClick, startCountdown. cbn [quotesReadyPromise].
    destruct (quotesReadyPromise st); [split; reflexivity |].
    match goal with
    | |- context [fetchAndCacheQuotes _ _ ?page] =>
        destruct (fetchAndCacheQuotes_frame Math_random net page) as (c & f & r & ->)
    end.
    split; reflexivity. }
  destruct Hsel as [Hsel1 Hsel2].
  destruct (startTest_timed Math_random now
              (startClick Math_random level mode net st)) as (Ht & Hl & _);
    [rewrite Hsel1; exact Hmode |].
  fold started in Ht, Hl. rewrite Hsel2 in Hl.
  destruct (ticks_run Math_random nows started Ht) as ([Hact Hint] & Hleft & _);
    [rewrite Hl; lia |].
  destruct (ticks_frame Math_random nows started Ht) as (F1 & F2 & F3 & _);
    [rewrite Hl; lia |].
  split; [exact Hact |].
  rewrite map_app. unfold run in *. rewrite foldl_app. cbn [map foldl step].
  set (st1 := foldl (step Math_random) started (map Tick nows)) in *.
  unfold tick. rewrite Hint. unfold updateTimer.
  destruct (decide (timeLeft st1 - 1 <= 0)%Z) as [_ | L]; [| lia].
  rewrite endTest_shows.
  cbn [textInput_value currentQuote errors set_intervalId set_timerDisplay set_timeLeft].
  rewrite F1, F2. change (textInput_value started) with (@nil char).
  change (errors started) with 0.
  change (matchingPositions [] (currentQuote st1)) with 0.
  destruct (score_of_nothing (length (@nil char)) (durationSeconds last
              (set_intervalId None (set_timerDisplay (timeLeft st1 - 1)
                 (set_timeLeft (timeLeft st1 - 1) st1))))) as [-> ->].
  reflexivity.
Qed.

Lemma untouched_test_scores_nothing_witness :
  let started := startTest quarters 1000 (startClick quarters "hard" "normal" offline loadedPage) in
  running (run quarters started (map Tick (replicate 29 2000%Z)))
  ∧ resultDisplay (run quarters started (map Tick (replicate 29 2000%Z ++ [31000%Z])))
    = Some {| wpm := 0; accuracy := 0; shownErrors := 0 |}.
Proof.
  apply (untouched_test_scores_nothing quarters "hard" "normal" offline 1000 loadedPage
           (replicate 29 2000%Z) 31000).
  - discriminate.
  - reflexivity.
Defined.

Lemma intervalWithTest_same (st st' : State) :
  isTestActive st' = isTestActive st -> intervalId st' = intervalId st ->
  intervalWithTest st -> intervalWithTest st'.
Proof. unfold intervalWithTest. intros -> ->. trivial. Qed.

Lemma intervalWithTest_endTest (now : Z) (st : State) : intervalWithTest (endTest now st).
Proof. unfold intervalWithTest. cbn. split; [discriminate | congruence]. Qed.

Lemma intervalWithTest_handleInput (now : Z) (t : string) (st : State) :
  intervalWithTest st -> intervalWithTest (handleInput now t st).
Proof.
  intros H. unfold handleInput.
  destruct (negb _); [exact H |]. destruct (_ && _); [exact H |].
  destruct (_ && _); [apply intervalWithTest_endTest |].
  apply (intervalWithTest_same st); [reflexivity | reflexivity | exact H].
Qed.

Lemma intervalWithTest_step (Math_random : nat -> Q) (st : State) (ev : Event) :
  intervalWithTest st -> intervalWithTest (step Math_random st ev).
Proof.
  intros H. destruct ev as [level mode net | now | now | now e | now k | now]; cbn [step].
  - apply (intervalWithTest_same st); [| | exact H];
      unfold startClick, startCountdown; cbn [quotesReadyPromise];
      (destruct (quotesReadyPromise st); [reflexivity |]);
      match goal with
      | |- context [fetchAndCacheQuotes _ _ ?page] =>
          destruct (fetchAndCacheQuotes_frame Math_random net page) as (c & f & r & ->)
      end; reflexivity.
  - unfold intervalWithTest, startTest. cbn. split; [discriminate | reflexivity].
  - unfold tick. destruct (intervalId st) as [[|] |] eqn:E; [| | exact H].
    + unfold updateTimer. destruct (decide _); [apply intervalWithTest_endTest |].
      apply (intervalWithTest_same st); [reflexivity | reflexivity | exact H].
    + apply (intervalWithTest_same st); [reflexivity | reflexivity | exact H].
  - unfold dispatchInput. apply intervalWithTest_handleInput.
    apply (intervalWithTest_same st); [reflexivity | reflexivity | exact H].
  - unfold dispatchKeyPress. destruct (keydownListener _ _); [exact H |].
    destruct (defaultEdit k) as [e |]; [| exact H].
    unfold dispatchInput. apply intervalWithTest_handleInput.
    apply (intervalWithTest_same st); [reflexivity | reflexivity | exact H].
  - apply intervalWithTest_endTest.
Qed.

(** X16.  Whatever happens on the page, an interval of the test is set
    exactly while a test is running: starting a test sets one, every end of
    a test clears it, and nothing else touches it. *)
Theorem interval_exactly_while_running (Math_random : nat -> Q) (net : Network)
    (evs : list Event) :
  let st := run Math_random (pageLoad Math_random net initialState) evs in
  isTestActive st = true ↔ intervalId st ≠ None.
Proof.
  cbn zeta. fold (intervalWithTest (run Math_random (pageLoad Math_random net initialState) evs)).
  assert (H0 : intervalWithTest (pageLoad Math_random net initialState)).
  { unfold pageLoad.
    destruct (fetchAndCacheQuotes_frame Math_random net initialState) as (c & f & r & ->).
    unfold intervalWithTest. cbn. split; [discriminate | congruence]. }
  revert H0. generalize (pageLoad Math_random net initialState). unfold run.
  induction evs as [| ev evs IH]; intros st H; cbn [foldl]; [exact H |].
  apply IH, intervalWithTest_step, H.
Qed.

(** ** The properties above on concrete pages *)

Lemma cleanText_shape_witness :
  startsClean (cleanText work2) ∧ endsClean (cleanText work2)
  ∧ (isWhiteSpace SP = true -> SP = SP)
  ∧ noPair isPunct isLetter (cleanText work2).
Proof.
  destruct (cleanText_shape work2) as (H1 & H2 & H3 & _ & H5 & _).
  split; [exact H1 |]. split; [exact H2 |]. split; [| exact H5].
  apply (H3 SP). apply (list_elem_of_lookup_2 _ 4). vm_compute. reflexivity.
Defined.

Lemma perfect_and_hopeless_witness :
  let st := run quarters loadedPage
              (sessionIn "story" ++ [Input 2000 (typed "insertText" "The quick")]) in
  let st' := run quarters loadedPage
               (sessionIn "story" ++ [Input 2000 (typed "insertText" "xyz")]) in
  (countErrors (textInput_value st) (currentQuote st) = 0
   ∧ accuracy <$> resultDisplay (endTest 9000 st) = Some 100%Z)
  ∧ accuracy <$> resultDisplay (endTest 9000 st') = Some 0%Z
  ∧ wpm <$> resultDisplay (endTest 9000 st') = Some 0%Z.
Proof.
  cbn zeta. split.
  - destruct (proj1 (perfect_and_hopeless 9000
                       (run quarters loadedPage
                          (sessionIn "story" ++ [Input 2000 (typed "insertText" "The quick")]))))
      as [H1 H2].
    + exists (drop 9 fallbackError). vm_compute. reflexivity.
    + split; [exact H1 | apply H2; vm_compute; discriminate].
  - apply (proj2 (perfect_and_hopeless 9000
                    (run quarters loadedPage
                       (sessionIn "story" ++ [Input 2000 (typed "insertText" "xyz")])))).
    vm_compute. reflexivity.
Defined.

Lemma updateQuoteDisplay_agrees_witness :
  let st := run quarters loadedPage
              (sessionIn "normal" ++ [Input 2000 (typed "insertText" "Thx")]) in
  countClass Incorrect (updateQuoteDisplay st) = 1
  ∧ countClass Correct (updateQuoteDisplay st) = 2
  ∧ countClass Current (updateQuoteDisplay st) = 1
  ∧ (updateQuoteDisplay st !! 3 = Some (SP, Current) -> 3 = length (textInput_value st)).
Proof.
  destruct (updateQuoteDisplay_agrees
              (run quarters loadedPage
                 (sessionIn "normal" ++ [Input 2000 (typed "insertText" "Thx")])))
    as (_ & H2 & H3 & H4 & H5).
  cbn zeta. rewrite H2, H3, H4.
  split; [vm_compute; reflexivity |]. split; [vm_compute; reflexivity |].
  split; [vm_compute; reflexivity |]. apply H5.
Defined.

(** * The score in Numbers and in exact arithmetic *)

(** How far the rounding of every quotient and product can move the score
    from the value of the formula. *)
Module NumberError.
Import Number NumberFacts NumberExact NumberCompat.
Local Open Scope Q_scope.

Lemma round_pos_lower (q : Q) :
  0 < q -> q - q * 2 ^ (- prec) <= round_pos q.
Proof.
  intros Hq. destruct (ulp_exp_spec q Hq) as [Hlo _].
  unfold round_pos. set (e := ulp_exp q) in *.
  assert (P := pow2_pos e). assert (P' := pow2_pos (- e)).
  destruct (rne_bounds (q * 2 ^ (- e))) as [_ Hm].
  assert (M : (q * 2 ^ (- e) - (1 # 2)) * 2 ^ e
               <= inject_Z (rne (q * 2 ^ (- e))) * 2 ^ e)
    by (apply Qmult_le_compat_r; lra).
  assert (E1 : (q * 2 ^ (- e) - (1 # 2)) * 2 ^ e == q - (1 # 2) * 2 ^ e).
  { setoid_replace ((q * 2 ^ (- e) - (1 # 2)) * 2 ^ e)
      with (q * 2 ^ (- e) * 2 ^ e - (1 # 2) * 2 ^ e) using relation Qeq by ring.
    rewrite pow2_scale_back. reflexivity. }
  assert (H : (1 # 2) * 2 ^ e <= q * 2 ^ (- prec)).
  { assert (L : 2 ^ (prec - 1) * 2 ^ e <= q).
    { apply Qle_trans with (q * 2 ^ (- e) * 2 ^ e).
      - apply Qmult_le_compat_r; lra.
      - rewrite pow2_scale_back. apply Qle_refl. }
    assert (L' : 2 ^ (prec - 1) * 2 ^ e * 2 ^ (- prec) <= q * 2 ^ (- prec))
      by (apply Qmult_le_compat_r; [exact L | discriminate]).
    assert (E2 : 2 ^ (prec - 1) * 2 ^ e * 2 ^ (- prec) == (1 # 2) * 2 ^ e).
    { setoid_replace (2 ^ (prec - 1) * 2 ^ e * 2 ^ (- prec))
        with (2 ^ (prec - 1) * 2 ^ (- prec) * 2 ^ e) using relation Qeq by ring.
      apply Qmult_comp; reflexivity. }
    rewrite E2 in L'. exact L'. }
  rewrite E1 in M. lra.
Qed.

(** Rounding moves a positive value by at most one part in [2^53]. *)
Lemma round64_near (q : Q) : 0 < q -> near (2 ^ (- prec)) (round64 q) q.
Proof.
  intros Hq. rewrite (round64_of_pos q Hq).
  assert (L := round_pos_lower q Hq). assert (U := round_pos_upper q Hq).
  unfold near. split; lra.
Qed.

Lemma near_compat (u x x' X X' : Q) :
  x == x' -> X == X' -> near u x X -> near u x' X'.
Proof. unfold near. intros Ex EX [L U]. rewrite <- Ex, <- EX. split; assumption. Qed.

Lemma near_pos (u x X : Q) : 0 < X -> u < 1 -> near u x X -> 0 < x.
Proof.
  unfold near. intros HX Hu [L _].
  assert (0 < X * (1 - u)) by (apply Qmult_lt_0_compat; lra). lra.
Qed.

(** The rounding of an approximation. *)
Lemma near_round (u u' x X : Q) :
  0 < X -> 0 <= u -> u < 1 ->
  (1 + u) * (1 + 2 ^ (- prec)) <= 1 + u' ->
  1 - u' <= (1 - u) * (1 - 2 ^ (- prec)) ->
  near u x X -> near u' (round64 x) X.
Proof.
  intros HX Hu0 Hu1 Hup Hlo Hx.
  assert (Hpos := near_pos u x X HX Hu1 Hx).
  destruct (round64_near x Hpos) as [L U]. destruct Hx as [Lx Ux].
  set (eps := 2 ^ (- prec)) in *.
  assert (E0 : 0 < eps) by reflexivity. assert (E1 : eps < 1) by reflexivity.
  unfold near. split.
  - apply Qle_trans with (x * (1 - eps)); [| exact L].
    apply Qle_trans with (X * (1 - u) * (1 - eps)).
    + rewrite <- Qmult_assoc. apply Qmult_le_l; [exact HX | exact Hlo].
    + apply Qmult_le_compat_r; lra.
  - apply Qle_trans with (x * (1 + eps)); [exact U |].
    apply Qle_trans with (X * (1 + u) * (1 + eps)).
    + apply Qmult_le_compat_r; lra.
    + rewrite <- Qmult_assoc. apply Qmult_le_l; [exact HX | exact Hup].
Qed.

Lemma Qmult_le_nonneg_l (x y z : Q) : 0 <= z -> x <= y -> z * x <= z * y.
Proof.
  intros Hz H. rewrite (Qmult_comm z x), (Qmult_comm z y).
  apply Qmult_le_compat_r; assumption.
Qed.

(** The quotient of two approximations. *)
Lemma near_div (u v w x y X Y : Q) :
  0 < X -> 0 < Y -> 0 <= u -> u < 1 -> 0 <= v -> v < 1 -> 0 <= w ->
  1 + u <= (1 + w) * (1 - v) ->
  (1 - w) * (1 + v) <= 1 - u ->
  near u x X -> near v y Y -> near w (x / y) (X / Y).
Proof.
  intros HX HY Hu0 Hu1 Hv0 Hv1 Hw0 Hup Hlo Hx Hy.
  assert (Hxp := near_pos u x X HX Hu1 Hx).
  assert (Hyp := near_pos v y Y HY Hv1 Hy).
  destruct Hx as [Lx Ux], Hy as [Ly Uy].
  assert (HXY : 0 < X / Y) by (apply Qlt_shift_div_l; lra).
  assert (EX : X / Y * Y == X) by (field; lra).
  unfold near. split.
  - apply Qle_shift_div_l; [exact Hyp |].
    (* X/Y (1-w) y <= X/Y (1-w) Y (1+v) <= X (1-u) <= x *)
    destruct (Qlt_le_dec (1 - w) 0) as [Hneg | Hnn].
    + apply Qle_trans with 0; [| lra].
      assert (0 <= X / Y * (w - 1) * y).
      { apply Qmult_le_0_compat; [apply Qmult_le_0_compat |]; lra. }
      lra.
    + apply Qle_trans with (X / Y * (1 - w) * (Y * (1 + v))).
      * apply Qmult_le_nonneg_l; [| exact Uy].
        apply Qmult_le_0_compat; lra.
      * apply Qle_trans with (X * (1 - u)); [| exact Lx].
        setoid_replace (X / Y * (1 - w) * (Y * (1 + v)))
          with (X / Y * Y * ((1 - w) * (1 + v))) using relation Qeq by ring.
        rewrite EX. apply Qmult_le_l; [exact HX | exact Hlo].
  - apply Qle_shift_div_r; [exact Hyp |].
    apply Qle_trans with (X * (1 + u)); [exact Ux |].
    apply Qle_trans with (X / Y * (1 + w) * (Y * (1 - v))).
    + setoid_replace (X / Y * (1 + w) * (Y * (1 - v)))
        with (X / Y * Y * ((1 + w) * (1 - v))) using relation Qeq by ring.
      rewrite EX. apply Qmult_le_l; [exact HX | exact Hup].
    + apply Qmult_le_nonneg_l; [| exact Ly].
      apply Qmult_le_0_compat; lra.
Qed.

Lemma near_scale (u x X c : Q) : 0 < c -> near u x X -> near u (x * c) (X * c).
Proof.
  unfold near. intros Hc [L U]. split.
  - setoid_replace (X * c * (1 - u)) with (X * (1 - u) * c) using relation Qeq by ring.
    apply Qmult_le_compat_r; lra.
  - setoid_replace (X * c * (1 + u)) with (X * (1 + u) * c) using relation Qeq by ring.
    apply Qmult_le_compat_r; lra.
Qed.

(** Two values less than 1 apart round to the same integer or to
    neighbours. *)
Lemma Math_round_near (x y : Q) :
  x - 1 < y -> y < x + 1 -> (Z.abs (Math_round y - Math_round x) <= 1)%Z.
Proof.
  intros L U. unfold Math_round.
  set (a := x + (1 # 2)). set (b := y + (1 # 2)).
  assert (A1 := Qfloor_le a). assert (A2 := Qlt_floor a).
  assert (B1 := Qfloor_le b). assert (B2 := Qlt_floor b).
  rewrite inject_Z_plus in A2, B2. change (inject_Z 1) with 1 in A2, B2.
  assert (H1 : inject_Z (Qfloor b) < inject_Z (Qfloor a + 2)).
  { rewrite inject_Z_plus. change (inject_Z 2) with 2. unfold a, b in *. lra. }
  assert (H2 : inject_Z (Qfloor a) < inject_Z (Qfloor b + 2)).
  { rewrite inject_Z_plus. change (inject_Z 2) with 2. unfold a, b in *. lra. }
  rewrite <- Zlt_Qlt in H1, H2. lia.
Qed.


Local Ltac numeric := unfold Qle, Qlt; vm_compute; first [discriminate | reflexivity].

Lemma of_nat_pos (n : nat) : (0 < n)%nat -> 0 < inject_Z (Z.of_nat n).
Proof. intros H. change 0 with (inject_Z 0). rewrite <- Zlt_Qlt. lia. Qed.

(** The accuracy shown is the exact one or a neighbour of it. *)
Lemma accuracy_near (correctChars totalTypedChars : nat) :
  (correctChars <= totalTypedChars)%nat ->
  (Z.abs (accuracy_in_Numbers correctChars totalTypedChars
          - exact_accuracy correctChars totalTypedChars) <= 1)%Z.
Proof.
  intros Hle. unfold accuracy_in_Numbers, exact_accuracy, exact_round.
  destruct (decide (0 < totalTypedChars)%nat) as [Ht | _]; [| cbn; lia].
  fold (Math_round (inject_Z (Z.of_nat correctChars) / inject_Z (Z.of_nat totalTypedChars)
                    * 100)).
  unfold mul, div, of_nat.
  set (C := inject_Z (Z.of_nat correctChars)).
  set (T := inject_Z (Z.of_nat totalTypedChars)).
  assert (HT : 0 < T) by (apply of_nat_pos; exact Ht).
  assert (HCT : C <= T) by (unfold C, T; rewrite <- Zle_Qle; lia).
  assert (Q1 : C / T <= 1) by (apply Qle_shift_div_r; lra).
  destruct (Nat.eq_dec correctChars 0%nat) as [E0 | Hc].
  - assert (EC : C == 0) by (unfold C; rewrite E0; reflexivity).
    assert (E1 : round64 (C / T) == 0).
    { rewrite (round64_compat (C / T) 0); [reflexivity |]. rewrite EC. field. lra. }
    assert (E2 : round64 (round64 (C / T) * 100) == 0).
    { rewrite (round64_compat (round64 (C / T) * 100) 0); [reflexivity |].
      rewrite E1. ring. }
    apply Math_round_near.
    + rewrite E2, EC. assert (0 / T * 100 == 0) by (field; lra). lra.
    + rewrite E2, EC. assert (0 / T * 100 == 0) by (field; lra). lra.
  - assert (HC : 0 < C) by (apply of_nat_pos; lia).
    assert (HX : 0 < C / T) by (apply Qlt_shift_div_l; lra).
    assert (N1 := round64_near (C / T) HX).
    assert (N2 := near_scale _ _ _ 100 eq_refl N1).
    assert (HX' : 0 < C / T * 100) by lra.
    assert (N3 : near (2 ^ (- 51)) (round64 (round64 (C / T) * 100)) (C / T * 100)).
    { apply (near_round (2 ^ (- prec))); try assumption; numeric. }
    destruct N3 as [L U].
    set (y := round64 (round64 (C / T) * 100)) in *.
    set (X := C / T * 100) in *.
    assert (HX1 : X <= 100) by (unfold X; lra).
    assert (S : X * 2 ^ (- 51) <= 100 * 2 ^ (- 51))
      by (apply Qmult_le_compat_r; [exact HX1 | discriminate]).
    assert (K : 100 * 2 ^ (- 51) < 1) by reflexivity.
    apply Math_round_near; lra.
Qed.

(** The quotient of the clock readings in seconds. *)
Lemma durationSeconds_near (now : Z) (st : State) :
  (0 < now - startTime st < 2 ^ prec)%Z ->
  near (2 ^ (- prec)) (durationSeconds now st) (inject_Z (now - startTime st) / 1000).
Proof.
  intros He. unfold durationSeconds, sub, div.
  set (E := inject_Z (now - startTime st)).
  assert (HE : 0 < E) by (unfold E; change 0 with (inject_Z 0); rewrite <- Zlt_Qlt; lia).
  assert (Es : round64 (inject_Z now - inject_Z (startTime st)) == E).
  { unfold Qminus. rewrite <- inject_Z_opp, <- inject_Z_plus.
    apply round64_int. lia. }
  assert (HD : 0 < E / 1000) by (apply Qlt_shift_div_l; [reflexivity | lra]).
  apply (near_compat _ (round64 (E / 1000)) _ (E / 1000) (E / 1000)).
  - apply round64_compat. rewrite Es. reflexivity.
  - reflexivity.
  - apply round64_near, HD.
Qed.

(** The words per minute shown are the exact ones or a neighbour of them. *)
Lemma wpm_near (correctChars : nat) (now : Z) (st : State) :
  (Z.of_nat correctChars < 2 ^ 32)%Z ->
  (now - startTime st < 2 ^ prec)%Z ->
  (Z.abs (wpm_in_Numbers correctChars (durationSeconds now st)
          - exact_wpm correctChars (now - startTime st)) <= 1)%Z.
Proof.
  intros Hc He. unfold wpm_in_Numbers, exact_wpm, exact_round.
  assert (Hpos := durationSeconds_pos now st).
  destruct (Qlt_le_dec 0 (durationSeconds now st)) as [L | L],
           (decide (0 < now - startTime st)%Z) as [L' | L'];
    try (cbn; lia); try (exfalso; apply Hpos in L; lia);
    try (exfalso; assert (0 < durationSeconds now st) by (apply Hpos; lia); lra).
  assert (Nd := durationSeconds_near now st (conj L' He)).
  set (d := durationSeconds now st) in *.
  set (E := inject_Z (now - startTime st)) in *.
  set (C := inject_Z (Z.of_nat correctChars)).
  fold (Math_round (C / 5 / (E / 1000 / 60))).
  unfold div, of_nat. fold C.
  assert (HE : 1 <= E) by (unfold E; change 1 with (inject_Z 1); rewrite <- Zle_Qle; lia).
  assert (HD : 0 < E / 1000) by (apply Qlt_shift_div_l; [reflexivity | lra]).
  assert (HT : 0 < E / 1000 / 60) by (apply Qlt_shift_div_l; [reflexivity | lra]).
  (* timeInMinutes *)
  assert (Nt0 : near (2 ^ (- prec)) (d / 60) (E / 1000 / 60))
    by (apply (near_scale _ _ _ (/ 60) eq_refl Nd)).
  assert (Nt : near (2 ^ (- 51)) (round64 (d / 60)) (E / 1000 / 60)).
  { apply (near_round (2 ^ (- prec))); try assumption; numeric. }
  destruct (Nat.eq_dec correctChars 0%nat) as [E0 | Hc0].
  - assert (EC : C == 0) by (unfold C; rewrite E0; reflexivity).
    assert (Tp := near_pos (2 ^ (- 51)) _ _ HT ltac:(numeric) Nt).
    assert (E1 : round64 (C / 5) == 0).
    { rewrite (round64_compat (C / 5) 0); [reflexivity |]. rewrite EC. reflexivity. }
    assert (E2 : round64 (round64 (C / 5) / round64 (d / 60)) == 0).
    { rewrite (round64_compat (round64 (C / 5) / round64 (d / 60)) 0); [reflexivity |].
      rewrite E1. field. lra. }
    assert (EX : C / 5 / (E / 1000 / 60) == 0) by (rewrite EC; field; lra).
    apply Math_round_near; rewrite E2, EX; reflexivity.
  - assert (HC : 1 <= C) by (unfold C; change 1 with (inject_Z 1); rewrite <- Zle_Qle; lia).
    assert (HA : 0 < C / 5) by (apply Qlt_shift_div_l; [reflexivity | lra]).
    assert (Na := round64_near (C / 5) HA).
    assert (Nq : near (2 ^ (- 50)) (round64 (C / 5) / round64 (d / 60))
                   (C / 5 / (E / 1000 / 60))).
    { apply (near_div (2 ^ (- prec)) (2 ^ (- 51))); try assumption; numeric. }
    assert (HX : 0 < C / 5 / (E / 1000 / 60)) by (apply Qlt_shift_div_l; lra).
    assert (Nw : near (2 ^ (- 49)) (round64 (round64 (C / 5) / round64 (d / 60)))
                   (C / 5 / (E / 1000 / 60))).
    { apply (near_round (2 ^ (- 50))); try assumption; numeric. }
    destruct Nw as [Lw Uw].
    set (w := round64 (round64 (C / 5) / round64 (d / 60))) in *.
    set (X := C / 5 / (E / 1000 / 60)) in *.
    assert (HCb : C <= 2 ^ 32).
    { unfold C. rewrite pow2_inject by lia. rewrite <- Zle_Qle. lia. }
    assert (HXb : X <= 12000 * 2 ^ 32).
    { unfold X. apply Qle_shift_div_r; [exact HT |].
      assert (12000 * 2 ^ 32 * (E / 1000 / 60) == 2 ^ 32 / 5 * E) by field.
      assert (2 ^ 32 / 5 * 1 <= 2 ^ 32 / 5 * E)
        by (apply Qmult_le_nonneg_l; [discriminate | exact HE]).
      assert (C / 5 <= 2 ^ 32 / 5) by (apply Qmult_le_compat_r; [exact HCb | discriminate]).
      lra. }
    assert (S : X * 2 ^ (- 49) <= 12000 * 2 ^ 32 * 2 ^ (- 49))
      by (apply Qmult_le_compat_r; [exact HXb | discriminate]).
    assert (K : 12000 * 2 ^ 32 * 2 ^ (- 49) < 1) by reflexivity.
    apply Math_round_near; lra.
Qed.

End NumberError.


(** The claim C1 as it is written, its formulas read in exact arithmetic,
    fails where a quotient is rounded below a half.  A test on the fallback
    passage starts at 1000 ms.  With "The qui" typed and the stop button
    clicked 56 seconds after the start, 7 characters are correct and
    [(7 / 5) / (56 / 60)] is 1.5: the formula gives 2, the page shows 1.
    With a text of 40 characters of which 23 are correct,
    [23 / 40 * 100] is 57.5: the formula gives 58, the page shows 57. *)
Lemma endTest_not_exact :
  let st := run quarters loadedPage (sessionIn "normal") in
  let slow := typed "insertText" "The qui" in
  let faulty := typed "insertFromPaste" "The quick brown fox jumXXXXXXXXXXXXXXXXX" in
  running st
  ∧ startTime st = 1000%Z
  ∧ matchingPositions (value slow) (currentQuote st) = 7
  ∧ wpm <$> resultDisplay (run quarters st [Input 2000 slow; StopClick 57000]) = Some 1%Z
  ∧ exact_wpm 7 (57000 - 1000) = 2%Z
  ∧ matchingPositions (value faulty) (currentQuote st) = 23
  ∧ length (value faulty) = 40
  ∧ accuracy <$> resultDisplay (run quarters st [Input 2000 faulty; StopClick 31000])
    = Some 57%Z
  ∧ exact_accuracy 23 40 = 58%Z.
Proof. vm_compute. repeat split; reflexivity. Qed.

(** C1, as the code has it.  [endTest] shows the score of the specification
    computed in Numbers: [correctChars] is the number of positions below
    both lengths at which the typed text and the passage agree; [wpm] is
    [Math.round((correctChars / 5) / (durationSeconds / 60))] if the
    duration is positive, which it is exactly when the clock has advanced
    since the start of the test, and 0 otherwise; the accuracy is
    [Math.round(correctChars / totalTypedChars * 100)] if some text was
    typed and 0 otherwise; every difference, quotient and product is rounded
    to the nearest Number.  The accuracy shown is the value of the formula
    in exact arithmetic or a neighbour of it, and so is [wpm] for a text of
    fewer than [2^32] characters and fewer than [2^53] milliseconds.  For
    the passage "Hello world" and the typed text "Hxllo world", 10 of 11
    characters are correct and the accuracy is 91, in both arithmetics. *)
Theorem endTest_result (now : Z) (st : State) :
  let typedText := textInput_value st in
  let correctChars := matchingPositions typedText (currentQuote st) in
  let elapsed := (now - startTime st)%Z in
  let shown_wpm := wpm_in_Numbers correctChars (durationSeconds now st) in
  let shown_accuracy := accuracy_in_Numbers correctChars (length typedText) in
  resultDisplay (endTest now st)
  = Some {| wpm := shown_wpm; accuracy := shown_accuracy; shownErrors := errors st |}
  ∧ ((0 < durationSeconds now st)%Q <-> (startTime st < now)%Z)
  ∧ (Z.abs (shown_accuracy - exact_accuracy correctChars (length typedText)) <= 1)%Z
  ∧ (arrayLength (length typedText) -> (elapsed < 2 ^ 53)%Z ->
     (Z.abs (shown_wpm - exact_wpm correctChars elapsed) <= 1)%Z)
  ∧ matchingPositions (lit "Hxllo world") (lit "Hello world") = 10
  ∧ exact_accuracy 10 11 = 91%Z
  ∧ accuracy <$> resultDisplay
      (endTest now
         (set_textInput_value (lit "Hxllo world")
            (set_currentQuote (lit "Hello world") st)))
    = Some 91%Z.
Proof.
  cbn zeta.
  assert (Hm := matchingPositions_le (textInput_value st) (currentQuote st)).
  split; [apply endTest_shows |].
  split; [apply durationSeconds_pos |].
  split; [apply NumberError.accuracy_near; lia |].
  split; [intros Hlen He; apply NumberError.wpm_near;
          [unfold arrayLength in Hlen; lia | exact He] |].
  split; [vm_compute; reflexivity |].
  split; [vm_compute; reflexivity |].
  unfold endTest. cbn [resultDisplay fmap option_fmap option_map accuracy
    set_textInput_value set_currentQuote textInput_value currentQuote].
  apply (f_equal Some). vm_compute. reflexivity.
Qed.

Lemma endTest_result_witness :
  let st := run quarters loadedPage
              (sessionIn "normal" ++ [Input 2000 (typed "insertText" "The qui")]) in
  let correctChars := matchingPositions (textInput_value st) (currentQuote st) in
  arrayLength (length (textInput_value st))
  ∧ (57000 - startTime st < 2 ^ 53)%Z
  ∧ (Z.abs (wpm_in_Numbers correctChars (durationSeconds 57000 st)
            - exact_wpm correctChars (57000 - startTime st)) <= 1)%Z
  ∧ (Z.abs (accuracy_in_Numbers correctChars (length (textInput_value st))
            - exact_accuracy correctChars (length (textInput_value st))) <= 1)%Z.
Proof.
  cbn zeta.
  split; [vm_compute; reflexivity |]. split; [vm_compute; reflexivity |].
  destruct (endTest_result 57000
              (run quarters loadedPage
                 (sessionIn "normal" ++ [Input 2000 (typed "insertText" "The qui")])))
    as (_ & _ & Ha & Hw & _).
  split; [apply Hw; vm_compute; reflexivity | exact Ha].
Defined.
